(** * tripn: the Triple value type and the Turtle Reader

    A shallow embedding of [tripn.go] (the Triple record, its N-Triples
    rendering and the XSD accessors) and of the Turtle [Reader]
    (line buffer, directive handler, term recognisers, quoted-literal
    decoder, numeric classifier, statement driver), followed by the
    properties the specification states about them.

    Conventions of the embedding:
    - a Go [string] is a Rocq [string]; a Go [[]byte] is a [list ascii];
      [string(b)] is [string_of_list_ascii b];
    - a method of [*Reader] is a computation in the monad [M]: it threads
      the Reader and the caller's slice [dst] (reached through [dstp] in
      the source) and ends in one of four ways: it returns with a nil
      error, it returns with a non-nil error, it panics, or it is still
      running when the fuel given to an unbounded loop runs out;
    - a [for] loop over the indices of a line is a structural recursion
      over the suffix [line[i:]] of that line; a loop the source does not
      bound takes fuel;
    - what the Go standard library does (net/url, strconv.Quote, the clock
      and the random source) is a parameter, the class [GoLib]; bufio's
      ReadSlice and utf8.Valid are written out. *)

From Stdlib Require Import ZArith Ascii String List Lia.
From Stdlib Require DecimalString HexadecimalString DecimalZ DecimalPos.
From stdpp Require Import base option list strings gmap.
Import ListNotations.

Local Open Scope string_scope.
Local Open Scope list_scope.
Local Open Scope Z_scope.

(** ** Bytes *)

Abbreviation bytes := (list ascii).

Abbreviation dquote := ("034"%char).
Abbreviation squote := ("'"%char).
Abbreviation backslash := ("\"%char).
Abbreviation TAB := ("009"%char).
Abbreviation LF := ("010"%char).
Abbreviation CR := ("013"%char).
Abbreviation SP := (" "%char).

Definition code (c : ascii) : Z := Z.of_N (N_of_ascii c).

Definition eqc (c d : ascii) : bool := Ascii.eqb c d.

(** [case ' ', '\t', '\r', '\n'] *)
Definition isWS (c : ascii) : bool := eqc c SP || eqc c TAB || eqc c CR || eqc c LF.

(** [c >= '0' && c <= '9'] *)
Definition isDigit (c : ascii) : bool := (code "0" <=? code c) && (code c <=? code "9").

(** [c >= 'A' && c <= 'Z' || c >= 'a' && c <= 'z'] *)
Definition isLetter (c : ascii) : bool :=
  (code "A" <=? code c) && (code c <=? code "Z") || (code "a" <=? code c) && (code c <=? code "z").

Definition str (b : bytes) : string := string_of_list_ascii b.
Definition raw (s : string) : bytes := list_ascii_of_string s.

(** A string between double quotes, for messages that quote a token. *)
Definition quoted (s : string) : string := String dquote (s +:+ String dquote "").

(** ** What the embedding takes from the Go standard library *)

Class GoLib := {
  (** [*url.URL] with [url.Parse] (left: the URL, right: the error text),
      the [Scheme] field, [ResolveReference] and [String]. *)
  URL : Type;
  url_Parse : string -> URL + string;
  URL_Scheme : URL -> string;
  URL_ResolveReference : URL -> URL -> URL;
  URL_String : URL -> string;
  (** [strconv.Quote], which is what the verb [%q] of package fmt prints. *)
  strconv_Quote : string -> string;
  (** [time.Now().UnixNano()] and [rand.Uint32()] as read when a Reader
      mints its skolem root. *)
  time_Now_UnixNano : Z;
  rand_Uint32 : Z
}.

(** ** tripn.go *)

Record Triple := {
  SubjectIRI : string;
  PredicateIRI : string;
  Object : string;
  DatatypeIRI : string;
  LangTag : string
}.

Definition XSDString_IRI : string := "http://www.w3.org/2001/XMLSchema#string".
Definition XSDBoolean_IRI : string := "http://www.w3.org/2001/XMLSchema#boolean".
Definition XSDDecimal_IRI : string := "http://www.w3.org/2001/XMLSchema#decimal".
Definition XSDInteger_IRI : string := "http://www.w3.org/2001/XMLSchema#integer".
Definition XSDDouble_IRI : string := "http://www.w3.org/2001/XMLSchema#double".
Definition rdf_langString : string := "http://www.w3.org/1999/02/22-rdf-syntax-ns#langString".
Definition rdf_type : string := "http://www.w3.org/1999/02/22-rdf-syntax-ns#type".

(** [func (t Triple) String() string]: the three cases of the switch, with
    [%s] printing a string as it is and [%q] printing [strconv_Quote]. *)
Definition Triple_String `{GoLib} (t : Triple) : string :=
  if String.eqb (DatatypeIRI t) "" then
    "<" +:+ SubjectIRI t +:+ "> <" +:+ PredicateIRI t +:+ "> <" +:+ Object t +:+ "> ."
  else if String.eqb (LangTag t) "" then
    "<" +:+ SubjectIRI t +:+ "> <" +:+ PredicateIRI t +:+ "> "
        +:+ strconv_Quote (Object t) +:+ "^^<" +:+ DatatypeIRI t +:+ "> ."
  else
    "<" +:+ SubjectIRI t +:+ "> <" +:+ PredicateIRI t +:+ "> "
        +:+ strconv_Quote (Object t) +:+ "@" +:+ LangTag t +:+ " .".

(** The errors of the accessors. *)
Inductive accessor_error :=
| errXSDString          (* object not an xsd:string *)
| errXSDBoolean         (* object not an xsd:boolean *)
| errXSDBooleanSyntax.  (* object not an xsd:boolean: illegal syntax *)

(** [func (t Triple) XSDString() (string, error)] *)
Definition XSDString (t : Triple) : string * option accessor_error :=
  if negb (String.eqb (DatatypeIRI t) XSDString_IRI) then ("", Some errXSDString)
  else ("", None).

(** [func (t Triple) XSDBoolean() (bool, error)] *)
Definition XSDBoolean (t : Triple) : bool * option accessor_error :=
  if negb (String.eqb (DatatypeIRI t) XSDBoolean_IRI) then (false, Some errXSDBoolean)
  else if String.eqb (Object t) "false" || String.eqb (Object t) "0" then (false, None)
  else if String.eqb (Object t) "true" || String.eqb (Object t) "1" then (true, None)
  else (false, Some errXSDBooleanSyntax).

(** ** The Reader: skolem namespace *)

Definition skolemIRIRoot_const : string := "web+skolem://quies.net/".

(** [strings.HasPrefix(s, prefix)]: s begins with prefix. *)
Definition strings_HasPrefix (s prefix : string) : bool := String.prefix prefix s.

(** [func IsSkolemIRI(s string) bool]: the source passes the namespace as
    the first argument of HasPrefix and [s] as the second. *)
Definition IsSkolemIRI (s : string) : bool := strings_HasPrefix skolemIRIRoot_const s.

(** ** Errors and outcomes *)

(** What the source behind the bufio.Reader ends with: io.EOF, or another
    error of its own. *)
Inductive srcerr :=
| src_EOF
| src_failure (msg : string).

(** The error of ReadSlice: bufio.ErrBufferFull, or the source's. *)
Inductive readerr :=
| bufio_ErrBufferFull
| from_source (e : srcerr).

(** The errors a Reader method returns. [io.ErrUnexpectedEOF] carries the
    text the source wraps it with through [fmt.Errorf("%w: ...")], empty
    when it is returned bare. *)
Inductive error :=
| io_EOF
| io_ErrUnexpectedEOF (detail : string)
| SyntaxError (LineNo : Z) (Reason : string)
| url_Error (msg : string)
| stream_error (msg : string).

Inductive outcome (A : Type) : Type :=
| Done (a : A)
| Fail (e : error)
| Panic (msg : string)
| Hang.

Arguments Done {A} a.
Arguments Fail {A} e.
Arguments Panic {A} msg.
Arguments Hang {A}.

(** ** bufio.Reader and utf8.Valid *)

(** The buffered reader over its source: the bytes the source still
    delivers, the error it reports after them, and the size of the buffer. *)
Record bufio_Reader := {
  input : bytes;
  at_end : srcerr;
  buf_size : nat
}.

(** [bytes.IndexByte(p, '\n')] *)
Fixpoint index_LF (p : bytes) : option nat :=
  match p with
  | [] => None
  | c :: p' => if eqc c LF then Some 0%nat else option_map S (index_LF p')
  end.

(** [func (b *Reader) ReadSlice(delim byte) (line []byte, err error)] at
    [delim = '\n']: the bytes up to and including the first new-line when
    the buffer holds it; a full buffer with ErrBufferFull when [buf_size]
    bytes come without one; else what is left, with the source's error. *)
Definition ReadSlice (b : bufio_Reader) : bytes * option readerr * bufio_Reader :=
  let advance n := {| input := drop n (input b); at_end := at_end b; buf_size := buf_size b |} in
  match index_LF (take (buf_size b) (input b)) with
  | Some i => (take (S i) (input b), None, advance (S i))
  | None =>
      if (buf_size b <=? length (input b))%nat
      then (take (buf_size b) (input b), Some bufio_ErrBufferFull, advance (buf_size b))
      else (input b, Some (from_source (at_end b)), advance (length (input b)))
  end.

Definition between (lo hi : Z) (c : ascii) : bool := (lo <=? code c) && (code c <=? hi).

(** [utf8.Valid]: the well-formed byte sequences of UTF-8 (no overlong
    form, no surrogate, nothing above U+10FFFF). *)
Fixpoint utf8_Valid (p : bytes) : bool :=
  match p with
  | [] => true
  | c0 :: p1 =>
      if code c0 <? 0x80 then utf8_Valid p1
      else if between 0xC2 0xDF c0 then
        match p1 with
        | c1 :: p2 => between 0x80 0xBF c1 && utf8_Valid p2
        | _ => false
        end
      else if between 0xE0 0xEF c0 then
        match p1 with
        | c1 :: c2 :: p3 =>
            (if code c0 =? 0xE0 then between 0xA0 0xBF c1
             else if code c0 =? 0xED then between 0x80 0x9F c1
             else between 0x80 0xBF c1)
            && between 0x80 0xBF c2 && utf8_Valid p3
        | _ => false
        end
      else if between 0xF0 0xF4 c0 then
        match p1 with
        | c1 :: c2 :: c3 :: p4 =>
            (if code c0 =? 0xF0 then between 0x90 0xBF c1
             else if code c0 =? 0xF4 then between 0x80 0x8F c1
             else between 0x80 0xBF c1)
            && between 0x80 0xBF c2 && between 0x80 0xBF c3 && utf8_Valid p4
        | _ => false
        end
      else false
  end.

(** ** The Reader and the monad of its methods *)

Record Reader `{GoLib} := {
  R : bufio_Reader;
  pending : bytes;
  BaseIRI : option URL;
  prefixPerLabel : gmap string string;
  lineNo : Z;
  anonNodeNo : Z;
  collectionLevel : Z;
  propListLevel : Z;
  skolemIRICache : string
}.

(** Go's [int] on a 64-bit platform: [x++] wraps around. *)
Definition int_wrap (x : Z) : Z := (x + 2 ^ 63) mod 2 ^ 64 - 2 ^ 63.
Definition incr (x : Z) : Z := int_wrap (x + 1).

(** The Reader together with the slice [dst] of the running ReadAppend. *)
Record world `{GoLib} := {
  rdr : Reader;
  dst : list Triple
}.

Section Monad.
Context `{GoLib}.

Definition M (A : Type) : Type := world -> outcome A * world.

Definition ret {A} (a : A) : M A := fun w => (Done a, w).
Definition fail {A} (e : error) : M A := fun w => (Fail e, w).
Definition panic {A} (msg : string) : M A := fun w => (Panic msg, w).
Definition hang {A} : M A := fun w => (Hang, w).

Definition bind {A B} (m : M A) (k : A -> M B) : M B :=
  fun w =>
    match m w with
    | (Done a, w') => k a w'
    | (Fail e, w') => (Fail e, w')
    | (Panic msg, w') => (Panic msg, w')
    | (Hang, w') => (Hang, w')
    end.

Definition get : M Reader := fun w => (Done (rdr w), w).
Definition modify (f : Reader -> Reader) : M unit :=
  fun w => (Done tt, {| rdr := f (rdr w); dst := dst w |}).

(** [dst = append(dst, t)] *)
Definition append_dst (t : Triple) : M unit :=
  fun w => (Done tt, {| rdr := rdr w; dst := dst w ++ [t] |}).

End Monad.

Notation "'let*' x := m 'in' k" := (bind m (fun x => k))
  (at level 10, x pattern, m at level 100, k at level 200).
Notation "m ;; k" := (bind m (fun _ => k))
  (at level 100, k at level 200, right associativity).

Section Reader.
Context `{GoLib}.

Definition set_R (b : bufio_Reader) (r : Reader) : Reader :=
  {| R := b; pending := pending r; BaseIRI := BaseIRI r; prefixPerLabel := prefixPerLabel r;
     lineNo := lineNo r; anonNodeNo := anonNodeNo r; collectionLevel := collectionLevel r;
     propListLevel := propListLevel r; skolemIRICache := skolemIRICache r |}.
Definition set_pending (p : bytes) (r : Reader) : Reader :=
  {| R := R r; pending := p; BaseIRI := BaseIRI r; prefixPerLabel := prefixPerLabel r;
     lineNo := lineNo r; anonNodeNo := anonNodeNo r; collectionLevel := collectionLevel r;
     propListLevel := propListLevel r; skolemIRICache := skolemIRICache r |}.
Definition set_BaseIRI (u : option URL) (r : Reader) : Reader :=
  {| R := R r; pending := pending r; BaseIRI := u; prefixPerLabel := prefixPerLabel r;
     lineNo := lineNo r; anonNodeNo := anonNodeNo r; collectionLevel := collectionLevel r;
     propListLevel := propListLevel r; skolemIRICache := skolemIRICache r |}.
Definition set_prefixPerLabel (m : gmap string string) (r : Reader) : Reader :=
  {| R := R r; pending := pending r; BaseIRI := BaseIRI r; prefixPerLabel := m;
     lineNo := lineNo r; anonNodeNo := anonNodeNo r; collectionLevel := collectionLevel r;
     propListLevel := propListLevel r; skolemIRICache := skolemIRICache r |}.
Definition set_lineNo (n : Z) (r : Reader) : Reader :=
  {| R := R r; pending := pending r; BaseIRI := BaseIRI r; prefixPerLabel := prefixPerLabel r;
     lineNo := n; anonNodeNo := anonNodeNo r; collectionLevel := collectionLevel r;
     propListLevel := propListLevel r; skolemIRICache := skolemIRICache r |}.
Definition set_anonNodeNo (n : Z) (r : Reader) : Reader :=
  {| R := R r; pending := pending r; BaseIRI := BaseIRI r; prefixPerLabel := prefixPerLabel r;
     lineNo := lineNo r; anonNodeNo := n; collectionLevel := collectionLevel r;
     propListLevel := propListLevel r; skolemIRICache := skolemIRICache r |}.
Definition set_propListLevel (n : Z) (r : Reader) : Reader :=
  {| R := R r; pending := pending r; BaseIRI := BaseIRI r; prefixPerLabel := prefixPerLabel r;
     lineNo := lineNo r; anonNodeNo := anonNodeNo r; collectionLevel := collectionLevel r;
     propListLevel := n; skolemIRICache := skolemIRICache r |}.
Definition set_skolemIRICache (s : string) (r : Reader) : Reader :=
  {| R := R r; pending := pending r; BaseIRI := BaseIRI r; prefixPerLabel := prefixPerLabel r;
     lineNo := lineNo r; anonNodeNo := anonNodeNo r; collectionLevel := collectionLevel r;
     propListLevel := propListLevel r; skolemIRICache := s |}.

(** [func (r *Reader) syntaxErr(reason string) error], returned. *)
Definition syntaxErr {A} (reason : string) : M A :=
  let* r := get in fail (SyntaxError (lineNo r) reason).

(** [%x] of an int64 and [%d] of an int. *)
Definition hex (x : Z) : string :=
  (if x <? 0 then "-" else "") +:+
  HexadecimalString.NilZero.string_of_uint (N.to_hex_uint (Z.to_N (Z.abs x))).
Definition dec (x : Z) : string := DecimalString.NilZero.string_of_int (Z.to_int x).

(** [func (r *Reader) skolemIRIRoot() string] *)
Definition skolemIRIRoot : M string :=
  let* r := get in
  if String.eqb (skolemIRICache r) "" then
    let root := skolemIRIRoot_const +:+ hex time_Now_UnixNano +:+ hex rand_Uint32 +:+ "/" in
    modify (set_skolemIRICache root) ;;
    ret root
  else ret (skolemIRICache r).

(** [func lead(line []byte) []byte] *)
Fixpoint lead (line : bytes) : bytes :=
  match line with
  | [] => []
  | c :: rest =>
      if eqc c SP || eqc c TAB || eqc c CR then lead rest
      else if eqc c "#" || eqc c LF then []
      else line
  end.

Definition nonempty (line : bytes) : bool := negb (length line =? 0)%nat.

Definition is_nil (err : option readerr) : bool :=
  match err with None => true | Some _ => false end.

(** [errors.Is(err, io.EOF)] on an error of ReadSlice. *)
Definition errors_Is_EOF (err : option readerr) : bool :=
  match err with Some (from_source src_EOF) => true | _ => false end.

(** An error of ReadSlice handed on to the caller as it is. *)
Definition returned (err : option readerr) : error :=
  match err with
  | Some (from_source (src_failure msg)) => stream_error msg
  | _ => io_EOF
  end.

(** The loop of [func (r *Reader) line() ([]byte, error)]. Every turn that
    does not return takes at least one byte from the input, so [Reader_line]
    below runs it with more fuel than the input has bytes. *)
Fixpoint line_loop (fuel : nat) (line : bytes) : M bytes :=
  let line := lead line in
  if nonempty line then ret line
  else
    match fuel with
    | O => hang
    | S fuel' =>
        let* r := get in
        let '(line, err, b) := ReadSlice (R r) in
        modify (set_R b) ;;
        if is_nil err || errors_Is_EOF err && nonempty line then
          modify (fun r => set_lineNo (incr (lineNo r)) r) ;;
          if negb (utf8_Valid line)
          then modify (set_pending line) ;; syntaxErr "invalid UTF-8"
          else line_loop fuel' line
        else
          match err with
          | Some bufio_ErrBufferFull =>
              modify (set_pending line) ;; syntaxErr "line too long"
          | _ =>
              modify (set_pending line) ;; fail (returned err)
          end
    end.

Definition Reader_line : M bytes :=
  let* r := get in line_loop (S (length (input (R r)))) (pending r).

(** [func (r *Reader) lineContinue(remainder []byte) (line []byte, err error)] *)
Definition lineContinue (remainder : bytes) : M bytes :=
  let l := lead remainder in
  if nonempty l then ret l
  else fun w =>
    match Reader_line w with
    | (Fail io_EOF, w') => (Fail (io_ErrUnexpectedEOF ""), w')
    | other => other
    end.

(** [line[lo:hi]] *)
Definition slice (line : bytes) (lo hi : nat) : bytes := take (hi - lo) (drop lo line).

(** [line[0]], which panics on an empty slice. *)
Definition first_byte (line : bytes) : M ascii :=
  match line with
  | c :: _ => ret c
  | [] => panic "index out of range"
  end.

(** The loop of inToken; [tok] is [token[i:]] and [rest] is [line[i:]]. *)
Fixpoint inToken_loop (token : string) (tok rest : bytes) : M unit :=
  match tok with
  | [] => ret tt
  | tc :: tok' =>
      match rest with
      | [] => fail (io_ErrUnexpectedEOF ("token " +:+ strconv_Quote token +:+ " interrupted"))
      | c :: rest' =>
          if negb (eqc c tc)
          then syntaxErr ("unknown token; expected " +:+ strconv_Quote token)
          else inToken_loop token tok' rest'
      end
  end.

(** [func (r *Reader) inToken(line []byte, token string) (remainder []byte, err error)] *)
Definition inToken (line : bytes) (token : string) : M bytes :=
  inToken_loop token (drop 1 (raw token)) (drop 1 line) ;;
  ret (drop (String.length token) line).

(** The loop of inIRI; [rest] is [line[i:]]. *)
Fixpoint inIRI_loop (line rest : bytes) (i : nat) : M (string * bytes) :=
  match rest with
  | [] => fail (io_ErrUnexpectedEOF "URI reference interupted")
  | c :: rest' =>
      if eqc c ">" then
        let IRI := str (slice line 1 i) in
        match url_Parse IRI with
        | inl l =>
            if String.eqb (URL_Scheme l) "" then
              let* r := get in
              match BaseIRI r with
              | None => syntaxErr "relative reference without base IRI"
              | Some base => ret (URL_String (URL_ResolveReference base l), rest')
              end
            else ret (IRI, rest')
        | inr msg => fail (url_Error msg)
        end
      else if eqc c "<" || eqc c dquote || eqc c "{" || eqc c "}" || eqc c "|" || eqc c "^" || eqc c "`"
      then syntaxErr "illegal character in IRI reference"
      else if eqc c backslash then panic "TODO: Unicode escape"
      else if code c <=? 0x20 then syntaxErr "control character in IRI reference"
      else inIRI_loop line rest' (S i)
  end.

(** [func (r *Reader) inIRI(line []byte) (IRI string, remainder []byte, err error)] *)
Definition inIRI (line : bytes) : M (string * bytes) := inIRI_loop line (drop 1 line) 1.

(** [func (r *Reader) afterBaseDirective(line []byte, terminated bool) (remainder []byte, err error)].
    The error of the second url.Parse is overwritten or dropped; the
    pointer it returns beside an error is nil. *)
Definition afterBaseDirective (line : bytes) (terminated : bool) : M bytes :=
  let* line := lineContinue line in
  let* c := first_byte line in
  if negb (eqc c "<")
  then syntaxErr ("IRI reference of base directive does not start with " +:+ quoted "<")
  else
    let* (s, line) := inIRI line in
    modify (set_BaseIRI (match url_Parse s with inl u => Some u | inr _ => None end)) ;;
    if terminated then
      let* line := lineContinue line in
      let* c := first_byte line in
      if negb (eqc c ".")
      then syntaxErr ("base directive not terminated with " +:+ quoted ".")
      else ret (drop 1 line)
    else ret line.

(** The loop ReadLabel of afterPrefixDirective; [rest] is [line[i:]]. *)
Fixpoint ReadLabel (line rest : bytes) (i : nat) : M (string * bytes) :=
  match rest with
  | [] => fail (io_ErrUnexpectedEOF "prefix directive label interrupted")
  | c :: rest' =>
      if eqc c ":" then ret (str (take i line), rest')
      else if isWS c then syntaxErr ("prefix label without " +:+ quoted ":" +:+ " suffix")
      else ReadLabel line rest' (S i)
  end.

(** [func (r *Reader) afterPrefixDirective(line []byte, terminated bool) (remainder []byte, err error)] *)
Definition afterPrefixDirective (line : bytes) (terminated : bool) : M bytes :=
  let* line := lineContinue line in
  let* (label, line) := ReadLabel line line 0 in
  let* line := lineContinue line in
  let* c := first_byte line in
  if negb (eqc c "<")
  then syntaxErr ("IRI of prefix directive does not start with " +:+ quoted "<")
  else
    let* (prefix, line) := inIRI line in
    modify (fun r => set_prefixPerLabel (<[label := prefix]> (prefixPerLabel r)) r) ;;
    if terminated then
      let* line := lineContinue line in
      let* c := first_byte line in
      if negb (eqc c ".")
      then syntaxErr ("prefix directive is not terminated with " +:+ quoted ".")
      else ret (drop 1 line)
    else ret line.

(** [func (r *Reader) inDirective(line []byte) (remainder []byte, err error)] *)
Definition inDirective (line : bytes) : M bytes :=
  match line with
  | _ :: c1 :: _ =>
      if eqc c1 "b" then
        let* line := inToken (drop 1 line) "base" in
        afterBaseDirective line true
      else if eqc c1 "p" then
        let* line := inToken (drop 1 line) "prefix" in
        afterPrefixDirective line true
      else syntaxErr ("unknown directive; expected either " +:+ quoted "@base"
                      +:+ " or " +:+ quoted "@prefix")
  | _ => fail (io_ErrUnexpectedEOF "directive interrupted")
  end.

(** The loop ReadToken, which readPredicate, inUndeterminedSubject and
    inUndeterminedObject each write out: it stops at the first white-space
    byte, at index [i] of [line], and the first colon splits the prefix
    label off: [prefixLabel = line[:i]], [line = line[i+1:]], [i = 0], and
    the loop's [i++] then passes over the first byte of the local part.
    [rest] is [line[i:]]; [None] is the end of the line ([i >= len(line)]). *)
Fixpoint ReadToken (prefixLabel : option bytes) (line rest : bytes) (i : nat)
  : option (option bytes * bytes * nat) :=
  match rest with
  | [] => None
  | c :: rest' =>
      if isWS c then Some (prefixLabel, line, i)
      else if eqc c ":" then
        match prefixLabel with
        | None =>
            match rest' with
            | [] => None
            | _ :: rest'' => ReadToken (Some (take i line)) rest' rest'' 1
            end
        | Some _ => ReadToken prefixLabel line rest' (S i)
        end
      else ReadToken prefixLabel line rest' (S i)
  end.

(** [func (r *Reader) readPredicate(line []byte) (IRI string, remainder []byte, err error)] *)
Definition readPredicate (line : bytes) : M (string * bytes) :=
  let* line := lineContinue line in
  let* c := first_byte line in
  if eqc c "<" then inIRI line
  else
    match ReadToken None line line 0 with
    | None => fail (io_ErrUnexpectedEOF "predicate interrupted")
    | Some (None, line, i) =>
        if (i =? 1)%nat && (match line with c0 :: _ => eqc c0 "a" | [] => false end)
        then ret (rdf_type, drop 2 line)
        else syntaxErr "illegal predicate token"
    | Some (Some prefixLabel, line, i) =>
        let* r := get in
        match prefixPerLabel r !! str prefixLabel with
        | None => syntaxErr "undefined prefix on predicate"
        | Some prefix => ret (prefix +:+ str (take i line), drop (S i) line)
        end
    end.

Definition either (c upper lower : ascii) : bool := eqc c upper || eqc c lower.

(** [func (r *Reader) inUndeterminedSubject(line []byte) (IRI string, remainder []byte, err error)] *)
Definition inUndeterminedSubject (line : bytes) : M (string * bytes) :=
  match ReadToken None line line 0 with
  | None => fail (io_ErrUnexpectedEOF "subject interrupted")
  | Some (prefixLabel, line, i) =>
      let local := take i line in
      let line := drop (S i) line in
      match prefixLabel with
      | None =>
          match local with
          | [c0; c1; c2; c3] =>
              if either c0 "B" "b" && either c1 "A" "a" && either c2 "S" "s" && either c3 "E" "e"
              then let* line := afterBaseDirective line false in ret ("", line)
              else syntaxErr "illegal subject token"
          | [c0; c1; c2; c3; c4; c5] =>
              if either c0 "P" "p" && either c1 "R" "r" && either c2 "E" "e"
                 && either c3 "F" "f" && either c4 "I" "i" && either c5 "X" "x"
              then let* line := afterPrefixDirective line false in ret ("", line)
              else syntaxErr "illegal subject token"
          | _ => syntaxErr "illegal subject token"
          end
      | Some prefixLabel =>
          let* r := get in
          match prefixPerLabel r !! str prefixLabel with
          | None => syntaxErr "undefined prefix on subject node"
          | Some prefix => ret (prefix +:+ str local, line)
          end
      end
  end.

Definition set_Object (o : string) (t : Triple) : Triple :=
  {| SubjectIRI := SubjectIRI t; PredicateIRI := PredicateIRI t; Object := o;
     DatatypeIRI := DatatypeIRI t; LangTag := LangTag t |}.
Definition set_DatatypeIRI (d : string) (t : Triple) : Triple :=
  {| SubjectIRI := SubjectIRI t; PredicateIRI := PredicateIRI t; Object := Object t;
     DatatypeIRI := d; LangTag := LangTag t |}.
Definition set_LangTag (l : string) (t : Triple) : Triple :=
  {| SubjectIRI := SubjectIRI t; PredicateIRI := PredicateIRI t; Object := Object t;
     DatatypeIRI := DatatypeIRI t; LangTag := l |}.

(** [func (r *Reader) inUndeterminedObject(line []byte, t *Triple) (remainder []byte, err error)] *)
Definition inUndeterminedObject (line : bytes) (t : Triple) : M (bytes * Triple) :=
  match ReadToken None line line 0 with
  | None => fail (io_ErrUnexpectedEOF "object interrupted")
  | Some (None, line, i) =>
      if String.eqb (str (take i line)) "true"
      then ret (drop (S i) line, set_DatatypeIRI XSDBoolean_IRI (set_Object "true" t))
      else if String.eqb (str (take i line)) "false"
      then ret (drop (S i) line, set_DatatypeIRI XSDBoolean_IRI (set_Object "true" t))
      else syntaxErr "illegal object token"
  | Some (Some prefixLabel, line, i) =>
      let* r := get in
      match prefixPerLabel r !! str prefixLabel with
      | None => syntaxErr "undefined prefix on object node"
      | Some prefix => ret (drop (S i) line, set_Object (prefix +:+ str (take i line)) t)
      end
  end.

(** The loop of inBlankLabel; [rest] is [line[i:]]. *)
Fixpoint inBlankLabel_loop (line rest : bytes) (i : nat) : M (string * bytes) :=
  match rest with
  | [] => fail (io_ErrUnexpectedEOF "blank node not closed")
  | c :: rest' =>
      if isWS c then
        let* root := skolemIRIRoot in
        ret (root +:+ "blank#" +:+ str (slice line 2 i), rest')
      else inBlankLabel_loop line rest' (S i)
  end.

(** [func (r *Reader) inBlankLabel(line []byte) (IRI string, remainder []byte, err error)] *)
Definition inBlankLabel (line : bytes) : M (string * bytes) :=
  match line with
  | _ :: c1 :: rest =>
      if negb (eqc c1 ":")
      then syntaxErr ("prefixed name starts with underscore (" +:+ quoted "_" +:+ ")")
      else inBlankLabel_loop line rest 2
  | _ => fail (io_ErrUnexpectedEOF "blank node not closed")
  end.

(** What the inner loop of inAnonymous finds from index 1 of a line. *)
Inductive bracket := closed (remainder : bytes) | property_list | end_of_line.

Fixpoint inAnonymous_scan (rest : bytes) : bracket :=
  match rest with
  | [] => end_of_line
  | c :: rest' =>
      if isWS c then inAnonymous_scan rest'
      else if eqc c "]" then closed rest'
      else property_list
  end.

(** The outer loop of inAnonymous: each line is searched from its index 1. *)
Fixpoint inAnonymous_loop (fuel : nat) (skolemIRI : string) (line : bytes) : M (string * bytes) :=
  match fuel with
  | O => hang
  | S fuel' =>
      match inAnonymous_scan (drop 1 line) with
      | closed remainder => ret (skolemIRI, remainder)
      | property_list =>
          modify (fun r => set_propListLevel (incr (propListLevel r)) r) ;;
          panic "TODO: anonymous predicate-object list not implemented yet"
      | end_of_line =>
          let* line := lineContinue [] in
          inAnonymous_loop fuel' skolemIRI line
      end
  end.

(** [func (r *Reader) inAnonymous(line []byte, dstp *[]Triple) (skolemIRI string, remainder []byte, err error)] *)
Definition inAnonymous (fuel : nat) (line : bytes) : M (string * bytes) :=
  modify (fun r => set_anonNodeNo (incr (anonNodeNo r)) r) ;;
  let* root := skolemIRIRoot in
  let* r := get in
  inAnonymous_loop fuel (root +:+ "anon#" +:+ dec (anonNodeNo r)) line.

(** [func (r *Reader) inCollection(line []byte, dstp *[]Triple) (firstIRI string, remainder []byte, err error)] *)
Definition inCollection (line : bytes) : M (string * bytes) :=
  panic "TODO: collection list not implemented yet".

(** *** Numeric literals *)

(** [line[i]], which panics out of range. *)
Definition byte_at (line : bytes) (i : nat) : M ascii :=
  match line !! i with
  | Some c => ret c
  | None => panic "index out of range"
  end.

(** The first loop of inNumberWithSign: its [continue] on a decimal does
    not advance [i]. *)
Fixpoint inNumber_decimals (fuel : nat) (line : bytes) (i : nat) : M nat :=
  match fuel with
  | O => hang
  | S fuel' =>
      match line !! i with
      | None => fail (io_ErrUnexpectedEOF "")
      | Some c => if isDigit c then inNumber_decimals fuel' line i else ret i
      end
  end.

Definition set_literal (datatype : string) (object : bytes) (t : Triple) : Triple :=
  set_Object (str object) (set_DatatypeIRI datatype t).

(** The loop of case '.'; [i] is the index reached and [rest] is
    [line[i+1:]]. It returns the literal (left) or the index of the
    [E] or [e] it stopped at (right). *)
Fixpoint inNumber_fraction (line rest : bytes) (i : nat) (t : Triple)
  : M (bytes * Triple + nat) :=
  match rest with
  | [] => fail (io_ErrUnexpectedEOF "")
  | c :: rest' =>
      let i := S i in
      if isDigit c then inNumber_fraction line rest' i t
      else if isWS c then
        if (match line !! (i - 1)%nat with Some p => eqc p "." | None => false end)
        then syntaxErr "decimal with empty fraction"
        else ret (inl (rest', set_literal XSDDecimal_IRI (take i line) t))
      else if eqc c "E" || eqc c "e" then ret (inr i)
      else syntaxErr "illegal character in fraction"
  end.

(** The last loop of inNumberWithSign; [rest] is [line[i:]]. *)
Fixpoint inNumber_exponent (line rest : bytes) (i offset : nat) (t : Triple)
  : M (bytes * Triple) :=
  match rest with
  | [] => fail (io_ErrUnexpectedEOF "")
  | c :: rest' =>
      if isDigit c then inNumber_exponent line rest' (S i) offset t
      else if isWS c then
        if (i =? offset)%nat then syntaxErr "no decimals in double exponent"
        else ret (rest', set_literal XSDDouble_IRI (take i line) t)
      else syntaxErr "illegal charater in exponent of double"
  end.

(** [func (r *Reader) inNumberWithSign(line []byte, signOffset int, t *Triple) (remainder []byte, err error)] *)
Definition inNumberWithSign (fuel : nat) (line : bytes) (signOffset : nat) (t : Triple)
  : M (bytes * Triple) :=
  let* i := inNumber_decimals fuel line 1 in
  let* c := byte_at line i in
  let* next :=
    if isWS c then
      if Z.of_nat i - Z.of_nat signOffset =? 0 then syntaxErr "sign without number"
      else ret (inl (drop (S i) line, set_literal XSDInteger_IRI (take i line) t))
    else if eqc c "." then inNumber_fraction line (drop (S i) line) i t
    else if eqc c "E" || eqc c "e" then ret (inr i)
    else syntaxErr "illegal character in number" in
  match next with
  | inl literal => ret literal
  | inr i =>
      if Z.of_nat i - Z.of_nat signOffset <? 3
      then syntaxErr "fraction of double without decimals"
      else
        let i := S i in
        let i := match line !! i with
                 | Some c => if eqc c "+" || eqc c "-" then S i else i
                 | None => i
                 end in
        inNumber_exponent line (drop i line) i i t
  end.

(** *** Quoted literals *)

Definition byte_of (x : Z) : ascii := ascii_of_N (Z.to_N x).

(** [utf8.AppendRune] on [uint32(r)]: what strings.Builder.WriteRune
    writes. *)
Definition utf8_AppendRune (r : Z) : bytes :=
  if r <=? 0x7F then [byte_of r]
  else if r <=? 0x7FF then
    [byte_of (Z.lor 0xC0 (Z.shiftr r 6)); byte_of (Z.lor 0x80 (Z.land r 0x3F))]
  else if (r <? 0xD800) || (0xDFFF <? r) && (r <=? 0xFFFF) then
    [byte_of (Z.lor 0xE0 (Z.shiftr r 12));
     byte_of (Z.lor 0x80 (Z.land (Z.shiftr r 6) 0x3F));
     byte_of (Z.lor 0x80 (Z.land r 0x3F))]
  else if (0xFFFF <? r) && (r <=? 0x10FFFF) then
    [byte_of (Z.lor 0xF0 (Z.shiftr r 18));
     byte_of (Z.lor 0x80 (Z.land (Z.shiftr r 12) 0x3F));
     byte_of (Z.lor 0x80 (Z.land (Z.shiftr r 6) 0x3F));
     byte_of (Z.lor 0x80 (Z.land r 0x3F))]
  else [byte_of 0xEF; byte_of 0xBF; byte_of 0xBD].

(** [func (r *Reader) nHex(line []byte, n int, b *strings.Builder) (remainder []byte, err error)];
    [u] is the uint built so far and [b] what the builder holds. *)
Fixpoint nHex_loop (line : bytes) (n : nat) (u : Z) (b : bytes) {struct n}
  : M (bytes * bytes) :=
  match n with
  | O => ret (line, b ++ utf8_AppendRune (u mod 2 ^ 32))
  | S n' =>
      match line with
      | [] => fail (io_ErrUnexpectedEOF "")
      | c :: line' =>
          let u := (u * 16) mod 2 ^ 64 in
          if between (code "0") (code "9") c
          then nHex_loop line' n' (Z.lor u (code c - code "0")) b
          else if between (code "A") (code "F") c
          then nHex_loop line' n' (Z.lor u (code c - code "A" + 10)) b
          else if between (code "a") (code "f") c
          then nHex_loop line' n' (Z.lor u (code c - code "a" + 10)) b
          else syntaxErr "illegal hex in Unicode escape"
      end
  end.

Definition nHex (line : bytes) (n : nat) (b : bytes) : M (bytes * bytes) :=
  nHex_loop line n 0 b.

(** [func (r *Reader) inEscape(line []byte, b *strings.Builder) (remainder []byte, err error)]:
    the switch has no default, a byte it does not list is written as it is. *)
Definition inEscape (line : bytes) (b : bytes) : M (bytes * bytes) :=
  match line with
  | [] => fail (io_ErrUnexpectedEOF "")
  | c :: rest =>
      if eqc c "u" then nHex rest 4 b
      else if eqc c "U" then nHex rest 8 b
      else
        let c := if eqc c "t" then TAB
                 else if eqc c "b" then "008"%char
                 else if eqc c "n" then LF
                 else if eqc c "r" then CR
                 else if eqc c "f" then "012"%char
                 else c in
        ret (rest, b ++ [c])
  end.

(** The loop of inLangTag; [rest] is [line[i:]]. *)
Fixpoint inLangTag_loop (line rest : bytes) (i offset : nat) (t : Triple) : M (bytes * Triple) :=
  match rest with
  | [] => fail (io_ErrUnexpectedEOF "")
  | c :: rest' =>
      if isLetter c then inLangTag_loop line rest' (S i) offset t
      else if isDigit c then
        if (offset =? 1)%nat then syntaxErr "decimal in first code of language tag"
        else inLangTag_loop line rest' (S i) offset t
      else if eqc c "-" then
        if (offset =? i)%nat then syntaxErr "empty code in language tag"
        else inLangTag_loop line rest' (S i) (S i) t
      else if isWS c then
        if (offset =? i)%nat then syntaxErr "empty code in language tag"
        else ret (rest', set_LangTag (str (slice line 1 i)) t)
      else syntaxErr "illegal character in language tag"
  end.

(** [func (r *Reader) inLangTag(line []byte, t *Triple) (remainder []byte, err error)] *)
Definition inLangTag (line : bytes) (t : Triple) : M (bytes * Triple) :=
  inLangTag_loop line (drop 1 line) 1 1 (set_DatatypeIRI rdf_langString t).

(** The loop ReadPrefix of inDatatype; [rest] is [line[i:]]. *)
Fixpoint ReadPrefix (line rest : bytes) (i : nat) : M (bytes * bytes) :=
  match rest with
  | [] => fail (io_ErrUnexpectedEOF "")
  | c :: rest' =>
      if isWS c then syntaxErr "datatype missing prefix"
      else if eqc c ":" then ret (slice line 2 i, rest')
      else ReadPrefix line rest' (S i)
  end.

(** The last loop of inDatatype; [rest] is [line[i:]]. *)
Fixpoint inDatatype_local (prefix : string) (line rest : bytes) (i : nat) (t : Triple)
  : M (bytes * Triple) :=
  match rest with
  | [] => fail (io_ErrUnexpectedEOF "")
  | c :: rest' =>
      if isWS c then ret (rest', set_DatatypeIRI (prefix +:+ str (take i line)) t)
      else inDatatype_local prefix line rest' (S i) t
  end.

(** [func (r *Reader) inDatatype(line []byte, t *Triple) (remainder []byte, err error)] *)
Definition inDatatype (line : bytes) (t : Triple) : M (bytes * Triple) :=
  match line with
  | _ :: c1 :: rest2 =>
      if negb (eqc c1 "^") then syntaxErr ("single " +:+ quoted "^" +:+ " after quoted string")
      else
        match rest2 with
        | c2 :: _ :: _ =>
            if eqc c2 "<" then
              let* (IRI, remainder) := inIRI (drop 2 line) in
              ret (remainder, set_DatatypeIRI IRI t)
            else
              let* (prefixLabel, line) := ReadPrefix line rest2 2 in
              let* r := get in
              match prefixPerLabel r !! str prefixLabel with
              | None => syntaxErr "undefined prefix on datatype"
              | Some prefix => inDatatype_local prefix line line 0 t
              end
        | _ => fail (io_ErrUnexpectedEOF "")
        end
  | _ => fail (io_ErrUnexpectedEOF "")
  end.

(** [func (r *Reader) afterQuotedLiteral(line []byte, t *Triple) (remainder []byte, err error)] *)
Definition afterQuotedLiteral (line : bytes) (t : Triple) : M (bytes * Triple) :=
  match line with
  | c :: rest =>
      if isWS c then ret (rest, set_DatatypeIRI XSDString_IRI t)
      else if eqc c "^" then inDatatype line t
      else if eqc c "@" then inLangTag line t
      else ret (line, set_DatatypeIRI XSDString_IRI t)
  | [] => ret (line, set_DatatypeIRI XSDString_IRI t)
  end.

(** What the inner loop of longSingleQuote ends with: the three closing
    apostrophes, with what the builder then holds and the bytes after them;
    or the end of the line, with the builder after [b.Write(line)]. *)
Inductive long_scan := long_closed (b remainder : bytes) | long_open (b : bytes).

(** The inner loop of longSingleQuote; [rest] is [line[i:]]. After an
    escape the line is the remainder of inEscape and [i = 0], which the
    loop's [i++] passes over. Every turn takes one unit of fuel. *)
Fixpoint longSingleQuote_scan (fuel : nat) (b line rest : bytes) (i : nat) : M long_scan :=
  match fuel with
  | O => hang
  | S fuel' =>
      match rest with
      | [] => ret (long_open (b ++ line))
      | c :: rest' =>
          if eqc c backslash then
            let* (line, b) := inEscape rest (b ++ take i line) in
            longSingleQuote_scan fuel' b line (drop 1 line) 1
          else if eqc c squote then
            match rest' with
            | c1 :: c2 :: rest3 =>
                if negb (eqc c1 squote) then longSingleQuote_scan fuel' b line rest' (S i)
                else if negb (eqc c2 squote)
                then longSingleQuote_scan fuel' b line (c2 :: rest3) (S (S i))
                else ret (long_closed (b ++ take i line) rest3)
            | _ => longSingleQuote_scan fuel' b line rest' (S i)
            end
          else longSingleQuote_scan fuel' b line rest' (S i)
      end
  end.

(** The outer loop of longSingleQuote: a line that does not close the
    literal is written to the builder and the next one is read. *)
Fixpoint longSingleQuote_loop (fuel : nat) (b line : bytes) (t : Triple) : M (bytes * Triple) :=
  match fuel with
  | O => hang
  | S fuel' =>
      let* found := longSingleQuote_scan (S (length line)) b line line 0 in
      match found with
      | long_closed b remainder => afterQuotedLiteral remainder (set_Object (str b) t)
      | long_open b =>
          fun w =>
            match Reader_line w with
            | (Done line, w') => longSingleQuote_loop fuel' b line t w'
            | (Fail io_EOF, w') =>
                (Fail (io_ErrUnexpectedEOF "long quoted literal not closed"), w')
            | (Fail e, w') => (Fail e, w')
            | (Panic msg, w') => (Panic msg, w')
            | (Hang, w') => (Hang, w')
            end
      end
  end.

(** [func (r *Reader) longSingleQuote(copyAsIs, line []byte, t *Triple) (remainder []byte, err error)] *)
Definition longSingleQuote (fuel : nat) (copyAsIs line : bytes) (t : Triple) : M (bytes * Triple) :=
  longSingleQuote_loop fuel copyAsIs line t.

(** What the inner loop of inDoubleQuoteEscape and inSingleQuoteEscape
    finds in the remainder of inEscape, with the bytes [line[:i]] it
    writes to the builder. *)
Inductive escape_scan :=
| next_escape (written : bytes)
| end_quote (written remainder : bytes)
| illegal (reason : string)
| not_closed.

Fixpoint Escape_scan (q : ascii) (line rest : bytes) (i : nat) : escape_scan :=
  match rest with
  | [] => not_closed
  | c :: rest' =>
      if eqc c backslash then next_escape (take i line)
      else if eqc c q then end_quote (take i line) rest'
      else if eqc c CR then illegal "new line in quoted literal"
      else if eqc c LF then illegal "carriage return in quoted literal"
      else Escape_scan q line rest' (S i)
  end.

(** The loop Escape: [line, err := r.inEscape(line, &b)] declares a line
    of its own in the body, so every turn decodes from the [line] the
    function was called with. *)
Fixpoint Escape (fuel : nat) (q : ascii) (line b : bytes) (t : Triple) : M (bytes * Triple) :=
  match fuel with
  | O => hang
  | S fuel' =>
      let* (inner, b) := inEscape line b in
      match Escape_scan q inner inner 0 with
      | next_escape written => Escape fuel' q line (b ++ written) t
      | end_quote written remainder =>
          afterQuotedLiteral remainder (set_Object (str (b ++ written)) t)
      | illegal reason => syntaxErr reason
      | not_closed => fail (io_ErrUnexpectedEOF "quoted literal not closed")
      end
  end.

(** inDoubleQuoteEscape and inSingleQuoteEscape, which differ in the quote
    [q] alone. [b.Grow] panics on a negative count. *)
Definition inQuoteEscape (q : ascii) (fuel : nat) (copyAsIs line : bytes) (t : Triple)
  : M (bytes * Triple) :=
  if Z.of_nat (length copyAsIs) + Z.of_nat (length line) - 4 <? 0
  then panic "strings.Builder.Grow: negative count"
  else Escape fuel q line copyAsIs t.

(** [func (r *Reader) inDoubleQuoteEscape(copyAsIs, line []byte, t *Triple) (remainder []byte, err error)] *)
Definition inDoubleQuoteEscape := inQuoteEscape dquote.
(** [func (r *Reader) inSingleQuoteEscape(copyAsIs, line []byte, t *Triple) (remainder []byte, err error)] *)
Definition inSingleQuoteEscape := inQuoteEscape squote.

(** The loop of the long-quote option of inDoubleQuote and inSingleQuote,
    from index 3; [rest] is [line[i:]]. Both functions hand an escape and
    an open line to longSingleQuote. *)
Fixpoint inQuote_long (q : ascii) (fuel : nat) (line rest : bytes) (i : nat) (t : Triple)
  : M (bytes * Triple) :=
  match rest with
  | [] => longSingleQuote fuel (drop 3 line) [] t
  | c :: rest' =>
      if eqc c q then
        match rest' with
        | c1 :: ((c2 :: rest3) as rest2) =>
            if negb (eqc c1 q) then inQuote_long q fuel line rest' (S i) t
            else if negb (eqc c2 q) then inQuote_long q fuel line rest2 (S (S i)) t
            else afterQuotedLiteral rest3 (set_Object (str (slice line 3 i)) t)
        | _ => inQuote_long q fuel line rest' (S i) t
        end
      else if eqc c backslash then longSingleQuote fuel (slice line 3 i) rest t
      else inQuote_long q fuel line rest' (S i) t
  end.

(** The loop of the short quote, from index 1; [rest] is [line[i:]]. *)
Fixpoint inQuote_short (q : ascii) (fuel : nat) (line rest : bytes) (i : nat) (t : Triple)
  : M (bytes * Triple) :=
  match rest with
  | [] => fail (io_ErrUnexpectedEOF "quoted literal not closed")
  | c :: rest' =>
      if eqc c q then afterQuotedLiteral rest' (set_Object (str (slice line 1 i)) t)
      else if eqc c backslash then inQuoteEscape q fuel (slice line 1 i) rest t
      else if eqc c CR then syntaxErr "new line in quoted literal"
      else if eqc c LF then syntaxErr "carriage return in quoted literal"
      else inQuote_short q fuel line rest' (S i) t
  end.

(** inDoubleQuote and inSingleQuote, which differ in the quote [q] alone. *)
Definition inQuote (q : ascii) (fuel : nat) (line : bytes) (t : Triple) : M (bytes * Triple) :=
  match line with
  | _ :: c1 :: c2 :: rest3 =>
      if eqc c1 q && eqc c2 q then inQuote_long q fuel line rest3 3 t
      else inQuote_short q fuel line (drop 1 line) 1 t
  | _ => inQuote_short q fuel line (drop 1 line) 1 t
  end.

(** [func (r *Reader) inDoubleQuote(line []byte, t *Triple) (remainder []byte, err error)] *)
Definition inDoubleQuote := inQuote dquote.
(** [func (r *Reader) inSingleQuote(line []byte, t *Triple) (remainder []byte, err error)] *)
Definition inSingleQuote := inQuote squote.

(** *** Nodes and statements *)

(** [func (r *Reader) readObject(line []byte, t *Triple, dstp *[]Triple) (remainder []byte, err error)] *)
Definition readObject (fuel : nat) (line : bytes) (t : Triple) : M (bytes * Triple) :=
  let* line := lineContinue line in
  let* c := first_byte line in
  if eqc c "<" then
    let* (IRI, remainder) := inIRI line in ret (remainder, set_Object IRI t)
  else if eqc c "_" then
    let* (IRI, remainder) := inBlankLabel line in ret (remainder, set_Object IRI t)
  else if eqc c "[" then
    let* (IRI, remainder) := inAnonymous fuel line in ret (remainder, set_Object IRI t)
  else if eqc c "(" then
    let* (IRI, remainder) := inCollection line in ret (remainder, set_Object IRI t)
  else if eqc c dquote then inDoubleQuote fuel line t
  else if eqc c squote then inSingleQuote fuel line t
  else if eqc c "+" || eqc c "-" then inNumberWithSign fuel line 1 t
  else if eqc c "." || isDigit c then inNumberWithSign fuel line 0 t
  else inUndeterminedObject line t.

(** The loop of readSubject. *)
Fixpoint readSubject_loop (fuel : nat) (line : bytes) : M (string * bytes) :=
  match fuel with
  | O => hang
  | S fuel' =>
      let* c := first_byte line in
      let again line :=
        let* line := lineContinue line in readSubject_loop fuel' line in
      if eqc c "@" then
        let* line := inDirective line in again line
      else if eqc c "<" then inIRI line
      else if eqc c "[" then inAnonymous fuel' line
      else if eqc c "(" then inCollection line
      else if eqc c "_" then inBlankLabel line
      else
        let* (IRI, line) := inUndeterminedSubject line in
        if negb (String.eqb IRI "") then ret (IRI, line)
        else again line
  end.

(** [func (r *Reader) readSubject(dstp *[]Triple) (IRI string, lineRemainder []byte, _ error)] *)
Definition readSubject (fuel : nat) : M (string * bytes) :=
  let* line := Reader_line in readSubject_loop fuel line.

(** What follows a triple: the end of the statement, another object of the
    same predicate, or another predicate. *)
Inductive followup := terminator | next_object (line : bytes) | next_predicate (line : bytes).

(** One turn of the loop ReadObject. *)
Definition ReadObject_turn (fuel : nat) (subject predicate : string) (line : bytes) : M followup :=
  let t := {| SubjectIRI := subject; PredicateIRI := predicate;
              Object := ""; DatatypeIRI := ""; LangTag := "" |} in
  let* (line, t) := readObject fuel line t in
  append_dst t ;;
  let* line := lineContinue line in
  let* c := first_byte line in
  if eqc c "." then modify (set_pending (drop 1 line)) ;; ret terminator
  else if eqc c "," then ret (next_object (drop 1 line))
  else if eqc c ";" then ret (next_predicate (drop 1 line))
  else syntaxErr "illegal triple continuation".

(** The loop ReadObject: [None] when the statement ended, the line to go on
    with when a semicolon asked for another predicate. *)
Fixpoint ReadObject (fuel : nat) (subject predicate : string) (line : bytes) : M (option bytes) :=
  match fuel with
  | O => hang
  | S fuel' =>
      let* next := ReadObject_turn fuel' subject predicate line in
      match next with
      | terminator => ret None
      | next_object line => ReadObject fuel' subject predicate line
      | next_predicate line => ret (Some line)
      end
  end.

(** The loop ReadPredicate. *)
Fixpoint ReadPredicate (fuel : nat) (subject : string) (line : bytes) : M unit :=
  match fuel with
  | O => hang
  | S fuel' =>
      let* (predicate, line) := readPredicate line in
      let* next := ReadObject fuel' subject predicate line in
      match next with
      | None => ret tt
      | Some line => ReadPredicate fuel' subject line
      end
  end.

(** The body of ReadAppend. *)
Definition ReadAppend_body (fuel : nat) : M unit :=
  let* (subject, line) := readSubject fuel in
  ReadPredicate fuel subject line.

(** [func (r *Reader) ReadAppend(dst []Triple) ([]Triple, error)]: the
    outcome, the slice returned and the Reader the call leaves behind. *)
Definition ReadAppend (fuel : nat) (r : Reader) (dst0 : list Triple)
  : outcome unit * list Triple * Reader :=
  let '(result, w) := ReadAppend_body fuel {| rdr := r; dst := dst0 |} in
  (result, dst w, rdr w).

End Reader.

(** ** Readers to run the embedding on *)

(** [Reader{R: bufio.NewReaderSize(src, size)}] over a source that delivers
    [src] and then reports [e]; every other field has its zero value. *)
Definition Reader_sized `{GoLib} (src : bytes) (e : srcerr) (size : nat) : Reader :=
  {| R := {| input := src; at_end := e; buf_size := size |};
     pending := []; BaseIRI := None; prefixPerLabel := ∅;
     lineNo := 0; anonNodeNo := 0; collectionLevel := 0; propListLevel := 0;
     skolemIRICache := "" |}.

(** [Reader{R: bufio.NewReader(strings.NewReader(src))}]: the default
    buffer of 4096 bytes over a string. *)
Definition Reader_over `{GoLib} (src : string) : Reader :=
  Reader_sized (raw src) src_EOF 4096.

Definition NL : string := String LF "".

(** The root a Reader mints at its first blank node. *)
Definition minted_root `{GoLib} : string :=
  skolemIRIRoot_const +:+ hex time_Now_UnixNano +:+ hex rand_Uint32 +:+ "/".

Definition outcome_of {A B C} (x : outcome A * B * C) : outcome A := fst (fst x).
Definition returned_dst {A B C} (x : A * list B * C) : list B := snd (fst x).

(** A library to run examples with. It splits the scheme off a reference
    the way [getScheme] of net/url does and keeps what follows as it
    stands; it resolves a reference without scheme by writing it after the
    base; its Quote puts the string between double quotes; the clock and
    the random source read zero. On the absolute IRIs and the plain
    literals of the examples below this is what the Go library returns. *)
Fixpoint getScheme (rawURL rest : string) (i : nat) : string * string + string :=
  match rest with
  | EmptyString => inl ("", rawURL)
  | String c rest' =>
      if isLetter c then getScheme rawURL rest' (S i)
      else if isDigit c || eqc c "+" || eqc c "-" || eqc c "." then
        if (i =? 0)%nat then inl ("", rawURL) else getScheme rawURL rest' (S i)
      else if eqc c ":" then
        if (i =? 0)%nat then inr "missing protocol scheme"
        else inl (substring 0 i rawURL, rest')
      else inl ("", rawURL)
  end.

Definition exampleLib : GoLib := {|
  URL := string * string;
  url_Parse s := getScheme s s 0;
  URL_Scheme u := fst u;
  URL_ResolveReference base ref :=
    if String.eqb (fst ref) "" then (fst base, snd base +:+ snd ref) else ref;
  URL_String u := if String.eqb (fst u) "" then snd u else fst u +:+ ":" +:+ snd u;
  strconv_Quote := quoted;
  time_Now_UnixNano := 0;
  rand_Uint32 := 0
|}.

(** ** Triples that Triple_String renders as a line the Reader reads back *)

(** A byte the loop of inIRI passes over. *)
Definition iri_byte (c : ascii) : bool :=
  negb (eqc c ">")
  && negb (eqc c "<" || eqc c dquote || eqc c "{" || eqc c "}" || eqc c "|" || eqc c "^" || eqc c "`")
  && negb (eqc c backslash)
  && negb (code c <=? 0x20).

(** An IRI reference that inIRI returns as it is: bytes the loop passes
    over, and a reference url.Parse accepts and finds a scheme in. *)
Definition absolute_IRI `{GoLib} (s : string) : bool :=
  forallb iri_byte (raw s)
  && match url_Parse s with
     | inl u => negb (String.eqb (URL_Scheme u) "")
     | inr _ => false
     end.

(** A byte the loop of the short double quote passes over. *)
Definition literal_byte (c : ascii) : bool :=
  negb (eqc c dquote) && negb (eqc c backslash) && negb (eqc c CR) && negb (eqc c LF).

(** A lexical form that needs no escape: bytes the short quote passes
    over, printed by [%q] as they are between double quotes. *)
Definition plain_literal `{GoLib} (s : string) : bool :=
  forallb literal_byte (raw s) && String.eqb (strconv_Quote s) (quoted s).

(** The language tags the loop of inLangTag accepts, read from index [i]
    with the current code starting at [offset]: codes of letters and
    decimals, none empty, separated by hyphens, no decimal in the first. *)
Fixpoint LangTag_from (rest : bytes) (i offset : nat) : bool :=
  match rest with
  | [] => negb (offset =? i)%nat
  | c :: rest' =>
      if isLetter c then LangTag_from rest' (S i) offset
      else if isDigit c then negb (offset =? 1)%nat && LangTag_from rest' (S i) offset
      else if eqc c "-" then negb (offset =? i)%nat && LangTag_from rest' (S i) (S i)
      else false
  end.

Definition accepted_LangTag (tag : string) : bool := LangTag_from (raw tag) 1 1.

(** The triples of the round trip: absolute IRIs; an IRI object without
    language tag; a literal that needs no escape, with an absolute
    datatype or else with rdf:langString and an accepted language tag. *)
Definition well_formed `{GoLib} (t : Triple) : bool :=
  absolute_IRI (SubjectIRI t) && absolute_IRI (PredicateIRI t)
  && if String.eqb (DatatypeIRI t) "" then
       absolute_IRI (Object t) && String.eqb (LangTag t) ""
     else
       plain_literal (Object t)
       && if String.eqb (LangTag t) "" then absolute_IRI (DatatypeIRI t)
          else String.eqb (DatatypeIRI t) rdf_langString && accepted_LangTag (LangTag t).

(** ** What every method keeps

    [spec m Q E]: from any Reader and any [dst], the computation [m] leaves
    in [dst] what was there, followed by triples that are [tagged_ok];
    when it returns a value, the value satisfies [Q], and when it returns
    an error, the error satisfies [E]. *)

Section Contracts.
Context `{GoLib}.

Definition tagged_ok (t : Triple) : Prop :=
  LangTag t = "" \/ DatatypeIRI t = rdf_langString.

Definition not_EOF (e : error) : Prop := e <> io_EOF.
Definition any_error (e : error) : Prop := True.
Definition any {A} (a : A) : Prop := True.

Definition appended (w w' : world) : Prop :=
  exists new, dst w' = dst w ++ new /\ Forall tagged_ok new.

Definition spec {A} (m : M A) (Q : A -> Prop) (E : error -> Prop) : Prop :=
  forall w,
    appended w (snd (m w))
    /\ match fst (m w) with
       | Done a => Q a
       | Fail e => E e
       | _ => True
       end.

(** The recognisers of a literal hand back a triple that is [tagged_ok]
    when they are given one without a language tag. *)
Definition literal_ok (x : bytes * Triple) : Prop := tagged_ok (snd x).

Definition fraction_ok (x : bytes * Triple + nat) : Prop :=
  match x with inl literal => literal_ok literal | inr _ => True end.

End Contracts.

(** A byte other than new-line. *)
Definition notLF (c : ascii) : bool := negb (eqc c LF).

(** The triple ReadAppend hands to readObject. *)
Definition blank_triple (subject predicate : string) : Triple :=
  {| SubjectIRI := subject; PredicateIRI := predicate;
     Object := ""; DatatypeIRI := ""; LangTag := "" |}.

(** Triples to evaluate the round trip on: a typed literal, an IRI object
    and a language-tagged literal that are well formed; a subject with a
    space in it; a subject without scheme. *)
Definition typed_example : Triple :=
  {| SubjectIRI := "http://e/s"; PredicateIRI := "http://e/p"; Object := "hi";
     DatatypeIRI := XSDString_IRI; LangTag := "" |}.
Definition IRI_example : Triple :=
  {| SubjectIRI := "http://e/s"; PredicateIRI := "http://e/p"; Object := "http://e/o";
     DatatypeIRI := ""; LangTag := "" |}.
Definition tagged_example : Triple :=
  {| SubjectIRI := "http://e/s"; PredicateIRI := "http://e/p"; Object := "salut";
     DatatypeIRI := rdf_langString; LangTag := "fr-be" |}.
Definition spaced_example : Triple :=
  {| SubjectIRI := "http://e/a b"; PredicateIRI := "http://e/p"; Object := "http://e/o";
     DatatypeIRI := ""; LangTag := "" |}.
Definition relative_example : Triple :=
  {| SubjectIRI := "s"; PredicateIRI := "http://e/p"; Object := "http://e/o";
     DatatypeIRI := ""; LangTag := "" |}.

(** ** What the further properties are stated with *)

(** [case ' ', '\t', '\r'] of lead. *)
Definition blank (c : ascii) : bool := eqc c SP || eqc c TAB || eqc c CR.
(** [case '#', '\n'] of lead. *)
Definition ends_line (c : ascii) : bool := eqc c "#" || eqc c LF.

(** A Reader of the example library over a string, with nothing read yet. *)
Definition example_world (src : string) : @world exampleLib :=
  {| rdr := @Reader_over exampleLib src; dst := [] |}.

(** The bytes inIRI refuses with "illegal character in IRI reference". *)
Definition illegal_in_IRI (c : ascii) : bool :=
  eqc c "<" || eqc c dquote || eqc c "{" || eqc c "}" || eqc c "|" || eqc c "^" || eqc c "`".

(** A byte of a prefix label the scans pass over: no white space, no
    colon, and none of the bytes [lead] and readPredicate act on. *)
Definition name_byte (c : ascii) : bool :=
  negb (isWS c) && negb (eqc c ":") && negb (eqc c "#") && negb (eqc c "<").

Definition not_WS (c : ascii) : bool := negb (isWS c).

(** What a prefix directive leaves in the Reader. *)
Definition with_prefix `{GoLib} (label iri : string) (w : world) : world :=
  {| rdr := set_prefixPerLabel (<[label := iri]> (prefixPerLabel (rdr w))) (rdr w);
     dst := dst w |}.

(** What a base directive leaves in the Reader. *)
Definition with_base `{GoLib} (u : option URL) (w : world) : world :=
  {| rdr := set_BaseIRI u (rdr w); dst := dst w |}.

(** The root of the skolem IRIs of a session: the one the Reader holds, or
    the one it mints at the first blank node. *)
Definition session_root `{GoLib} (w : world) : string :=
  if String.eqb (skolemIRICache (rdr w)) "" then minted_root else skolemIRICache (rdr w).

(** The Reader after skolemIRIRoot. *)
Definition rooted `{GoLib} (w : world) : world :=
  if String.eqb (skolemIRICache (rdr w)) ""
  then {| rdr := set_skolemIRICache minted_root (rdr w); dst := dst w |}
  else w.

(** The Reader after the [r.anonNodeNo++] of inAnonymous. *)
Definition counted `{GoLib} (w : world) : world :=
  {| rdr := set_anonNodeNo (incr (anonNodeNo (rdr w))) (rdr w); dst := dst w |}.

(** A byte the loop of a short quote [q] passes over. *)
Definition quote_byte (q c : ascii) : bool :=
  negb (eqc c q) && negb (eqc c backslash) && negb (eqc c CR) && negb (eqc c LF).

(** A byte the loop of a long quote [q] passes over. *)
Definition long_byte (q c : ascii) : bool := negb (eqc c q) && negb (eqc c backslash).

Definition alnum (c : ascii) : bool := isLetter c || isDigit c.

(** The production LANGTAG of Turtle without its at sign:
    [[a-zA-Z]+ ('-' [a-zA-Z0-9]+)*]. *)
Definition LANGTAG (tag : bytes) : Prop :=
  exists first subtags,
    tag = first ++ concat (map (cons "-"%char) subtags)
    /\ first <> [] /\ forallb isLetter first = true
    /\ Forall (fun s => s <> [] /\ forallb alnum s = true) subtags.

(** The scan of inLangTag as a recogniser: [first] while the first code is
    read ([offset == 1]), [empty] while the current code has no byte yet
    ([offset == i]). *)
Fixpoint langtag_scan (first empty : bool) (tag : bytes) : bool :=
  match tag with
  | [] => negb empty
  | c :: tag' =>
      if isLetter c then langtag_scan first false tag'
      else if isDigit c then negb first && langtag_scan first false tag'
      else if eqc c "-" then negb empty && langtag_scan false true tag'
      else false
  end.

Definition code_class (first : bool) : ascii -> bool := if first then isLetter else alnum.

(** ** What a method keeps, what it returns, how it fails

    [keeps I E Pn m Q]: from any Reader and any [dst], the computation [m]
    ends in a state that [I] relates to the one it started from; a value
    it returns satisfies [Q]; an error it returns satisfies [E] in the
    state it leaves; a message it panics with satisfies [Pn]. *)

Section Keeping.
Context `{GoLib}.
Variable I : world -> world -> Prop.
Variable E : world -> error -> Prop.
Variable Pn : string -> Prop.

Definition keeps {A} (m : M A) (Q : A -> Prop) : Prop :=
  forall w,
    I w (snd (m w))
    /\ match fst (m w) with
       | Done a => Q a
       | Fail e => E (snd (m w)) e
       | Panic msg => Pn msg
       | Hang => True
       end.

End Keeping.

(** The state after [modify f]. *)
Definition with_rdr `{GoLib} (f : Reader -> Reader) (w : world) : world :=
  {| rdr := f (rdr w); dst := dst w |}.

(** The state after [dst = append(dst, t)]. *)
Definition with_triple `{GoLib} (t : Triple) (w : world) : world :=
  {| rdr := rdr w; dst := dst w ++ [t] |}.

(** A line with a byte at index 0. *)
Definition nonempty_line (line : bytes) : Prop := line <> [].

(** What [I], [E] and [Pn] have to let through for every method to keep
    them: the assignments to the fields of the Reader, the errors and the
    panics the methods raise themselves, and the loop of [line]. *)
Record keeping `{GoLib} (I : world -> world -> Prop) (E : world -> error -> Prop)
    (Pn : string -> Prop) : Prop := {
  kept_refl : forall w, I w w;
  kept_trans : forall w1 w2 w3, I w1 w2 -> I w2 w3 -> I w1 w3;
  kept_pending : forall w p, I w (with_rdr (set_pending p) w);
  kept_base : forall w u, I w (with_rdr (set_BaseIRI u) w);
  kept_prefix : forall w label prefix,
    I w (with_rdr (fun r => set_prefixPerLabel (<[label := prefix]> (prefixPerLabel r)) r) w);
  kept_anon : forall w, I w (with_rdr (fun r => set_anonNodeNo (incr (anonNodeNo r)) r) w);
  kept_propList :
    forall w, I w (with_rdr (fun r => set_propListLevel (incr (propListLevel r)) r) w);
  kept_cache : forall w,
    String.eqb (skolemIRICache (rdr w)) "" = true ->
    I w (with_rdr (set_skolemIRICache minted_root) w);
  fails_unexpected : forall w detail, E w (io_ErrUnexpectedEOF detail);
  fails_url : forall w msg, E w (url_Error msg);
  fails_syntax : forall w reason, E w (SyntaxError (lineNo (rdr w)) reason);
  panics_IRI : Pn "TODO: Unicode escape";
  panics_collection : Pn "TODO: collection list not implemented yet";
  panics_anonymous : Pn "TODO: anonymous predicate-object list not implemented yet";
  panics_Grow : Pn "strings.Builder.Grow: negative count";
  kept_line : forall fuel line, keeps I E Pn (line_loop fuel line) nonempty_line
}.

(** The subject and the predicate of the triple a recogniser of an object
    hands back. *)
Definition nodes_are (s p : string) (x : bytes * Triple) : Prop :=
  SubjectIRI (snd x) = s /\ PredicateIRI (snd x) = p.

Definition fraction_nodes_are (s p : string) (x : bytes * Triple + nat) : Prop :=
  match x with inl literal => nodes_are s p literal | inr _ => True end.

(** The messages of the panics the source raises itself, and the one of
    strings.Builder.Grow. *)
Definition declared_panic (msg : string) : Prop :=
  In msg ["TODO: Unicode escape";
          "TODO: collection list not implemented yet";
          "TODO: anonymous predicate-object list not implemented yet";
          "strings.Builder.Grow: negative count"].

Definition any_state `{GoLib} (w w' : world) : Prop := True.
Definition any_failure `{GoLib} (w : world) (e : error) : Prop := True.
Definition any_panic (msg : string) : Prop := True.

(** What a method leaves of the session: the source and the size of the
    buffer, the input but for a prefix it consumed, a skolem root that is
    set, and the labels that have a prefix. *)
Definition session_kept `{GoLib} (w w' : world) : Prop :=
  at_end (R (rdr w')) = at_end (R (rdr w))
  /\ buf_size (R (rdr w')) = buf_size (R (rdr w))
  /\ (exists consumed, input (R (rdr w)) = consumed ++ input (R (rdr w')))
  /\ (skolemIRICache (rdr w) <> "" -> skolemIRICache (rdr w') = skolemIRICache (rdr w))
  /\ (forall label, is_Some (prefixPerLabel (rdr w) !! label) ->
                    is_Some (prefixPerLabel (rdr w') !! label)).

(** io.EOF and the errors of the source are returned with the input used
    up and the source at that very error. *)
Definition from_the_source `{GoLib} (w' : world) (e : error) : Prop :=
  match e with
  | io_EOF => input (R (rdr w')) = [] /\ at_end (R (rdr w')) = src_EOF
  | stream_error msg => input (R (rdr w')) = [] /\ at_end (R (rdr w')) = src_failure msg
  | _ => True
  end.

Definition same_dst `{GoLib} (w w' : world) : Prop := dst w' = dst w.

(** [dst] after triples of subject [s]. *)
Definition appended_of `{GoLib} (s : string) (w w' : world) : Prop :=
  exists new, dst w' = dst w ++ new /\ Forall (fun t => SubjectIRI t = s) new.

Definition returned_Reader {A B C} (x : A * B * C) : C := snd x.

(** The Reader after [line] has taken one line from the input, with
    [more] left to read. *)
Definition next_line `{GoLib} (more : bytes) (r : Reader) : Reader :=
  set_lineNo (incr (lineNo r))
    (set_R {| input := more; at_end := at_end (R r); buf_size := buf_size (R r) |} r).

(** A line [line] skips: blanks only, or blanks and a comment. *)
Definition skipped_line (l : bytes) : bool := negb (nonempty (lead l)).

(** Lines the buffer holds, each closed by a new-line. *)
Definition document (lines : list bytes) : bytes := concat (map (fun l => l ++ [LF]) lines).

(** *** A document of nothing but blanks and comments *)

Definition fits (size : nat) (l : bytes) : bool :=
  forallb notLF l && (length l <? size)%nat && utf8_Valid l.

(** The loop ReadSample of TestReader: ReadAppend is called until it
    returns an error, and io.EOF ends the loop without failure. *)
Fixpoint ReadSample `{GoLib} (calls fuel : nat) (r : Reader) (got : list Triple)
  : outcome unit * list Triple * Reader :=
  match calls with
  | O => (Hang, got, r)
  | S calls' =>
      match ReadAppend fuel r got with
      | (Done _, got', r') => ReadSample calls' fuel r' got'
      | (Fail io_EOF, got', r') => (Done tt, got', r')
      | failed => failed
      end
  end.

(** The lines [t.String()] of a list of triples, each with its new-line. *)
Fixpoint NTriples `{GoLib} (ts : list Triple) : string :=
  match ts with
  | [] => ""
  | t :: ts' => Triple_String t +:+ NL +:+ NTriples ts'
  end.

(** A triple whose line the Reader takes whole: valid UTF-8, shorter than
    the buffer. *)
Definition line_fits `{GoLib} (size : nat) (t : Triple) : bool :=
  utf8_Valid (raw (Triple_String t)) && (String.length (Triple_String t) <? size)%nat.



(** The triple of three IRIs. *)
Definition IRI_triple (s p o : string) : Triple :=
  {| SubjectIRI := s; PredicateIRI := p; Object := o; DatatypeIRI := ""; LangTag := "" |}.

(** The objects of one predicate as Turtle writes them, IRI references
    separated by commas, each after a space and before one; [next] is what
    follows the last. *)
Fixpoint objects_text (o : string) (os : list string) (next : bytes) : bytes :=
  SP :: "<"%char :: raw o ++ ">"%char :: SP ::
  match os with
  | [] => next
  | o' :: os' => ","%char :: objects_text o' os' next
  end.

(** A predicate with its objects. *)
Definition verb : Type := string * string * list string.

(** The predicates of one subject, separated by semicolons, with the dot
    after the last and [tail] after the dot. *)
Fixpoint predicates_text (po : verb) (pos : list verb) (tail : bytes) : bytes :=
  let '(p, o, os) := po in
  SP :: "<"%char :: raw p ++ ">"%char ::
  objects_text o os
    match pos with
    | [] => "."%char :: tail
    | po' :: pos' => ";"%char :: predicates_text po' pos' tail
    end.

Definition statement_text (s : string) (po : verb) (pos : list verb) : bytes :=
  "<"%char :: raw s ++ ">"%char :: predicates_text po pos [].

(** The triples of such a statement, in the order of the text. *)
Definition verb_triples (s : string) (po : verb) : list Triple :=
  let '(p, o, os) := po in map (IRI_triple s p) (o :: os).

Definition statement_triples (s : string) (po : verb) (pos : list verb) : list Triple :=
  concat (map (verb_triples s) (po :: pos)).

Definition verb_ok `{GoLib} (po : verb) : bool :=
  let '(p, o, os) := po in absolute_IRI p && absolute_IRI o && forallb absolute_IRI os.

(** The turns of the loops that a statement takes. *)
Definition verb_turns (po : verb) : nat := let '(p, o, os) := po in 2 + length os.

Definition turns (po : verb) (pos : list verb) : nat :=
  verb_turns po + list_sum (map verb_turns pos).

(** A token that spells a keyword in capitals, in small letters or in a
    mix of both. *)
Fixpoint spelled (token upper lower : bytes) : bool :=
  match token, upper, lower with
  | [], [], [] => true
  | c :: token', u :: upper', l :: lower' => either c u l && spelled token' upper' lower'
  | _, _, _ => false
  end.

(** A Reader of the example library that has the prefix [ex:]. *)
Definition prefixed_world : @world exampleLib :=
  @with_prefix exampleLib "ex" "http://e/" (example_world "").

(** * Properties *)

(** ** The skolem predicate *)

Lemma prefix_of_longer (p s : string) :
  (String.length p < String.length s)%nat -> String.prefix s p = false.
Proof.
  revert p. induction s as [|c s IH]; intros [|d p] Hlen; simpl in *; try lia; auto.
  destruct (Ascii.ascii_dec c d); auto. apply IH. lia.
Qed.

Lemma length_append (a b : string) :
  String.length (a +:+ b) = (String.length a + String.length b)%nat.
Proof. induction a; simpl; auto. Qed.

(** C2. [IsSkolemIRI s] holds exactly when [s] is a prefix of the
    namespace, not when [s] begins with it: the empty string and "web+"
    pass, and no IRI a Reader mints for a blank node does. *)
Theorem IsSkolemIRI_tests_the_namespace `{GoLib} :
  (forall s, IsSkolemIRI s = String.prefix s skolemIRIRoot_const)
  /\ IsSkolemIRI "" = true
  /\ IsSkolemIRI "web+" = true
  /\ (forall label, IsSkolemIRI (minted_root +:+ "blank#" +:+ label) = false)
  /\ (forall n, IsSkolemIRI (minted_root +:+ "anon#" +:+ dec n) = false).
Proof.
  split; [reflexivity|]. split; [reflexivity|]. split; [reflexivity|].
  split; intros; apply prefix_of_longer; unfold minted_root;
    rewrite !length_append; simpl; lia.
Qed.

(** ** The accessors *)

(** C4. [XSDString] never returns the lexical form: on a triple of
    datatype xsd:string it returns the empty string with no error, on any
    other the empty string with [errXSDString]. *)
Theorem XSDString_returns_the_empty_string :
  (forall t, fst (XSDString t) = "")
  /\ (forall t, snd (XSDString t) =
        if String.eqb (DatatypeIRI t) XSDString_IRI then None else Some errXSDString)
  /\ XSDString {| SubjectIRI := "http://e/s"; PredicateIRI := "http://e/p"; Object := "hi";
                  DatatypeIRI := XSDString_IRI; LangTag := "" |} = ("", None).
Proof.
  split; [|split]; [intros t | intros t | reflexivity];
    unfold XSDString; destruct (String.eqb (DatatypeIRI t) XSDString_IRI); reflexivity.
Qed.

(** ** What every method keeps *)

Section Spec.
Context `{GoLib}.

Lemma appended_refl w : appended w w.
Proof. exists []. split; [symmetry; apply app_nil_r | constructor]. Qed.

Lemma appended_trans w1 w2 w3 : appended w1 w2 -> appended w2 w3 -> appended w1 w3.
Proof.
  intros (n1 & E1 & F1) (n2 & E2 & F2). exists (n1 ++ n2). split.
  - rewrite E2, E1. symmetry. apply app_assoc.
  - apply Forall_app. split; assumption.
Qed.

Lemma bind_Done {A B} (m : M A) (k : A -> M B) w a w' :
  m w = (Done a, w') -> bind m k w = k a w'.
Proof. intros E. unfold bind. rewrite E. reflexivity. Qed.

Lemma bind_Fail {A B} (m : M A) (k : A -> M B) w e w' :
  m w = (Fail e, w') -> bind m k w = (Fail e, w').
Proof. intros E. unfold bind. rewrite E. reflexivity. Qed.

Lemma bind_Panic {A B} (m : M A) (k : A -> M B) w msg w' :
  m w = (Panic msg, w') -> bind m k w = (Panic msg, w').
Proof. intros E. unfold bind. rewrite E. reflexivity. Qed.

Lemma bind_Hang {A B} (m : M A) (k : A -> M B) w w' :
  m w = (Hang, w') -> bind m k w = (Hang, w').
Proof. intros E. unfold bind. rewrite E. reflexivity. Qed.

Lemma spec_ret {A} (a : A) (Q : A -> Prop) E : Q a -> spec (ret a) Q E.
Proof. intros Ha w. split; [apply appended_refl | exact Ha]. Qed.

Lemma spec_fail {A} e (Q : A -> Prop) (E : error -> Prop) : E e -> spec (fail e) Q E.
Proof. intros He w. split; [apply appended_refl | exact He]. Qed.

Lemma spec_panic {A} msg (Q : A -> Prop) E : spec (panic msg) Q E.
Proof. intros w. split; [apply appended_refl | exact I]. Qed.

Lemma spec_hang {A} (Q : A -> Prop) E : spec hang Q E.
Proof. intros w. split; [apply appended_refl | exact I]. Qed.

Lemma spec_get Q E : (forall r, Q r) -> spec get Q E.
Proof. intros HQ w. split; [apply appended_refl | apply HQ]. Qed.

Lemma spec_modify f E : spec (modify f) any E.
Proof. intros w. split; [|exact I]. exists []. split; [symmetry; apply app_nil_r | constructor]. Qed.

Lemma spec_append_dst t E : tagged_ok t -> spec (append_dst t) any E.
Proof.
  intros Ht w. split; [|exact I]. exists [t]. split; [reflexivity|].
  constructor; [exact Ht | constructor].
Qed.

Lemma spec_bind {A B} (m : M A) (k : A -> M B) P Q E :
  spec m P E -> (forall a, P a -> spec (k a) Q E) -> spec (bind m k) Q E.
Proof.
  intros Hm Hk w. unfold bind. specialize (Hm w).
  destruct (m w) as [[a|e|msg|] w']; simpl in Hm; destruct Hm as [Happ Hres];
    try (split; [exact Happ | exact Hres]).
  specialize (Hk a Hres w'). destruct Hk as [Happ' Hres'].
  split; [eapply appended_trans; eassumption | exact Hres'].
Qed.

Lemma spec_weaken {A} (m : M A) (P Q : A -> Prop) (E E' : error -> Prop) :
  spec m P E -> (forall a, P a -> Q a) -> (forall e, E e -> E' e) -> spec m Q E'.
Proof.
  intros Hm HQ HE w. specialize (Hm w). destruct Hm as [Happ Hres]. split; [exact Happ|].
  destruct (fst (m w)); auto.
Qed.

Lemma spec_syntaxErr {A} reason (Q : A -> Prop) : spec (syntaxErr reason) Q not_EOF.
Proof.
  intros w. split; [apply appended_refl | unfold not_EOF; discriminate].
Qed.

Lemma spec_syntaxErr_any {A} reason (Q : A -> Prop) : spec (syntaxErr reason) Q any_error.
Proof. intros w. split; [apply appended_refl | exact I]. Qed.

End Spec.

Create HintDb spec.

#[export] Hint Resolve spec_modify spec_syntaxErr spec_syntaxErr_any spec_panic spec_hang : spec.
#[export] Hint Extern 1 (spec get _ _) => apply spec_get; intros; exact I : spec.
#[export] Hint Extern 1 (spec (ret _) _ _) => apply spec_ret; exact I : spec.
#[export] Hint Extern 1 (not_EOF _) => unfold not_EOF; discriminate : spec.
#[export] Hint Extern 1 (any_error _) => exact I : spec.
#[export] Hint Extern 1 (any _) => exact I : spec.

(** One step through the body of a method. *)
Ltac spec_step :=
  lazymatch goal with
  | |- spec (ret _) _ _ => apply spec_ret
  | |- spec (fail _) _ _ => apply spec_fail
  | |- spec (panic _) _ _ => apply spec_panic
  | |- spec hang _ _ => apply spec_hang
  | |- spec (syntaxErr _) _ not_EOF => apply spec_syntaxErr
  | |- spec (syntaxErr _) _ any_error => apply spec_syntaxErr_any
  | |- spec (bind _ _) _ _ => eapply spec_bind; [solve [eauto with spec] | intros]
  | |- spec (match ?x with _ => _ end) _ _ => destruct x eqn:?
  | |- spec (let _ := _ in _) _ _ => cbv zeta
  end.

Ltac spec_auto := repeat spec_step; eauto with spec.

Section Kept.
Context `{GoLib}.

Lemma spec_skolemIRIRoot : spec skolemIRIRoot any not_EOF.
Proof. unfold skolemIRIRoot. spec_auto. Qed.

Lemma spec_line_loop fuel line : spec (line_loop fuel line) any any_error.
Proof.
  revert line. induction fuel as [|fuel IH]; intros line; simpl; spec_auto.
Qed.

Lemma spec_Reader_line : spec Reader_line any any_error.
Proof. unfold Reader_line. spec_auto. apply spec_line_loop. Qed.

Lemma spec_lineContinue remainder : spec (lineContinue remainder) any not_EOF.
Proof.
  unfold lineContinue. destruct (nonempty (lead remainder)); [spec_auto|].
  intros w. destruct (spec_Reader_line w) as [Happ Hres].
  destruct (Reader_line w) as [[a|e|msg|] w']; simpl in *; try (split; [exact Happ | exact I]).
  destruct e; simpl; (split; [exact Happ | unfold not_EOF; discriminate]).
Qed.

Hint Resolve spec_skolemIRIRoot spec_lineContinue : spec.

Lemma spec_first_byte line : spec (first_byte line) any not_EOF.
Proof. unfold first_byte. spec_auto. Qed.

Lemma spec_byte_at line i : spec (byte_at line i) any not_EOF.
Proof. unfold byte_at. spec_auto. Qed.

Hint Resolve spec_first_byte spec_byte_at : spec.

Lemma spec_inToken_loop token tok rest : spec (inToken_loop token tok rest) any not_EOF.
Proof. revert rest. induction tok; intros rest; simpl; spec_auto. Qed.

Hint Resolve spec_inToken_loop : spec.

Lemma spec_inToken line token : spec (inToken line token) any not_EOF.
Proof. unfold inToken. spec_auto. Qed.

Lemma spec_inIRI_loop line rest i : spec (inIRI_loop line rest i) any not_EOF.
Proof. revert i. induction rest; intros i; simpl; spec_auto. Qed.

Lemma spec_inIRI line : spec (inIRI line) any not_EOF.
Proof. apply spec_inIRI_loop. Qed.

Hint Resolve spec_inToken spec_inIRI : spec.

Lemma spec_afterBaseDirective line terminated :
  spec (afterBaseDirective line terminated) any not_EOF.
Proof. unfold afterBaseDirective. spec_auto. Qed.

Lemma spec_ReadLabel line rest i : spec (ReadLabel line rest i) any not_EOF.
Proof. revert i. induction rest; intros i; simpl; spec_auto. Qed.

Hint Resolve spec_ReadLabel : spec.

Lemma spec_afterPrefixDirective line terminated :
  spec (afterPrefixDirective line terminated) any not_EOF.
Proof. unfold afterPrefixDirective. spec_auto. Qed.

Hint Resolve spec_afterBaseDirective spec_afterPrefixDirective : spec.

Lemma spec_inDirective line : spec (inDirective line) any not_EOF.
Proof. unfold inDirective. spec_auto. Qed.

Lemma spec_readPredicate line : spec (readPredicate line) any not_EOF.
Proof. unfold readPredicate. spec_auto. Qed.

Lemma spec_inUndeterminedSubject line : spec (inUndeterminedSubject line) any not_EOF.
Proof. unfold inUndeterminedSubject. spec_auto. Qed.

Lemma spec_inBlankLabel_loop line rest i : spec (inBlankLabel_loop line rest i) any not_EOF.
Proof. revert i. induction rest; intros i; simpl; spec_auto. Qed.

Lemma spec_inBlankLabel line : spec (inBlankLabel line) any not_EOF.
Proof. unfold inBlankLabel. spec_auto. apply spec_inBlankLabel_loop. Qed.

Lemma spec_inAnonymous_loop fuel skolemIRI line :
  spec (inAnonymous_loop fuel skolemIRI line) any not_EOF.
Proof. revert line. induction fuel; intros line; simpl; spec_auto. Qed.

Hint Resolve spec_inAnonymous_loop : spec.

Lemma spec_inAnonymous fuel line : spec (inAnonymous fuel line) any not_EOF.
Proof. unfold inAnonymous. spec_auto. Qed.

Lemma spec_inCollection line : spec (inCollection line) any not_EOF.
Proof. unfold inCollection. spec_auto. Qed.

Hint Resolve spec_inDirective spec_readPredicate spec_inUndeterminedSubject
  spec_inBlankLabel spec_inAnonymous spec_inCollection : spec.

Lemma spec_readSubject_loop fuel line : spec (readSubject_loop fuel line) any not_EOF.
Proof. revert line. induction fuel; intros line; simpl; spec_auto. Qed.

Hint Extern 1 (literal_ok _) => unfold literal_ok, tagged_ok; simpl; auto : spec.
Hint Extern 1 (fraction_ok _) => unfold fraction_ok, literal_ok, tagged_ok; simpl; auto : spec.
Hint Extern 1 (LangTag _ = _) => simpl; assumption : spec.
Hint Extern 1 (spec (ret _) literal_ok _) =>
  apply spec_ret; unfold literal_ok, tagged_ok; simpl; auto : spec.
Hint Extern 1 (spec (ret _) fraction_ok _) =>
  apply spec_ret; unfold fraction_ok, literal_ok, tagged_ok; simpl; auto : spec.

Lemma spec_inUndeterminedObject line t :
  LangTag t = "" -> spec (inUndeterminedObject line t) literal_ok not_EOF.
Proof. intros Ht. unfold inUndeterminedObject. spec_auto. Qed.

Lemma spec_inNumber_decimals fuel line i : spec (inNumber_decimals fuel line i) any not_EOF.
Proof. induction fuel; simpl; spec_auto. Qed.

Lemma spec_inNumber_fraction line rest i t :
  LangTag t = "" -> spec (inNumber_fraction line rest i t) fraction_ok not_EOF.
Proof. intros Ht. revert i. induction rest; intros i; simpl; spec_auto. Qed.

Lemma spec_inNumber_exponent line rest i offset t :
  LangTag t = "" -> spec (inNumber_exponent line rest i offset t) literal_ok not_EOF.
Proof. intros Ht. revert i. induction rest; intros i; simpl; spec_auto. Qed.

Hint Resolve spec_inNumber_decimals spec_inNumber_fraction spec_inNumber_exponent : spec.

Lemma spec_inNumberWithSign fuel line signOffset t :
  LangTag t = "" -> spec (inNumberWithSign fuel line signOffset t) literal_ok not_EOF.
Proof.
  intros Ht. unfold inNumberWithSign. spec_step. spec_step.
  eapply spec_bind with (P := fraction_ok); [spec_auto | intros next Hnext].
  destruct next as [literal | j]; spec_auto.
Qed.

Lemma spec_nHex_loop line n u b : spec (nHex_loop line n u b) any not_EOF.
Proof. revert line u. induction n; intros line u; simpl; spec_auto. Qed.

Lemma spec_nHex line n b : spec (nHex line n b) any not_EOF.
Proof. apply spec_nHex_loop. Qed.

Hint Resolve spec_nHex : spec.

Lemma spec_inEscape line b : spec (inEscape line b) any not_EOF.
Proof. unfold inEscape. spec_auto. Qed.

Lemma spec_inLangTag_loop line rest i offset t :
  DatatypeIRI t = rdf_langString ->
  spec (inLangTag_loop line rest i offset t) literal_ok not_EOF.
Proof. intros Ht. revert i offset. induction rest; intros i offset; simpl; spec_auto. Qed.

Lemma spec_inLangTag line t : spec (inLangTag line t) literal_ok not_EOF.
Proof. apply spec_inLangTag_loop. reflexivity. Qed.

Lemma spec_ReadPrefix line rest i : spec (ReadPrefix line rest i) any not_EOF.
Proof. revert i. induction rest; intros i; simpl; spec_auto. Qed.

Lemma spec_inDatatype_local prefix line rest i t :
  LangTag t = "" -> spec (inDatatype_local prefix line rest i t) literal_ok not_EOF.
Proof. intros Ht. revert i. induction rest; intros i; simpl; spec_auto. Qed.

Hint Resolve spec_inEscape spec_inLangTag spec_ReadPrefix spec_inDatatype_local : spec.

Lemma spec_inDatatype line t :
  LangTag t = "" -> spec (inDatatype line t) literal_ok not_EOF.
Proof. intros Ht. unfold inDatatype. spec_auto. Qed.

Hint Resolve spec_inDatatype : spec.

Lemma spec_afterQuotedLiteral line t :
  LangTag t = "" -> spec (afterQuotedLiteral line t) literal_ok not_EOF.
Proof. intros Ht. unfold afterQuotedLiteral. spec_auto. Qed.

Hint Resolve spec_afterQuotedLiteral : spec.

Lemma spec_longSingleQuote_scan fuel b line rest i :
  spec (longSingleQuote_scan fuel b line rest i) any not_EOF.
Proof.
  revert b line rest i. induction fuel; intros b line rest i; simpl; spec_auto.
Qed.

Hint Resolve spec_longSingleQuote_scan : spec.

Lemma spec_longSingleQuote_loop fuel b line t :
  LangTag t = "" -> spec (longSingleQuote_loop fuel b line t) literal_ok not_EOF.
Proof.
  intros Ht. revert b line.
  induction fuel as [|fuel IH]; intros b line; cbn [longSingleQuote_loop]; [spec_auto|].
  spec_step. destruct a as [b' remainder | b']; [spec_auto|].
  intros w. destruct (spec_Reader_line w) as [Happ Hres].
  destruct (Reader_line w) as [[l|e|msg|] w']; simpl in *; try (split; [exact Happ | exact I]).
  - destruct (IH b' l w') as [Happ' Hres'].
    split; [eapply appended_trans; eassumption | exact Hres'].
  - destruct e; simpl; (split; [exact Happ | unfold not_EOF; discriminate]).
Qed.

Lemma spec_longSingleQuote fuel copyAsIs line t :
  LangTag t = "" -> spec (longSingleQuote fuel copyAsIs line t) literal_ok not_EOF.
Proof. apply spec_longSingleQuote_loop. Qed.

Lemma spec_Escape fuel q line b t :
  LangTag t = "" -> spec (Escape fuel q line b t) literal_ok not_EOF.
Proof. intros Ht. revert b. induction fuel; intros b; simpl; spec_auto. Qed.

Lemma spec_inQuoteEscape q fuel copyAsIs line t :
  LangTag t = "" -> spec (inQuoteEscape q fuel copyAsIs line t) literal_ok not_EOF.
Proof. intros Ht. unfold inQuoteEscape. spec_auto. apply spec_Escape. exact Ht. Qed.

Hint Resolve spec_longSingleQuote spec_inQuoteEscape : spec.

Lemma inQuote_long_cons q fuel line c rest' i t :
  inQuote_long q fuel line (c :: rest') i t =
  if eqc c q then
    match rest' with
    | c1 :: ((c2 :: rest3) as rest2) =>
        if negb (eqc c1 q) then inQuote_long q fuel line rest' (S i) t
        else if negb (eqc c2 q) then inQuote_long q fuel line rest2 (S (S i)) t
        else afterQuotedLiteral rest3 (set_Object (str (slice line 3 i)) t)
    | _ => inQuote_long q fuel line rest' (S i) t
    end
  else if eqc c backslash then longSingleQuote fuel (slice line 3 i) (c :: rest') t
  else inQuote_long q fuel line rest' (S i) t.
Proof. destruct rest' as [|c1 [|c2 rest3]]; reflexivity. Qed.

Lemma spec_inQuote_long q fuel line rest i t :
  LangTag t = "" -> spec (inQuote_long q fuel line rest i t) literal_ok not_EOF.
Proof.
  intros Ht. remember (length rest) as n eqn:Hn.
  assert (Hle : (length rest <= n)%nat) by lia. clear Hn.
  revert rest i Hle. induction n as [|n IH]; intros rest i Hle.
  - destruct rest; simpl in Hle; [simpl; spec_auto | lia].
  - destruct rest as [|c rest']; [simpl; spec_auto|].
    rewrite inQuote_long_cons. simpl in Hle.
    destruct (eqc c q); [|spec_auto; apply IH; lia].
    destruct rest' as [|c1 [|c2 rest3]]; try (apply IH; simpl in *; lia).
    spec_auto; apply IH; simpl in *; lia.
Qed.

Lemma spec_inQuote_short q fuel line rest i t :
  LangTag t = "" -> spec (inQuote_short q fuel line rest i t) literal_ok not_EOF.
Proof. intros Ht. revert i. induction rest; intros i; simpl; spec_auto. Qed.

Hint Resolve spec_inQuote_long spec_inQuote_short : spec.

Lemma spec_inQuote q fuel line t :
  LangTag t = "" -> spec (inQuote q fuel line t) literal_ok not_EOF.
Proof. intros Ht. unfold inQuote. spec_auto. Qed.

Hint Resolve spec_inUndeterminedObject spec_inNumberWithSign spec_inQuote : spec.

Lemma spec_readObject fuel line t :
  LangTag t = "" -> spec (readObject fuel line t) literal_ok not_EOF.
Proof.
  intros Ht. unfold readObject, inDoubleQuote, inSingleQuote. spec_auto.
Qed.

Hint Resolve spec_readObject spec_readSubject_loop : spec.

Lemma spec_ReadObject_turn fuel subject predicate line :
  spec (ReadObject_turn fuel subject predicate line) any not_EOF.
Proof.
  unfold ReadObject_turn. cbv zeta.
  eapply spec_bind; [apply spec_readObject; reflexivity | intros [line' t] Ht].
  eapply spec_bind; [apply spec_append_dst; exact Ht | intros ? _].
  spec_auto.
Qed.

Hint Resolve spec_ReadObject_turn : spec.

Lemma spec_ReadObject fuel subject predicate line :
  spec (ReadObject fuel subject predicate line) any not_EOF.
Proof. revert line. induction fuel; intros line; simpl; spec_auto. Qed.

Hint Resolve spec_ReadObject : spec.

Lemma spec_ReadPredicate fuel subject line :
  spec (ReadPredicate fuel subject line) any not_EOF.
Proof. revert line. induction fuel; intros line; simpl; spec_auto. Qed.

Lemma spec_readSubject fuel : spec (readSubject fuel) any any_error.
Proof.
  unfold readSubject. eapply spec_bind; [apply spec_Reader_line | intros line _].
  eapply spec_weaken; [apply spec_readSubject_loop | auto | intros; exact I].
Qed.

Hint Resolve spec_ReadPredicate : spec.

Lemma spec_ReadAppend_body fuel : spec (ReadAppend_body fuel) any any_error.
Proof.
  unfold ReadAppend_body. eapply spec_bind; [apply spec_readSubject | intros [subject line] _].
  eapply spec_weaken; [apply spec_ReadPredicate | auto | intros; exact I].
Qed.

Lemma bind_first_EOF {A B} (m : M A) (k : A -> M B) w :
  (forall a, spec (k a) any not_EOF) ->
  fst (bind m k w) = Fail io_EOF -> fst (m w) = Fail io_EOF.
Proof.
  intros Hk. unfold bind. destruct (m w) as [[a|e|msg|] w']; simpl;
    try (intros He; inversion He; reflexivity).
  intros Hka. destruct (Hk a w') as [_ Hres]. rewrite Hka in Hres.
  exfalso. apply Hres. reflexivity.
Qed.

Lemma ReadAppend_outcome fuel r dst0 :
  outcome_of (ReadAppend fuel r dst0) = fst (ReadAppend_body fuel {| rdr := r; dst := dst0 |}).
Proof.
  unfold ReadAppend, outcome_of. destruct (ReadAppend_body fuel _) as [o w]. reflexivity.
Qed.

Lemma ReadAppend_returned fuel r dst0 :
  returned_dst (ReadAppend fuel r dst0)
  = dst (snd (ReadAppend_body fuel {| rdr := r; dst := dst0 |})).
Proof.
  unfold ReadAppend, returned_dst. destruct (ReadAppend_body fuel _) as [o w]. reflexivity.
Qed.

(** What ReadAppend returns: [dst] with triples that are [tagged_ok]
    after it; and io.EOF only when the first call of [line] returned it. *)
Lemma ReadAppend_kept fuel r dst0 :
  (exists new, returned_dst (ReadAppend fuel r dst0) = dst0 ++ new /\ Forall tagged_ok new)
  /\ (outcome_of (ReadAppend fuel r dst0) = Fail io_EOF ->
      fst (Reader_line {| rdr := r; dst := dst0 |}) = Fail io_EOF).
Proof.
  rewrite ReadAppend_outcome, ReadAppend_returned. split.
  - exact (proj1 (spec_ReadAppend_body fuel {| rdr := r; dst := dst0 |})).
  - intros He. unfold ReadAppend_body, readSubject in He.
    apply bind_first_EOF in He; [|intros [subject line]; apply spec_ReadPredicate].
    apply bind_first_EOF in He; [exact He | intros line; apply spec_readSubject_loop].
Qed.

Lemma line_loop_dst fuel line w : dst (snd (line_loop fuel line w)) = dst w.
Proof.
  revert line w. induction fuel as [|fuel IH]; intros line w; simpl;
    destruct (nonempty (lead line)); try reflexivity.
  unfold bind, get, modify, syntaxErr, fail; simpl.
  destruct (ReadSlice (R (rdr w))) as [[l err] b]; simpl.
  destruct (is_nil err || errors_Is_EOF err && nonempty l); simpl.
  - destruct (negb (utf8_Valid l)); simpl; [reflexivity|]. rewrite IH. reflexivity.
  - destruct err as [[|e]|]; reflexivity.
Qed.

(** ** The fuel of the loops that end

    [line] and the scan of a line in longSingleQuote end in the source:
    every turn takes a byte. The fuel their embeddings are run with is
    never used up. *)

Lemma index_LF_lt p i : index_LF p = Some i -> (i < length p)%nat.
Proof.
  revert i. induction p as [|c p IH]; simpl; intros i; [discriminate|].
  destruct (eqc c LF); [intros [= <-]; lia|].
  destruct (index_LF p) as [j|]; simpl; [intros [= <-]|discriminate].
  specialize (IH j eq_refl). lia.
Qed.

Lemma line_loop_returns fuel line w :
  (length (input (R (rdr w))) < fuel)%nat -> fst (line_loop fuel line w) <> Hang.
Proof.
  revert line w. induction fuel as [|fuel IH]; intros line w Hfuel; [lia|].
  simpl. destruct (nonempty (lead line)); [discriminate|].
  unfold bind, get, modify, syntaxErr, fail; simpl.
  destruct (ReadSlice (R (rdr w))) as [[l err] b] eqn:Hread; simpl.
  destruct (is_nil err || errors_Is_EOF err && nonempty l) eqn:Hgo; simpl.
  - destruct (negb (utf8_Valid l)); simpl; [discriminate|].
    apply IH. simpl. unfold ReadSlice in Hread.
    destruct (index_LF _) as [i|] eqn:Hi.
    + apply index_LF_lt in Hi. rewrite length_take in Hi.
      injection Hread as _ _ <-. simpl. rewrite length_drop. lia.
    + destruct (buf_size (R (rdr w)) <=? length (input (R (rdr w))))%nat;
        injection Hread as <- <- <-; [discriminate|].
      simpl in *. rewrite length_drop.
      destruct (input (R (rdr w))); [destruct (at_end (R (rdr w))); discriminate|].
      simpl in *. lia.
  - destruct err as [[|e]|]; discriminate.
Qed.

Lemma Reader_line_returns w : fst (Reader_line w) <> Hang.
Proof. unfold Reader_line, bind, get. apply line_loop_returns. simpl. lia. Qed.

Lemma longSingleQuote_scan_returns fuel b line rest i w :
  (length rest < fuel)%nat -> fst (longSingleQuote_scan fuel b line rest i w) <> Hang.
Proof.
  revert b line rest i. induction fuel as [|fuel IH]; intros b line rest i Hfuel; [lia|].
  destruct rest as [|c rest]; [discriminate|].
  cbn [longSingleQuote_scan length] in *.
  destruct (eqc c backslash) eqn:Hc.
  - unfold eqc in Hc. apply Ascii.eqb_eq in Hc. subst c. cbn. apply IH.
    rewrite length_drop. lia.
  - destruct (eqc c squote); [|apply IH; lia].
    destruct rest as [|c1 [|c2 rest3]]; cbn [length] in *; try (apply IH; cbn [length]; lia).
    destruct (negb (eqc c1 squote)); [apply IH; cbn [length]; lia|].
    destruct (negb (eqc c2 squote)); [apply IH; cbn [length]; lia|discriminate].
Qed.

Lemma ReadAppend_at_EOF fuel r dst0 :
  fst (Reader_line {| rdr := r; dst := dst0 |}) = Fail io_EOF ->
  outcome_of (ReadAppend fuel r dst0) = Fail io_EOF
  /\ returned_dst (ReadAppend fuel r dst0) = dst0.
Proof.
  intros Hline. rewrite ReadAppend_outcome, ReadAppend_returned.
  unfold ReadAppend_body, readSubject.
  set (w0 := {| rdr := r; dst := dst0 |}) in *.
  assert (Hdst : dst (snd (Reader_line w0)) = dst0).
  { unfold Reader_line, bind, get. cbv beta iota.
    exact (line_loop_dst _ _ w0). }
  destruct (Reader_line w0) as [o w1] eqn:E. simpl in Hline, Hdst. subst o.
  rewrite (bind_Fail _ _ w0 io_EOF w1);
    [split; [reflexivity | exact Hdst] | apply bind_Fail; exact E].
Qed.

End Kept.

(** ** Outcomes of ReadAppend *)

Section Outcomes.
Context `{GoLib}.

Lemma ReadPredicate_S fuel subject line :
  ReadPredicate (S fuel) subject line =
  (let* (predicate, line) := readPredicate line in
   let* next := ReadObject fuel subject predicate line in
   match next with
   | None => ret tt
   | Some line => ReadPredicate fuel subject line
   end).
Proof. reflexivity. Qed.

Lemma ReadObject_S fuel subject predicate line :
  ReadObject (S fuel) subject predicate line =
  (let* next := ReadObject_turn fuel subject predicate line in
   match next with
   | terminator => ret None
   | next_object line => ReadObject fuel subject predicate line
   | next_predicate line => ret (Some line)
   end).
Proof. reflexivity. Qed.

Lemma inNumber_decimals_hangs fuel line i c w :
  line !! i = Some c -> isDigit c = true -> inNumber_decimals fuel line i w = (Hang, w).
Proof.
  intros Hc Hd. induction fuel as [|fuel IH]; simpl; [reflexivity|].
  rewrite Hc, Hd. exact IH.
Qed.

(** A sign or a decimal followed by a decimal: the first loop of
    inNumberWithSign never ends. *)
Lemma inNumberWithSign_hangs fuel line signOffset t w c :
  line !! 1%nat = Some c -> isDigit c = true ->
  inNumberWithSign fuel line signOffset t w = (Hang, w).
Proof.
  intros Hc Hd. unfold inNumberWithSign. apply bind_Hang.
  eapply inNumber_decimals_hangs; eassumption.
Qed.

Lemma isDigit_cases c :
  isDigit c = true ->
  In c ["0"; "1"; "2"; "3"; "4"; "5"; "6"; "7"; "8"; "9"]%char.
Proof.
  destruct c as [[] [] [] [] [] [] [] []]; vm_compute; intros Hd;
    first [discriminate Hd | tauto].
Qed.

Lemma readObject_decimal fuel line c rest t w :
  lead line = c :: rest -> isDigit c = true ->
  readObject fuel line t w = inNumberWithSign fuel (c :: rest) 0 t w.
Proof.
  intros Hl Hd. unfold readObject, lineContinue. rewrite Hl.
  apply isDigit_cases in Hd. simpl in Hd.
  repeat (destruct Hd as [Hd | Hd]; [subst c; reflexivity|]). contradiction.
Qed.

Lemma readObject_hangs_on_decimals fuel line c0 c1 rest t w :
  lead line = c0 :: c1 :: rest -> isDigit c0 = true -> isDigit c1 = true ->
  readObject fuel line t w = (Hang, w).
Proof.
  intros Hl H0 H1. rewrite (readObject_decimal _ _ _ _ _ _ Hl H0).
  eapply inNumberWithSign_hangs; [reflexivity | exact H1].
Qed.

(** C1. ReadAppend does not always return: on a numeric literal of two
    decimals the call is still running whatever fuel it is given, and it
    panics on a collection and on a backslash in an IRI reference. *)
Theorem ReadAppend_hangs_and_panics :
  (forall fuel,
     outcome_of (ReadAppend fuel (Reader_over ("_:s a 12 ." +:+ NL)) []) = Hang)
  /\ (forall fuel,
       outcome_of (ReadAppend (3 + fuel) (Reader_over ("_:s a ( 1 ) ." +:+ NL)) [])
       = Panic "TODO: collection list not implemented yet")
  /\ (forall fuel,
       outcome_of (ReadAppend (1 + fuel) (Reader_over ("( 1 ) a 1 ." +:+ NL)) [])
       = Panic "TODO: collection list not implemented yet")
  /\ (forall fuel,
       outcome_of (ReadAppend (1 + fuel) (Reader_over ("<http://e/a\b> a 1 ." +:+ NL)) [])
       = Panic "TODO: Unicode escape").
Proof.
  split; [|repeat split; intros fuel; vm_compute; reflexivity].
  intros fuel. rewrite ReadAppend_outcome.
  destruct fuel as [|[|[|fuel]]];
    [vm_compute; reflexivity | vm_compute; reflexivity | vm_compute; reflexivity |].
  unfold ReadAppend_body.
  erewrite bind_Done by (vm_compute; reflexivity). cbv beta iota.
  rewrite ReadPredicate_S.
  erewrite bind_Done by (vm_compute; reflexivity). cbv beta iota.
  rewrite ReadObject_S.
  erewrite bind_Hang; [reflexivity|].
  erewrite bind_Hang; [reflexivity|].
  unfold ReadObject_turn. cbv zeta.
  erewrite bind_Hang; [reflexivity|].
  apply (readObject_hangs_on_decimals _ _ "1" "2" (raw (" ." +:+ NL))); reflexivity.
Qed.

(** C3. The keyword false is read as the literal "true" of datatype
    xsd:boolean, the same triple the keyword true gives, and XSDBoolean
    returns true on it. *)
Theorem false_keyword_reads_as_true :
  forall fuel, exists t r,
    ReadAppend (3 + fuel) (Reader_over ("_:s a false ." +:+ NL)) [] = (Done tt, [t], r)
    /\ ReadAppend (3 + fuel) (Reader_over ("_:s a true ." +:+ NL)) [] = (Done tt, [t], r)
    /\ Object t = "true"
    /\ DatatypeIRI t = XSDBoolean_IRI
    /\ XSDBoolean t = (true, None).
Proof.
  intros fuel. eexists. eexists.
  split; [vm_compute; reflexivity|].
  split; [vm_compute; reflexivity|].
  repeat split.
Qed.

(** C5. The language tag of a triple is the tag as the input writes it,
    with no change of case. *)
Theorem LangTag_is_kept_as_written :
  forall fuel, exists t r,
    ReadAppend (3 + fuel) (Reader_over ("_:s a " +:+ quoted "chat" +:+ "@EN ." +:+ NL)) []
    = (Done tt, [t], r)
    /\ Object t = "chat"
    /\ LangTag t = "EN"
    /\ DatatypeIRI t = rdf_langString.
Proof.
  intros fuel. eexists. eexists.
  split; [vm_compute; reflexivity|].
  repeat split.
Qed.

(** C7. inEscape returns a syntax error for no byte but a bad digit after
    u or U: any other byte is written to the literal, and a literal with a
    backslash before x is read without error, backslash included. *)
Theorem unlisted_escape_is_accepted :
  (forall c rest b w,
     if eqc c "u" || eqc c "U" then True
     else exists c', inEscape (c :: rest) b w = (Done (rest, b ++ [c']), w))
  /\ (forall rest b w, inEscape ("x"%char :: rest) b w = (Done (rest, b ++ ["x"%char]), w))
  /\ (forall fuel, exists t r,
        ReadAppend (3 + fuel) (Reader_over ("_:s a " +:+ quoted "\x" +:+ " ." +:+ NL)) []
        = (Done tt, [t], r)
        /\ Object t = "\x"
        /\ DatatypeIRI t = XSDString_IRI).
Proof.
  split; [|split].
  - intros c rest b w. unfold inEscape.
    destruct (eqc c "u"); [exact I|]. destruct (eqc c "U"); [exact I|]. simpl.
    eexists. reflexivity.
  - intros rest b w. reflexivity.
  - intros fuel. eexists. eexists. split; [vm_compute; reflexivity|]. repeat split.
Qed.

(** C8. Every triple ReadAppend appends with a language tag has the
    datatype rdf:langString. *)
Theorem appended_LangTag_has_langString :
  forall fuel r dst0, exists new,
    returned_dst (ReadAppend fuel r dst0) = dst0 ++ new
    /\ Forall (fun t => LangTag t <> "" -> DatatypeIRI t = rdf_langString) new.
Proof.
  intros fuel r dst0. destruct (ReadAppend_kept fuel r dst0) as [(new & Hnew & Hok) _].
  exists new. split; [exact Hnew|].
  eapply Forall_impl; [exact Hok|]. intros t [Hnone | Hlang] Htag; [contradiction | exact Hlang].
Qed.

(** C10. The slice ReadAppend returns begins with [dst]: every element
    that was there is there at the same index, whatever the outcome. *)
Theorem ReadAppend_only_appends :
  forall fuel r dst0,
    (exists new, returned_dst (ReadAppend fuel r dst0) = dst0 ++ new)
    /\ take (length dst0) (returned_dst (ReadAppend fuel r dst0)) = dst0.
Proof.
  intros fuel r dst0. destruct (ReadAppend_kept fuel r dst0) as [(new & Hnew & _) _].
  split; [exists new; exact Hnew|].
  rewrite Hnew. rewrite take_app_length. reflexivity.
Qed.

Lemma not_EOF_when_a_line_is_read fuel src line w :
  Reader_line {| rdr := Reader_over src; dst := [] |} = (Done line, w) ->
  outcome_of (ReadAppend fuel (Reader_over src) []) <> Fail io_EOF.
Proof.
  intros Hline He. apply ReadAppend_kept in He. rewrite Hline in He. discriminate He.
Qed.

End Outcomes.

(** C6. ReadAppend reports io.EOF exactly when its first call of [line]
    does, that is when nothing but blanks and comments is left. After a
    directive it asks for more with lineContinue: a stream that ends
    there gives io.ErrUnexpectedEOF, in each of the four spellings. *)
Theorem directive_at_end_is_unexpected_EOF :
  (forall (U : GoLib) fuel r dst0,
     outcome_of (ReadAppend fuel r dst0) = Fail io_EOF
     <-> fst (Reader_line {| rdr := r; dst := dst0 |}) = Fail io_EOF)
  /\ (forall (U : GoLib) fuel,
       outcome_of (ReadAppend fuel (Reader_over ("@base <http://e/> ." +:+ NL)) []) <> Fail io_EOF
       /\ outcome_of (ReadAppend fuel (Reader_over ("BASE <http://e/>" +:+ NL)) []) <> Fail io_EOF
       /\ outcome_of (ReadAppend fuel (Reader_over ("@prefix p: <http://e/> ." +:+ NL)) [])
          <> Fail io_EOF
       /\ outcome_of (ReadAppend fuel (Reader_over ("PREFIX p: <http://e/>" +:+ NL)) [])
          <> Fail io_EOF)
  /\ (forall fuel,
       let run src := @ReadAppend exampleLib (1 + fuel) (@Reader_over exampleLib src) [] in
       let unexpected := (Fail (io_ErrUnexpectedEOF ""), @nil Triple) in
       fst (run ("@base <http://e/> ." +:+ NL)) = unexpected
       /\ fst (run ("BASE <http://e/>" +:+ NL)) = unexpected
       /\ fst (run ("@prefix p: <http://e/> ." +:+ NL)) = unexpected
       /\ fst (run ("PREFIX p: <http://e/>" +:+ NL)) = unexpected).
Proof.
  split; [|split].
  - intros U fuel r dst0. split.
    + apply ReadAppend_kept.
    + intros Hline. apply ReadAppend_at_EOF. exact Hline.
  - intros U fuel.
    repeat split; eapply not_EOF_when_a_line_is_read; vm_compute; reflexivity.
  - intros fuel. repeat split; vm_compute; reflexivity.
Qed.

(** ** The round trip through Triple_String *)

Section RoundTrip.
Context `{GoLib}.

Lemma raw_app (a b : string) : raw (a +:+ b) = raw a ++ raw b.
Proof.
  unfold raw. induction a as [|c a IH]; simpl; [reflexivity|]. f_equal. exact IH.
Qed.

Lemma str_raw (s : string) : str (raw s) = s.
Proof. apply string_of_list_ascii_of_string. Qed.

Lemma length_raw (s : string) : length (raw s) = String.length s.
Proof. induction s; simpl; auto. Qed.

Lemma slice_middle (a s rest : bytes) :
  slice (a ++ s ++ rest) (length a) (length a + length s) = s.
Proof.
  unfold slice. rewrite drop_app_length.
  replace (length a + length s - length a)%nat with (length s) by lia.
  apply take_app_length.
Qed.

Lemma inIRI_loop_passes s line rest i w u :
  forallb iri_byte s = true ->
  url_Parse (str (slice line 1 (i + length s))) = inl u ->
  String.eqb (URL_Scheme u) "" = false ->
  inIRI_loop line (s ++ ">"%char :: rest) i w
  = (Done (str (slice line 1 (i + length s)), rest), w).
Proof.
  revert i. induction s as [|c s IH]; intros i Hs Hu Hscheme.
  - cbn [app length] in *. rewrite Nat.add_0_r in *. cbn [inIRI_loop].
    change (eqc ">" ">") with true. cbv iota. rewrite Hu, Hscheme. reflexivity.
  - simpl in Hs. apply andb_true_iff in Hs. destruct Hs as [Hc Hs].
    unfold iri_byte in Hc. rewrite !andb_true_iff, !negb_true_iff in Hc.
    destruct Hc as [[[H1 H2] H3] H4].
    cbn [app inIRI_loop]. rewrite H1, H2, H3, H4.
    replace (i + length (c :: s))%nat with (S i + length s)%nat in * by (simpl; lia).
    apply IH; assumption.
Qed.

(** inIRI on an absolute IRI between angle brackets. *)
Lemma inIRI_absolute s rest w :
  absolute_IRI s = true ->
  inIRI ("<"%char :: raw s ++ ">"%char :: rest) w = (Done (s, rest), w).
Proof.
  unfold absolute_IRI. intros Habs. apply andb_true_iff in Habs. destruct Habs as [Hs Hu].
  destruct (url_Parse s) as [u|msg] eqn:Eu; [|discriminate]. apply negb_true_iff in Hu.
  unfold inIRI. cbn [drop].
  pose proof (slice_middle ["<"%char] (raw s) (">"%char :: rest)) as Hslice.
  cbn [length app] in Hslice.
  rewrite (inIRI_loop_passes (raw s) _ rest 1 w u); cbn [app]; rewrite ?Hslice, ?str_raw; auto.
Qed.

Lemma utf8_Valid_app (a b : bytes) :
  utf8_Valid a = true -> utf8_Valid (a ++ b) = utf8_Valid b.
Proof.
  remember (length a) as n eqn:Hn. assert (Hle : (length a <= n)%nat) by lia. clear Hn.
  revert a Hle. induction n as [|n IH]; intros a Hle Ha.
  - destruct a; [reflexivity | simpl in Hle; lia].
  - destruct a as [|c0 p1]; [reflexivity|].
    cbn [app utf8_Valid] in *. cbn [length] in Hle.
    destruct (code c0 <? 128); [apply IH; [lia | exact Ha]|].
    destruct (between 194 223 c0).
    { destruct p1 as [|c1 p2]; [discriminate|]. cbn [app length] in *.
      destruct (between 128 191 c1); [|discriminate]. apply IH; [lia | exact Ha]. }
    destruct (between 224 239 c0).
    { destruct p1 as [|c1 [|c2 p3]]; try discriminate. cbn [app length] in *.
      apply andb_true_iff in Ha. destruct Ha as [Hc Hp]. rewrite Hc.
      apply IH; [lia | exact Hp]. }
    destruct (between 240 244 c0); [|discriminate].
    destruct p1 as [|c1 [|c2 [|c3 p4]]]; try discriminate. cbn [app length] in *.
    apply andb_true_iff in Ha. destruct Ha as [Hc Hp]. rewrite Hc.
    apply IH; [lia | exact Hp].
Qed.

Lemma index_LF_none (l : bytes) : forallb notLF l = true -> index_LF l = None.
Proof.
  induction l as [|c l IH]; simpl; [reflexivity|]. intros Hl.
  apply andb_true_iff in Hl. destruct Hl as [Hc Hl]. apply negb_true_iff in Hc.
  rewrite Hc, (IH Hl). reflexivity.
Qed.

Lemma index_LF_at_end (l : bytes) :
  index_LF l = None -> index_LF (l ++ [LF]) = Some (length l).
Proof.
  induction l as [|c l IH]; simpl; [reflexivity|].
  destruct (eqc c LF); [discriminate|]. intros Hl.
  destruct (index_LF l); [discriminate|]. rewrite IH; reflexivity.
Qed.

Lemma line_loop_nonblank fuel line w :
  nonempty (lead line) = true -> line_loop fuel line w = (Done (lead line), w).
Proof. intros Hl. destruct fuel; simpl; rewrite Hl; reflexivity. Qed.

Lemma line_loop_reads fuel l b (r : Reader) dst0 :
  ReadSlice (R r) = (l, None, b) -> utf8_Valid l = true -> nonempty (lead l) = true ->
  line_loop (S fuel) [] {| rdr := r; dst := dst0 |}
  = (Done (lead l),
     {| rdr := set_lineNo (incr (lineNo (set_R b r))) (set_R b r); dst := dst0 |}).
Proof.
  intros Hread Hutf Hlead.
  cbn [line_loop lead nonempty length Nat.eqb negb].
  unfold bind at 1. unfold get. cbn [rdr]. rewrite Hread.
  unfold bind at 1. unfold modify at 1. cbn [rdr dst is_nil orb].
  unfold bind at 1. unfold modify at 1. cbn [rdr dst]. rewrite Hutf. cbn [negb].
  apply line_loop_nonblank. exact Hlead.
Qed.

(** The first call of [line] on a fresh Reader whose input is one line
    that fits in the buffer, is valid UTF-8 and begins with a byte that
    [lead] keeps. *)
Lemma Reader_line_first l size e dst0 :
  lead (l ++ [LF]) = l ++ [LF] ->
  index_LF l = None -> (length l < size)%nat -> utf8_Valid l = true ->
  exists r',
    Reader_line {| rdr := Reader_sized (l ++ [LF]) e size; dst := dst0 |}
    = (Done (l ++ [LF]), {| rdr := r'; dst := dst0 |})
    /\ BaseIRI r' = None /\ prefixPerLabel r' = ∅.
Proof.
  intros Hlead Hnone Hfit Hutf.
  unfold Reader_line, bind, get. cbn [rdr Reader_sized R input pending].
  erewrite line_loop_reads.
  - rewrite Hlead. eexists. split; [reflexivity|]. split; reflexivity.
  - unfold ReadSlice. cbn [R input buf_size Reader_sized].
    rewrite take_ge by (rewrite length_app; cbn [length]; lia).
    rewrite (index_LF_at_end _ Hnone).
    rewrite take_ge by (rewrite length_app; cbn [length]; lia).
    reflexivity.
  - rewrite (utf8_Valid_app l [LF] Hutf). reflexivity.
  - rewrite Hlead. destruct l; reflexivity.
Qed.

Lemma lineContinue_lead rem c l w :
  lead rem = c :: l -> lineContinue rem w = (Done (c :: l), w).
Proof. intros Hl. unfold lineContinue. rewrite Hl. reflexivity. Qed.

Lemma readPredicate_IRI p rest w :
  absolute_IRI p = true ->
  readPredicate (SP :: "<"%char :: raw p ++ ">"%char :: rest) w = (Done (p, rest), w).
Proof.
  intros Hp. unfold readPredicate. cbn -[inIRI raw]. apply inIRI_absolute. exact Hp.
Qed.

Lemma readObject_IRI o rest fuel t w :
  absolute_IRI o = true ->
  readObject fuel (SP :: "<"%char :: raw o ++ ">"%char :: rest) t w
  = (Done (rest, set_Object o t), w).
Proof.
  intros Ho. unfold readObject. cbn -[inIRI raw].
  rewrite (bind_Done _ _ _ _ _ (inIRI_absolute o rest w Ho)). reflexivity.
Qed.

Lemma inQuote_short_passes o line rest i fuel t w :
  forallb literal_byte o = true ->
  inQuote_short dquote fuel line (o ++ dquote :: rest) i t w
  = afterQuotedLiteral rest (set_Object (str (slice line 1 (i + length o))) t) w.
Proof.
  revert i. induction o as [|c o IH]; intros i Ho.
  - cbn [app length inQuote_short]. rewrite Nat.add_0_r.
    change (eqc dquote dquote) with true. reflexivity.
  - simpl in Ho. apply andb_true_iff in Ho. destruct Ho as [Hc Ho].
    unfold literal_byte in Hc. rewrite !andb_true_iff, !negb_true_iff in Hc.
    destruct Hc as [[[H1 H2] H3] H4].
    cbn [app inQuote_short]. rewrite H1, H2, H3, H4.
    replace (i + length (c :: o))%nat with (S i + length o)%nat by (simpl; lia).
    apply IH. exact Ho.
Qed.

Lemma raw_nil (s : string) : raw s = [] -> s = "".
Proof. destruct s; [reflexivity | discriminate]. Qed.

(** inDoubleQuote on a lexical form that needs no escape, closed by a
    double quote that another one does not follow. *)
Lemma inDoubleQuote_plain o c rest fuel t w :
  forallb literal_byte (raw o) = true -> eqc c dquote = false ->
  inDoubleQuote fuel (dquote :: raw o ++ dquote :: c :: rest) t w
  = afterQuotedLiteral (c :: rest) (set_Object o t) w.
Proof.
  intros Ho Hc.
  pose proof (slice_middle [dquote] (raw o) (dquote :: c :: rest)) as Hslice.
  cbn [length app] in Hslice.
  assert (Hshort : inQuote_short dquote fuel (dquote :: raw o ++ dquote :: c :: rest)
                     (raw o ++ dquote :: c :: rest) 1 t w
                   = afterQuotedLiteral (c :: rest) (set_Object o t) w).
  { rewrite inQuote_short_passes by exact Ho. rewrite Hslice, str_raw. reflexivity. }
  unfold inDoubleQuote, inQuote.
  destruct (raw o) as [|c1 o'] eqn:Eo.
  - cbn [app drop]. change (eqc dquote dquote) with true. rewrite Hc. exact Hshort.
  - simpl in Ho. apply andb_true_iff in Ho. destruct Ho as [Hc1 _].
    unfold literal_byte in Hc1. rewrite !andb_true_iff, !negb_true_iff in Hc1.
    destruct Hc1 as [[[H1 _] _] _].
    destruct o' as [|c2 o'']; cbn [app drop]; rewrite H1; exact Hshort.
Qed.

Lemma readObject_quoted o c rest fuel t w :
  forallb literal_byte (raw o) = true -> eqc c dquote = false ->
  readObject fuel (SP :: dquote :: raw o ++ dquote :: c :: rest) t w
  = afterQuotedLiteral (c :: rest) (set_Object o t) w.
Proof.
  intros Ho Hc. unfold readObject. cbn -[inDoubleQuote raw afterQuotedLiteral].
  apply inDoubleQuote_plain; assumption.
Qed.

Lemma afterQuotedLiteral_datatype dt rest t w :
  absolute_IRI dt = true ->
  afterQuotedLiteral ("^"%char :: "^"%char :: "<"%char :: raw dt ++ ">"%char :: rest) t w
  = (Done (rest, set_DatatypeIRI dt t), w).
Proof.
  intros Hdt. unfold afterQuotedLiteral. cbn -[inDatatype raw].
  unfold inDatatype. cbn -[inIRI raw].
  assert (Hcons : exists c l, raw dt ++ ">"%char :: rest = c :: l).
  { destruct (raw dt); cbn [app]; eauto. }
  destruct Hcons as (c & l & Hcons). rewrite Hcons. rewrite <- Hcons.
  change (eqc "<" "<") with true. cbv iota.
  rewrite (bind_Done _ _ _ _ _ (inIRI_absolute dt rest w Hdt)). reflexivity.
Qed.

Lemma inLangTag_loop_passes tag line rest i offset t w :
  LangTag_from tag i offset = true ->
  inLangTag_loop line (tag ++ SP :: rest) i offset t w
  = (Done (rest, set_LangTag (str (slice line 1 (i + length tag))) t), w).
Proof.
  revert i offset. induction tag as [|c tag IH]; intros i offset Htag.
  - cbn [app length inLangTag_loop LangTag_from] in *. rewrite Nat.add_0_r.
    change (isLetter SP) with false. change (isDigit SP) with false.
    change (eqc SP "-") with false. change (isWS SP) with true. cbv iota.
    apply negb_true_iff in Htag. rewrite Htag. reflexivity.
  - cbn [app inLangTag_loop LangTag_from] in *.
    replace (i + length (c :: tag))%nat with (S i + length tag)%nat by (simpl; lia).
    destruct (isLetter c); [apply IH; exact Htag|].
    destruct (isDigit c).
    { apply andb_true_iff in Htag. destruct Htag as [Ho Htag].
      apply negb_true_iff in Ho. rewrite Ho. apply IH. exact Htag. }
    destruct (eqc c "-"); [|discriminate].
    apply andb_true_iff in Htag. destruct Htag as [Ho Htag].
    apply negb_true_iff in Ho. rewrite Ho. apply IH. exact Htag.
Qed.

Lemma afterQuotedLiteral_LangTag tag rest t w :
  accepted_LangTag tag = true ->
  afterQuotedLiteral ("@"%char :: raw tag ++ SP :: rest) t w
  = (Done (rest, set_LangTag tag (set_DatatypeIRI rdf_langString t)), w).
Proof.
  intros Htag. unfold afterQuotedLiteral. cbn -[inLangTag raw].
  unfold inLangTag. change (drop 1 ("@"%char :: ?l)) with l.
  pose proof (slice_middle ["@"%char] (raw tag) (SP :: rest)) as Hslice.
  cbn [length app] in Hslice.
  rewrite inLangTag_loop_passes by exact Htag. rewrite Hslice, str_raw. reflexivity.
Qed.

(** The turn of ReadObject that reads the last object of a statement. *)
Lemma ReadObject_turn_ends fuel subject predicate line rest tail t w :
  readObject fuel line
    {| SubjectIRI := subject; PredicateIRI := predicate;
       Object := ""; DatatypeIRI := ""; LangTag := "" |} w = (Done (rest, t), w) ->
  lead rest = "."%char :: tail ->
  ReadObject_turn fuel subject predicate line w
  = (Done terminator, {| rdr := set_pending tail (rdr w); dst := dst w ++ [t] |}).
Proof.
  intros Hread Hlead. unfold ReadObject_turn. cbv zeta.
  rewrite (bind_Done _ _ _ _ _ Hread). cbv beta iota.
  unfold bind at 1. unfold append_dst at 1.
  rewrite (bind_Done _ _ _ _ _ (lineContinue_lead _ _ _ _ Hlead)).
  reflexivity.
Qed.

Lemma ReadPredicate_one_triple fuel subject predicate line line' rest tail t w :
  readPredicate line w = (Done (predicate, line'), w) ->
  readObject fuel line'
    {| SubjectIRI := subject; PredicateIRI := predicate;
       Object := ""; DatatypeIRI := ""; LangTag := "" |} w = (Done (rest, t), w) ->
  lead rest = "."%char :: tail ->
  ReadPredicate (S (S fuel)) subject line w
  = (Done tt, {| rdr := set_pending tail (rdr w); dst := dst w ++ [t] |}).
Proof.
  intros Hpred Hobj Hlead. rewrite ReadPredicate_S.
  rewrite (bind_Done _ _ _ _ _ Hpred). cbv beta iota.
  rewrite ReadObject_S.
  rewrite (bind_Done _ _ w None {| rdr := set_pending tail (rdr w); dst := dst w ++ [t] |});
    [reflexivity|].
  rewrite (bind_Done _ _ _ _ _ (ReadObject_turn_ends _ _ _ _ _ _ _ _ Hobj Hlead)).
  reflexivity.
Qed.

(** One line with [<subject> <predicate> object .] read by a fresh Reader. *)
Lemma one_statement subject predicate object rest tail t l size e fuel :
  absolute_IRI subject = true -> absolute_IRI predicate = true ->
  (forall w, readObject fuel (SP :: object) (blank_triple subject predicate) w
             = (Done (rest, t), w)) ->
  lead rest = "."%char :: tail ->
  "<"%char :: raw subject ++ ">"%char :: SP :: "<"%char :: raw predicate ++ ">"%char :: SP :: object
  = l ++ [LF] ->
  index_LF l = None -> utf8_Valid l = true -> (length l < size)%nat ->
  exists r', ReadAppend (2 + fuel) (Reader_sized (l ++ [LF]) e size) [] = (Done tt, [t], r').
Proof.
  intros Hs Hp Hobj Htail Hline Hnone Hutf Hfit.
  destruct (Reader_line_first l size e []) as (r1 & Hfirst & _ & _); auto.
  { rewrite <- Hline. reflexivity. }
  set (rest1 := SP :: "<"%char :: raw predicate ++ ">"%char :: SP :: object) in *.
  assert (Hsub : readSubject (2 + fuel) {| rdr := Reader_sized (l ++ [LF]) e size; dst := [] |}
                 = (Done (subject, rest1), {| rdr := r1; dst := [] |})).
  { unfold readSubject. rewrite (bind_Done _ _ _ _ _ Hfirst). rewrite <- Hline.
    cbn [Nat.add readSubject_loop].
    erewrite bind_Done by reflexivity.
    change (eqc "<" "@") with false. change (eqc "<" "<") with true. cbv iota.
    apply inIRI_absolute. exact Hs. }
  unfold ReadAppend, ReadAppend_body.
  rewrite (bind_Done _ _ _ _ _ Hsub). cbv beta iota.
  rewrite (ReadPredicate_one_triple fuel subject predicate _ _ rest tail t _
             (readPredicate_IRI predicate _ _ Hp) (Hobj _) Htail).
  eexists. reflexivity.
Qed.

Lemma forallb_weaken (P Q : ascii -> bool) (l : bytes) :
  (forall c, P c = true -> Q c = true) -> forallb P l = true -> forallb Q l = true.
Proof.
  intros HPQ. induction l as [|c l IH]; simpl; [reflexivity|].
  intros Hl. apply andb_true_iff in Hl. destruct Hl as [Hc Hl].
  rewrite (HPQ c Hc), (IH Hl). reflexivity.
Qed.

Lemma iri_byte_notLF c : iri_byte c = true -> notLF c = true.
Proof.
  intros Hc. unfold notLF. destruct (eqc c LF) eqn:E; [|reflexivity].
  apply Ascii.eqb_eq in E. subst c. discriminate Hc.
Qed.

Lemma literal_byte_notLF c : literal_byte c = true -> notLF c = true.
Proof.
  unfold literal_byte, notLF. intros Hc. apply andb_true_iff in Hc. apply Hc.
Qed.

Lemma LangTag_from_notLF tag i offset :
  LangTag_from tag i offset = true -> forallb notLF tag = true.
Proof.
  revert i offset. induction tag as [|c tag IH]; intros i offset; simpl; [reflexivity|].
  assert (Hc : LangTag_from (c :: tag) i offset = true -> notLF c = true).
  { unfold notLF. destruct (eqc c LF) eqn:E; [|reflexivity].
    apply Ascii.eqb_eq in E. subst c. simpl. discriminate. }
  intros Htag. rewrite (Hc Htag). simpl.
  destruct (isLetter c); [eapply IH; exact Htag|].
  destruct (isDigit c); [apply andb_true_iff in Htag; eapply IH; apply Htag|].
  destruct (eqc c "-"); [apply andb_true_iff in Htag; eapply IH; apply Htag | discriminate].
Qed.

Lemma absolute_IRI_notLF s : absolute_IRI s = true -> forallb notLF (raw s) = true.
Proof.
  unfold absolute_IRI. intros Hs. apply andb_true_iff in Hs. destruct Hs as [Hs _].
  exact (forallb_weaken _ _ _ iri_byte_notLF Hs).
Qed.

Lemma raw_cons c (s : string) : raw (String c s) = c :: raw s.
Proof. reflexivity. Qed.

Ltac flatten :=
  repeat first [ rewrite raw_app | rewrite raw_cons | rewrite <- app_assoc
               | rewrite <- app_comm_cons | progress cbn [String.append app raw list_ascii_of_string] ].

Ltac no_LF := repeat first [rewrite forallb_app | progress cbn [forallb]].

(** C9, amended. A well-formed triple whose line is valid UTF-8 and fits
    in the buffer: a fresh Reader reads from [t.String()] and a new-line
    exactly the triple [t], with no error. *)
Theorem Triple_String_round_trip t size e fuel :
  well_formed t = true ->
  utf8_Valid (raw (Triple_String t)) = true ->
  (String.length (Triple_String t) < size)%nat ->
  exists r',
    ReadAppend (2 + fuel) (Reader_sized (raw (Triple_String t +:+ NL)) e size) []
    = (Done tt, [t], r').
Proof.
  intros Hwf Hutf Hfit. rewrite <- length_raw in Hfit. rewrite raw_app.
  change (raw NL) with [LF].
  destruct t as [subject predicate object datatype tag].
  unfold well_formed in Hwf. cbn [SubjectIRI PredicateIRI Object DatatypeIRI LangTag] in Hwf.
  apply andb_true_iff in Hwf. destruct Hwf as [Hsp Hwf].
  apply andb_true_iff in Hsp. destruct Hsp as [Hs Hp].
  unfold Triple_String in *. cbn [SubjectIRI PredicateIRI Object DatatypeIRI LangTag] in *.
  destruct (String.eqb datatype "") eqn:Ed.
  - apply String.eqb_eq in Ed. subst datatype.
    apply andb_true_iff in Hwf. destruct Hwf as [Ho Htag].
    apply String.eqb_eq in Htag. subst tag.
    eapply (one_statement subject predicate
              ("<"%char :: raw object ++ ">"%char :: SP :: "."%char :: [LF])
              (SP :: "."%char :: [LF]) [LF]); try eassumption.
    + intros w. apply readObject_IRI. exact Ho.
    + reflexivity.
    + flatten. reflexivity.
    + apply index_LF_none. flatten. no_LF.
      rewrite (absolute_IRI_notLF _ Hs), (absolute_IRI_notLF _ Hp), (absolute_IRI_notLF _ Ho).
      reflexivity.
  - apply andb_true_iff in Hwf. destruct Hwf as [Hlit Hwf].
    unfold plain_literal in Hlit. apply andb_true_iff in Hlit. destruct Hlit as [Hlit Hq].
    apply String.eqb_eq in Hq. rewrite Hq in *. unfold quoted in *.
    pose proof (forallb_weaken _ _ _ literal_byte_notLF Hlit) as Hno.
    destruct (String.eqb tag "") eqn:Et.
    + apply String.eqb_eq in Et. subst tag.
      eapply (one_statement subject predicate
                (dquote :: raw object ++ dquote :: "^"%char :: "^"%char :: "<"%char
                   :: raw datatype ++ ">"%char :: SP :: "."%char :: [LF])
                (SP :: "."%char :: [LF]) [LF]); try eassumption.
      * intros w. rewrite readObject_quoted by (exact Hlit || reflexivity).
        apply afterQuotedLiteral_datatype. exact Hwf.
      * reflexivity.
      * flatten. reflexivity.
      * apply index_LF_none. flatten. no_LF. rewrite Hno.
        rewrite (absolute_IRI_notLF _ Hs), (absolute_IRI_notLF _ Hp), (absolute_IRI_notLF _ Hwf).
        reflexivity.
    + apply andb_true_iff in Hwf. destruct Hwf as [Hd Htag].
      apply String.eqb_eq in Hd. subst datatype.
      eapply (one_statement subject predicate
                (dquote :: raw object ++ dquote :: "@"%char :: raw tag ++ SP :: "."%char :: [LF])
                ("."%char :: [LF]) [LF]); try eassumption.
      * intros w. rewrite readObject_quoted by (exact Hlit || reflexivity).
        apply afterQuotedLiteral_LangTag. exact Htag.
      * reflexivity.
      * flatten. reflexivity.
      * apply index_LF_none. flatten. no_LF. rewrite Hno.
        rewrite (absolute_IRI_notLF _ Hs), (absolute_IRI_notLF _ Hp).
        rewrite (LangTag_from_notLF _ _ _ Htag). reflexivity.
Qed.

End RoundTrip.

(** The round trip at three well-formed triples, with the example library
    and the default buffer. *)
Lemma Triple_String_round_trip_examples :
  (exists r',
     @ReadAppend exampleLib 2
       (@Reader_sized exampleLib (raw (@Triple_String exampleLib typed_example +:+ NL)) src_EOF 4096)
       [] = (Done tt, [typed_example], r'))
  /\ (exists r',
       @ReadAppend exampleLib 2
         (@Reader_sized exampleLib (raw (@Triple_String exampleLib IRI_example +:+ NL)) src_EOF 4096)
         [] = (Done tt, [IRI_example], r'))
  /\ (exists r',
       @ReadAppend exampleLib 2
         (@Reader_sized exampleLib (raw (@Triple_String exampleLib tagged_example +:+ NL)) src_EOF 4096)
         [] = (Done tt, [tagged_example], r')).
Proof.
  repeat split;
    (apply (@Triple_String_round_trip exampleLib _ 4096 src_EOF 0);
     [vm_compute; reflexivity | vm_compute; reflexivity | apply Nat.ltb_lt; vm_compute; reflexivity]).
Defined.

(** C9 as stated fails. A triple whose subject holds a space is rendered
    as a line no library makes the Reader read back: inIRI stops at the
    space with a syntax error and nothing is appended. With the example
    library, a subject without scheme is refused for want of a base IRI. *)
Lemma Triple_String_round_trip_fails :
  ~ (exists (U : GoLib) (fuel : nat),
       returned_dst
         (@ReadAppend U fuel (@Reader_over U (@Triple_String U spaced_example +:+ NL)) [])
       = [spaced_example])
  /\ fst (@ReadAppend exampleLib 2
            (@Reader_over exampleLib (@Triple_String exampleLib relative_example +:+ NL)) [])
     = (Fail (SyntaxError 1 "relative reference without base IRI"), []).
Proof.
  split; [|vm_compute; reflexivity].
  intros (U & fuel & Hr). destruct fuel as [|fuel]; vm_compute in Hr; discriminate Hr.
Qed.

(** * Further properties of the Reader *)

Section Lines.
Context `{GoLib}.

Lemma lead_cases line :
  exists skipped, forallb blank skipped = true /\
    match lead line with
    | [] => line = skipped \/ exists c rest, line = skipped ++ c :: rest /\ ends_line c = true
    | c :: rest => line = skipped ++ c :: rest /\ blank c = false /\ ends_line c = false
    end.
Proof.
  induction line as [|c line (skipped & Hs & IH)].
  - exists []. split; [reflexivity | left; reflexivity].
  - cbn [lead]. fold (blank c). destruct (blank c) eqn:Eb.
    + exists (c :: skipped). split; [simpl; rewrite Eb; exact Hs|].
      destruct (lead line) as [|d rest].
      * destruct IH as [-> | (d & rest & -> & Hd)]; [left; reflexivity|].
        right. exists d, rest. split; [reflexivity | exact Hd].
      * destruct IH as (-> & Hd). split; [reflexivity | exact Hd].
    + fold (ends_line c). destruct (ends_line c) eqn:Ee.
      * exists []. split; [reflexivity|]. right. exists c, line. split; [reflexivity | exact Ee].
      * exists []. split; [reflexivity|]. split; [reflexivity|]. split; assumption.
Qed.

Lemma lead_head line c rest :
  lead line = c :: rest -> blank c = false /\ ends_line c = false.
Proof.
  intros Hl. destruct (lead_cases line) as (skipped & _ & Hc). rewrite Hl in Hc. apply Hc.
Qed.

Lemma lead_keeps c rest :
  blank c = false -> ends_line c = false -> lead (c :: rest) = c :: rest.
Proof. intros Hb He. cbn [lead]. fold (blank c) (ends_line c). rewrite Hb, He. reflexivity. Qed.

Lemma lead_idempotent line : lead (lead line) = lead line.
Proof.
  destruct (lead line) as [|c rest] eqn:E; [reflexivity|].
  destruct (lead_head _ _ _ E). apply lead_keeps; assumption.
Qed.

Lemma nonempty_cons (line : bytes) : nonempty line = true -> exists c rest, line = c :: rest.
Proof. destruct line as [|c rest]; [discriminate | eauto]. Qed.

Lemma line_loop_Done fuel line0 w line w' :
  line_loop fuel line0 w = (Done line, w') ->
  exists c rest, line = c :: rest /\ blank c = false /\ ends_line c = false.
Proof.
  revert line0 w. induction fuel as [|fuel IH]; intros line0 w; simpl.
  - destruct (nonempty (lead line0)) eqn:En; [|discriminate].
    intros [= <- <-]. destruct (nonempty_cons _ En) as (c & rest & E).
    exists c, rest. split; [exact E | eapply lead_head; exact E].
  - destruct (nonempty (lead line0)) eqn:En.
    { intros [= <- <-]. destruct (nonempty_cons _ En) as (c & rest & E).
      exists c, rest. split; [exact E | eapply lead_head; exact E]. }
    unfold bind, get, modify, syntaxErr, fail; simpl.
    destruct (ReadSlice (R (rdr w))) as [[l err] b]; simpl.
    destruct (is_nil err || errors_Is_EOF err && nonempty l); simpl.
    + destruct (negb (utf8_Valid l)); simpl; [discriminate|]. apply IH.
    + destruct err as [[|e]|]; discriminate.
Qed.

Lemma Reader_line_Done w line w' :
  Reader_line w = (Done line, w') ->
  exists c rest, line = c :: rest /\ blank c = false /\ ends_line c = false.
Proof. unfold Reader_line, bind, get. apply line_loop_Done. Qed.

Lemma lineContinue_Done remainder w line w' :
  lineContinue remainder w = (Done line, w') ->
  exists c rest, line = c :: rest /\ blank c = false /\ ends_line c = false.
Proof.
  unfold lineContinue. destruct (nonempty (lead remainder)) eqn:En.
  - intros [= <- <-]. destruct (nonempty_cons _ En) as (c & rest & E).
    exists c, rest. split; [exact E | eapply lead_head; exact E].
  - destruct (Reader_line w) as [[l|e|msg|] w1] eqn:El; try discriminate.
    + intros [= <- <-]. eapply Reader_line_Done. exact El.
    + destruct e; discriminate.
Qed.

(** X1. [lead] returns the line from its first byte that is neither a
    space, a tab nor a carriage return, and nothing when that byte is a
    number sign or a new-line, or when there is no such byte. *)
Theorem lead_skips_blanks_and_comments line :
  exists skipped, forallb blank skipped = true /\
    match lead line with
    | [] => line = skipped \/ exists c rest, line = skipped ++ c :: rest /\ ends_line c = true
    | c :: rest => line = skipped ++ c :: rest /\ blank c = false /\ ends_line c = false
    end.
Proof. exact (lead_cases line). Qed.

(** X2. A line that [line] or lineContinue returns has a first byte,
    and it is neither a blank nor the start of a comment nor a new-line:
    the callers' [line[0]] is in range. *)
Theorem line_starts_with_a_significant_byte w line w' remainder :
  Reader_line w = (Done line, w') \/ lineContinue remainder w = (Done line, w') ->
  exists c rest, line = c :: rest /\ blank c = false /\ ends_line c = false.
Proof.
  intros [Hline | Hline]; [eapply Reader_line_Done | eapply lineContinue_Done]; exact Hline.
Qed.

End Lines.

Section Terms.
Context `{GoLib}.

Lemma inIRI_loop_skips s line rest i w :
  forallb iri_byte s = true ->
  inIRI_loop line (s ++ rest) i w = inIRI_loop line rest (i + length s) w.
Proof.
  revert i. induction s as [|c s IH]; intros i Hs.
  - cbn [app length]. rewrite Nat.add_0_r. reflexivity.
  - simpl in Hs. apply andb_true_iff in Hs. destruct Hs as [Hc Hs].
    unfold iri_byte in Hc. rewrite !andb_true_iff, !negb_true_iff in Hc.
    destruct Hc as [[[H1 H2] H3] H4].
    cbn [app inIRI_loop]. rewrite H1, H2, H3, H4.
    replace (i + length (c :: s))%nat with (S i + length s)%nat by (simpl; lia).
    apply IH. exact Hs.
Qed.

Lemma slice_1 (s rest : bytes) c : slice (c :: s ++ rest) 1 (1 + length s) = s.
Proof. exact (slice_middle [c] s rest). Qed.

(** X3. inIRI on a reference between angle brackets whose bytes it
    passes over: an absolute reference is returned as written, one
    without scheme is resolved against the base IRI or refused when there
    is none, and an error of url.Parse is returned as it is. *)
Theorem inIRI_reads_a_reference s rest w :
  forallb iri_byte (raw s) = true ->
  inIRI ("<"%char :: raw s ++ ">"%char :: rest) w =
  match url_Parse s with
  | inl l =>
      if String.eqb (URL_Scheme l) "" then
        match BaseIRI (rdr w) with
        | None => syntaxErr "relative reference without base IRI" w
        | Some base => (Done (URL_String (URL_ResolveReference base l), rest), w)
        end
      else (Done (s, rest), w)
  | inr msg => (Fail (url_Error msg), w)
  end.
Proof.
  intros Hs. unfold inIRI. cbn [drop].
  change (drop 0 ?l) with l.
  rewrite inIRI_loop_skips by exact Hs. cbn [inIRI_loop].
  change (eqc ">" ">") with true. cbv iota.
  rewrite slice_1, str_raw.
  destruct (url_Parse s) as [l|msg]; [|reflexivity].
  destruct (String.eqb (URL_Scheme l) ""); [|reflexivity].
  unfold bind, get. destruct (BaseIRI (rdr w)); reflexivity.
Qed.

(** X4. inIRI stops at the first byte it does not pass over:
    a syntax error for an opening angle bracket, a double quote, a brace,
    a bar, a caret or a backquote and for a byte up to 0x20,
    a panic for a backslash, io.ErrUnexpectedEOF when the line ends before
    the closing bracket. *)
Theorem inIRI_refuses pre c rest w :
  forallb iri_byte pre = true -> iri_byte c = false -> eqc c ">" = false ->
  inIRI ("<"%char :: pre ++ c :: rest) w =
    (if illegal_in_IRI c
     then syntaxErr "illegal character in IRI reference" w
     else if eqc c backslash then (Panic "TODO: Unicode escape", w)
     else syntaxErr "control character in IRI reference" w)
  /\ inIRI ("<"%char :: pre) w = (Fail (io_ErrUnexpectedEOF "URI reference interupted"), w).
Proof.
  intros Hpre Hc Hgt. unfold inIRI. cbn [drop]. change (drop 0 ?l) with l. split.
  - rewrite inIRI_loop_skips by exact Hpre. cbn [inIRI_loop]. rewrite Hgt.
    fold (illegal_in_IRI c). unfold iri_byte in Hc. rewrite Hgt in Hc.
    fold (illegal_in_IRI c) in Hc.
    destruct (illegal_in_IRI c); [reflexivity|].
    destruct (eqc c backslash); [reflexivity|].
    simpl in Hc. apply negb_false_iff in Hc. rewrite Hc. reflexivity.
  - rewrite <- (app_nil_r pre). rewrite inIRI_loop_skips by exact Hpre. reflexivity.
Qed.

(** *** Prefixed names *)

Lemma name_byte_scans c : name_byte c = true -> isWS c = false /\ eqc c ":" = false.
Proof.
  unfold name_byte. rewrite !andb_true_iff, !negb_true_iff. tauto.
Qed.

Lemma ReadToken_label label line c1 more i :
  forallb name_byte label = true ->
  ReadToken None line (label ++ ":"%char :: c1 :: more) i
  = ReadToken (Some (take (i + length label) line)) (c1 :: more) more 1.
Proof.
  revert i. induction label as [|c label IH]; intros i Hl.
  - cbn [app length ReadToken]. rewrite Nat.add_0_r.
    change (isWS ":") with false. change (eqc ":" ":") with true. reflexivity.
  - simpl in Hl. apply andb_true_iff in Hl. destruct Hl as [Hc Hl].
    destruct (name_byte_scans _ Hc) as [Hw Hcolon].
    cbn [app ReadToken]. rewrite Hw, Hcolon.
    replace (i + length (c :: label))%nat with (S i + length label)%nat by (simpl; lia).
    apply IH. exact Hl.
Qed.

Lemma ReadToken_local lab tail line ws rest i :
  forallb not_WS tail = true -> isWS ws = true ->
  ReadToken (Some lab) line (tail ++ ws :: rest) i = Some (Some lab, line, (i + length tail)%nat).
Proof.
  revert i. induction tail as [|c tail IH]; intros i Ht Hws.
  - cbn [app length ReadToken]. rewrite Hws, Nat.add_0_r. reflexivity.
  - simpl in Ht. apply andb_true_iff in Ht. destruct Ht as [Hc Ht].
    apply negb_true_iff in Hc. cbn [app ReadToken]. rewrite Hc.
    replace (i + length (c :: tail))%nat with (S i + length tail)%nat by (simpl; lia).
    destruct (eqc c ":"); apply IH; assumption.
Qed.

(** The scan of a prefixed name: the label up to the first colon, then the
    local part up to the first white space, whose first byte is not looked at. *)
Lemma ReadToken_prefixed label c1 tail ws rest :
  forallb name_byte label = true -> forallb not_WS tail = true -> isWS ws = true ->
  let line := label ++ ":"%char :: c1 :: tail ++ ws :: rest in
  ReadToken None line line 0
  = Some (Some label, c1 :: tail ++ ws :: rest, S (length tail)).
Proof.
  intros Hl Ht Hws line. unfold line.
  rewrite ReadToken_label by exact Hl. cbn [Nat.add].
  rewrite take_app_length. rewrite ReadToken_local by assumption. reflexivity.
Qed.

Lemma take_local c1 (tail : bytes) ws rest :
  take (S (length tail)) (c1 :: tail ++ ws :: rest) = c1 :: tail.
Proof. cbn [take]. f_equal. apply take_app_length. Qed.

Lemma drop_local c1 (tail : bytes) ws rest :
  drop (S (S (length tail))) (c1 :: tail ++ ws :: rest) = rest.
Proof.
  cbn [drop]. change (ws :: rest) with ([ws] ++ rest). rewrite app_assoc.
  replace (S (length tail)) with (length (tail ++ [ws])) by (rewrite length_app; simpl; lia).
  apply drop_app_length.
Qed.

Lemma lead_name label more :
  forallb name_byte label = true -> lead (label ++ ":"%char :: more) = label ++ ":"%char :: more.
Proof.
  destruct label as [|c label]; [reflexivity|]. intros Hl. simpl in Hl.
  apply andb_true_iff in Hl. destruct Hl as [Hc _].
  unfold name_byte, isWS in Hc. rewrite !andb_true_iff, !negb_true_iff, !orb_false_iff in Hc.
  destruct Hc as [[[[[[H1 H2] H3] H4] _] H5] _].
  cbn [app lead]. rewrite H1, H2, H3, H4, H5. reflexivity.
Qed.

Lemma name_not_IRI label more c rest :
  forallb name_byte label = true -> label ++ ":"%char :: more = c :: rest -> eqc c "<" = false.
Proof.
  destruct label as [|d label]; cbn [app]; intros Hl [= <- _]; [reflexivity|].
  simpl in Hl. apply andb_true_iff in Hl. destruct Hl as [Hc _].
  unfold name_byte in Hc. rewrite !andb_true_iff, !negb_true_iff in Hc. apply Hc.
Qed.

Lemma prefixed_name label c1 tail ws rest t w :
  forallb name_byte label = true -> forallb not_WS tail = true -> isWS ws = true ->
  let name := label ++ ":"%char :: c1 :: tail ++ ws :: rest in
  let found := prefixPerLabel (rdr w) !! str label in
  inUndeterminedSubject name w
  = match found with
    | Some prefix => (Done (prefix +:+ str (c1 :: tail), rest), w)
    | None => syntaxErr "undefined prefix on subject node" w
    end
  /\ readPredicate name w
     = match found with
       | Some prefix => (Done (prefix +:+ str (c1 :: tail), rest), w)
       | None => syntaxErr "undefined prefix on predicate" w
       end
  /\ inUndeterminedObject name t w
     = match found with
       | Some prefix => (Done (rest, set_Object (prefix +:+ str (c1 :: tail)) t), w)
       | None => syntaxErr "undefined prefix on object node" w
       end.
Proof.
  intros Hl Ht Hws name found.
  pose proof (ReadToken_prefixed label c1 tail ws rest Hl Ht Hws) as Htoken.
  cbv zeta in Htoken. fold name in Htoken.
  split; [|split].
  - unfold inUndeterminedSubject. rewrite Htoken. cbv zeta beta iota.
    rewrite take_local, drop_local. unfold bind, get. fold found.
    destruct found; reflexivity.
  - unfold readPredicate.
    assert (Hlead : lead name = name) by (apply lead_name; exact Hl).
    destruct name as [|c line] eqn:En; [destruct label; discriminate En|].
    rewrite (bind_Done _ _ _ _ _ (lineContinue_lead _ _ _ w Hlead)).
    cbn [first_byte]. erewrite bind_Done by reflexivity.
    rewrite (name_not_IRI label _ c line Hl En). rewrite Htoken. cbv beta iota.
    rewrite take_local, drop_local. unfold bind, get. fold found.
    destruct found; reflexivity.
  - unfold inUndeterminedObject. rewrite Htoken. cbv beta iota.
    rewrite take_local, drop_local. unfold bind, get. fold found.
    destruct found; reflexivity.
Qed.

(** X5. A prefixed name in subject, predicate or object position is
    the IRI of its label followed by its local part, and a syntax error
    when the label has no prefix. The local part runs to the first white
    space; its first byte is taken without being looked at. *)
Theorem prefixed_name_expands label c1 tail ws rest t w :
  forallb name_byte label = true -> forallb not_WS tail = true -> isWS ws = true ->
  let name := label ++ ":"%char :: c1 :: tail ++ ws :: rest in
  let found := prefixPerLabel (rdr w) !! str label in
  inUndeterminedSubject name w
  = match found with
    | Some prefix => (Done (prefix +:+ str (c1 :: tail), rest), w)
    | None => syntaxErr "undefined prefix on subject node" w
    end
  /\ readPredicate name w
     = match found with
       | Some prefix => (Done (prefix +:+ str (c1 :: tail), rest), w)
       | None => syntaxErr "undefined prefix on predicate" w
       end
  /\ inUndeterminedObject name t w
     = match found with
       | Some prefix => (Done (rest, set_Object (prefix +:+ str (c1 :: tail)) t), w)
       | None => syntaxErr "undefined prefix on object node" w
       end.
Proof. apply prefixed_name. Qed.

End Terms.

Section Directives.
Context `{GoLib}.

Lemma ReadLabel_finds label line more i w :
  forallb name_byte label = true ->
  ReadLabel line (label ++ ":"%char :: more) i w
  = (Done (str (take (i + length label) line), more), w).
Proof.
  revert i. induction label as [|c label IH]; intros i Hl.
  - cbn [app length ReadLabel]. rewrite Nat.add_0_r.
    change (eqc ":" ":") with true. reflexivity.
  - simpl in Hl. apply andb_true_iff in Hl. destruct Hl as [Hc Hl].
    destruct (name_byte_scans _ Hc) as [Hw Hcolon].
    cbn [app ReadLabel]. rewrite Hw, Hcolon.
    replace (i + length (c :: label))%nat with (S i + length label)%nat by (simpl; lia).
    apply IH. exact Hl.
Qed.

Lemma afterPrefixDirective_returns label iri rest tail w :
  forallb name_byte label = true -> absolute_IRI iri = true ->
  let line := SP :: label ++ ":"%char :: SP :: "<"%char :: raw iri ++ ">"%char :: rest in
  afterPrefixDirective line false w = (Done rest, with_prefix (str label) iri w)
  /\ (lead rest = "."%char :: tail ->
      afterPrefixDirective line true w = (Done tail, with_prefix (str label) iri w)).
Proof.
  intros Hl Hiri line.
  assert (Hlead : lead line = label ++ ":"%char :: SP :: "<"%char :: raw iri ++ ">"%char :: rest).
  { unfold line. cbn [lead]. change (eqc SP SP) with true. cbn [orb]. apply lead_name. exact Hl. }
  assert (Hstart : forall terminated,
    afterPrefixDirective line terminated w
    = (if terminated then
         let* line := lineContinue rest in
         let* c := first_byte line in
         if negb (eqc c ".")
         then syntaxErr ("prefix directive is not terminated with " +:+ quoted ".")
         else ret (drop 1 line)
       else ret rest) (with_prefix (str label) iri w)).
  { intros terminated. unfold afterPrefixDirective.
    destruct (label ++ ":"%char :: SP :: "<"%char :: raw iri ++ ">"%char :: rest)
      as [|c0 l0] eqn:El; [destruct label; discriminate El|].
    rewrite (bind_Done _ _ _ _ _ (lineContinue_lead _ _ _ w Hlead)).
    rewrite <- El.
    rewrite (bind_Done _ _ _ _ _ (ReadLabel_finds label _ _ 0 w Hl)).
    cbn [Nat.add]. rewrite take_app_length. cbv beta iota.
    erewrite bind_Done by reflexivity.
    erewrite bind_Done by reflexivity.
    change (negb (eqc "<" "<")) with false. cbv iota.
    rewrite (bind_Done _ _ _ _ _ (inIRI_absolute iri rest w Hiri)). cbv beta iota.
    unfold bind at 1. unfold modify at 1. reflexivity. }
  split.
  - rewrite Hstart. reflexivity.
  - intros Htail. rewrite Hstart.
    rewrite (bind_Done _ _ _ _ _ (lineContinue_lead _ _ _ _ Htail)).
    reflexivity.
Qed.

(** X6. After its keyword a prefix directive binds the label
    to the IRI in the prefix map of the Reader, replacing what the label
    had, and returns what follows the IRI, or what follows the dot when the
    directive is the one of Turtle. *)
Theorem afterPrefixDirective_registers label iri rest tail w :
  forallb name_byte label = true -> absolute_IRI iri = true ->
  let line := SP :: label ++ ":"%char :: SP :: "<"%char :: raw iri ++ ">"%char :: rest in
  afterPrefixDirective line false w = (Done rest, with_prefix (str label) iri w)
  /\ (lead rest = "."%char :: tail ->
      afterPrefixDirective line true w = (Done tail, with_prefix (str label) iri w)).
Proof. apply afterPrefixDirective_returns. Qed.

(** X7. After its keyword a base directive with an absolute
    IRI makes the parsed IRI the base of the Reader and returns what
    follows it, or what follows the dot in the form of Turtle. *)
Theorem afterBaseDirective_sets_the_base iri rest tail w :
  absolute_IRI iri = true ->
  let line := SP :: "<"%char :: raw iri ++ ">"%char :: rest in
  exists u, url_Parse iri = inl u
    /\ afterBaseDirective line false w = (Done rest, with_base (Some u) w)
    /\ (lead rest = "."%char :: tail ->
        afterBaseDirective line true w = (Done tail, with_base (Some u) w)).
Proof.
  intros Hiri line.
  assert (Hu : exists u, url_Parse iri = inl u).
  { unfold absolute_IRI in Hiri. apply andb_true_iff in Hiri. destruct Hiri as [_ Hu].
    destruct (url_Parse iri) as [u|]; [eauto | discriminate]. }
  destruct Hu as [u Hu]. exists u. split; [exact Hu|].
  assert (Hstart : forall terminated,
    afterBaseDirective line terminated w
    = (if terminated then
         let* line := lineContinue rest in
         let* c := first_byte line in
         if negb (eqc c ".")
         then syntaxErr ("base directive not terminated with " +:+ quoted ".")
         else ret (drop 1 line)
       else ret rest) (with_base (Some u) w)).
  { intros terminated. unfold afterBaseDirective, line.
    erewrite bind_Done by reflexivity.
    erewrite bind_Done by reflexivity.
    change (negb (eqc "<" "<")) with false. cbv iota.
    rewrite (bind_Done _ _ _ _ _ (inIRI_absolute iri rest w Hiri)). cbv beta iota.
    rewrite Hu. unfold bind at 1. unfold modify at 1. reflexivity. }
  split.
  - rewrite Hstart. reflexivity.
  - intros Htail. rewrite Hstart.
    rewrite (bind_Done _ _ _ _ _ (lineContinue_lead _ _ _ _ Htail)).
    reflexivity.
Qed.

End Directives.

Section Skolem.
Context `{GoLib}.

Lemma skolemIRIRoot_returns w : skolemIRIRoot w = (Done (session_root w), rooted w).
Proof.
  unfold skolemIRIRoot, session_root, rooted, bind, get.
  destruct (String.eqb (skolemIRICache (rdr w)) ""); reflexivity.
Qed.

Lemma session_root_rooted w : session_root (rooted w) = session_root w.
Proof.
  unfold session_root, rooted.
  destruct (String.eqb (skolemIRICache (rdr w)) "") eqn:E; [reflexivity|].
  rewrite E. reflexivity.
Qed.

Lemma session_root_cached w : skolemIRICache (rdr (rooted w)) = session_root w.
Proof.
  unfold session_root, rooted.
  destruct (String.eqb (skolemIRICache (rdr w)) "") eqn:E; reflexivity.
Qed.

Lemma inBlankLabel_loop_finds label line ws rest i w :
  forallb not_WS label = true -> isWS ws = true ->
  inBlankLabel_loop line (label ++ ws :: rest) i w
  = (Done (session_root w +:+ "blank#" +:+ str (slice line 2 (i + length label)), rest), rooted w).
Proof.
  revert i. induction label as [|c label IH]; intros i Hl Hws.
  - cbn [app length inBlankLabel_loop]. rewrite Hws, Nat.add_0_r.
    rewrite (bind_Done _ _ _ _ _ (skolemIRIRoot_returns w)). reflexivity.
  - simpl in Hl. apply andb_true_iff in Hl. destruct Hl as [Hc Hl].
    apply negb_true_iff in Hc. cbn [app inBlankLabel_loop]. rewrite Hc.
    replace (i + length (c :: label))%nat with (S i + length label)%nat by (simpl; lia).
    apply IH; assumption.
Qed.

Lemma inBlankLabel_returns label ws rest w :
  forallb not_WS label = true -> isWS ws = true ->
  inBlankLabel ("_"%char :: ":"%char :: label ++ ws :: rest) w
  = (Done (session_root w +:+ "blank#" +:+ str label, rest), rooted w).
Proof.
  intros Hl Hws. unfold inBlankLabel. change (negb (eqc ":" ":")) with false. cbv iota.
  rewrite inBlankLabel_loop_finds by assumption.
  pose proof (slice_middle ["_"%char; ":"%char] label (ws :: rest)) as Hslice.
  cbn [length app] in Hslice. rewrite Hslice. reflexivity.
Qed.

Lemma append_cancel (a b c : string) : a +:+ b = a +:+ c -> b = c.
Proof. induction a as [|x a IH]; simpl; [auto|]. intros [= E]. auto. Qed.

Lemma str_inj (a b : bytes) : str a = str b -> a = b.
Proof.
  intros E. rewrite <- (list_ascii_of_string_of_list_ascii a),
    <- (list_ascii_of_string_of_list_ascii b). unfold str in E. rewrite E. reflexivity.
Qed.

(** X8. A blank node label is read as the IRI made of the skolem root of
    the session, [blank#] and the label up to the first white space. The
    root is minted at the first blank node and kept in the Reader: a
    label read again gives the same IRI, and two labels give the same IRI
    only when they are the same. *)
Theorem blank_labels_are_skolemized l1 l2 ws1 ws2 rest1 rest2 w :
  forallb not_WS l1 = true -> forallb not_WS l2 = true ->
  isWS ws1 = true -> isWS ws2 = true ->
  let IRI label := session_root w +:+ "blank#" +:+ str label in
  inBlankLabel ("_"%char :: ":"%char :: l1 ++ ws1 :: rest1) w = (Done (IRI l1, rest1), rooted w)
  /\ inBlankLabel ("_"%char :: ":"%char :: l2 ++ ws2 :: rest2) (rooted w)
     = (Done (IRI l2, rest2), rooted w)
  /\ skolemIRICache (rdr (rooted w)) = session_root w
  /\ (IRI l1 = IRI l2 <-> l1 = l2).
Proof.
  intros H1 H2 Hw1 Hw2 IRI. split; [|split; [|split]].
  - apply inBlankLabel_returns; assumption.
  - rewrite inBlankLabel_returns by assumption. unfold IRI.
    rewrite session_root_rooted.
    unfold rooted at 1. rewrite session_root_cached.
    unfold session_root.
    destruct (String.eqb (skolemIRICache (rdr w)) "") eqn:E; [reflexivity|].
    rewrite E. reflexivity.
  - apply session_root_cached.
  - unfold IRI. split; [|intros ->; reflexivity].
    intros E. apply append_cancel in E. apply (append_cancel "blank#") in E.
    apply str_inj. exact E.
Qed.

(** *** Anonymous nodes *)

Lemma inAnonymous_scan_closed blanks rest :
  forallb isWS blanks = true -> inAnonymous_scan (blanks ++ "]"%char :: rest) = closed rest.
Proof.
  induction blanks as [|c blanks IH]; intros Hb; [reflexivity|].
  simpl in Hb. apply andb_true_iff in Hb. destruct Hb as [Hc Hb].
  cbn [app inAnonymous_scan]. rewrite Hc. apply IH. exact Hb.
Qed.

Lemma inAnonymous_scan_property_list blanks c rest :
  forallb isWS blanks = true -> isWS c = false -> eqc c "]" = false ->
  inAnonymous_scan (blanks ++ c :: rest) = property_list.
Proof.
  induction blanks as [|d blanks IH]; intros Hb Hc Hc'.
  - cbn [app inAnonymous_scan]. rewrite Hc, Hc'. reflexivity.
  - simpl in Hb. apply andb_true_iff in Hb. destruct Hb as [Hd Hb].
    cbn [app inAnonymous_scan]. rewrite Hd. apply IH; assumption.
Qed.

Lemma incr_moves x : incr x <> x.
Proof.
  unfold incr, int_wrap. intros E.
  pose proof (Z.mod_pos_bound (x + 1 + 2 ^ 63) (2 ^ 64) ltac:(lia)) as Hb.
  assert (Hy : (x + 1 + 2 ^ 63) mod 2 ^ 64 = x + 2 ^ 63) by lia.
  pose proof (Z.div_mod (x + 1 + 2 ^ 63) (2 ^ 64) ltac:(lia)) as Hd.
  rewrite Hy in Hd. lia.
Qed.

Lemma dec_inj x y : dec x = dec y -> x = y.
Proof.
  unfold dec. intros E. apply DecimalZ.to_int_inj.
  assert (Hok : forall z, Z.to_int z <> Decimal.Pos Decimal.Nil
                          /\ Z.to_int z <> Decimal.Neg Decimal.Nil).
  { intros [|p|p]; simpl; split; try discriminate;
      intros [= E']; exact (DecimalPos.Unsigned.to_uint_nonnil p E'). }
  pose proof (DecimalString.NilZero.isi (Z.to_int x) (proj1 (Hok x)) (proj2 (Hok x))) as Ex.
  pose proof (DecimalString.NilZero.isi (Z.to_int y) (proj1 (Hok y)) (proj2 (Hok y))) as Ey.
  rewrite E in Ex. rewrite Ex in Ey. injection Ey as Ey. exact Ey.
Qed.

Lemma inAnonymous_closed fuel blanks rest w :
  forallb isWS blanks = true ->
  inAnonymous (S fuel) ("["%char :: blanks ++ "]"%char :: rest) w
  = (Done (session_root w +:+ "anon#" +:+ dec (incr (anonNodeNo (rdr w))), rest),
     rooted (counted w)).
Proof.
  intros Hb. unfold inAnonymous.
  unfold bind at 1. unfold modify at 1. fold (counted w).
  rewrite (bind_Done _ _ _ _ _ (skolemIRIRoot_returns (counted w))).
  unfold bind at 1. unfold get at 1.
  cbn [inAnonymous_loop drop]. change (drop 0 ?l) with l.
  rewrite inAnonymous_scan_closed by exact Hb.
  unfold ret. f_equal. f_equal.
  unfold session_root, rooted, counted. cbn [rdr set_anonNodeNo skolemIRICache].
  destruct (String.eqb (skolemIRICache (rdr w)) ""); reflexivity.
Qed.

(** X9. An anonymous node with nothing but white space between its
    brackets is read as the skolem root of the session followed by
    [anon#] and the count of anonymous nodes, which the call raises by
    one: two anonymous nodes in a row get different IRIs, and neither is
    the IRI of a blank node label. *)
Theorem anonymous_nodes_are_numbered fuel b1 b2 rest1 rest2 label w :
  forallb isWS b1 = true -> forallb isWS b2 = true ->
  exists i1 i2 w1 w2,
    inAnonymous (S fuel) ("["%char :: b1 ++ "]"%char :: rest1) w = (Done (i1, rest1), w1)
    /\ inAnonymous (S fuel) ("["%char :: b2 ++ "]"%char :: rest2) w1 = (Done (i2, rest2), w2)
    /\ i1 = session_root w +:+ "anon#" +:+ dec (incr (anonNodeNo (rdr w)))
    /\ i2 = session_root w +:+ "anon#" +:+ dec (incr (incr (anonNodeNo (rdr w))))
    /\ i1 <> i2
    /\ i1 <> session_root w +:+ "blank#" +:+ label.
Proof.
  intros H1 H2. do 4 eexists.
  split; [apply inAnonymous_closed; exact H1|].
  split; [apply inAnonymous_closed; exact H2|].
  assert (Hroot : session_root (rooted (counted w)) = session_root w).
  { rewrite session_root_rooted. reflexivity. }
  assert (Hno : anonNodeNo (rdr (rooted (counted w))) = incr (anonNodeNo (rdr w))).
  { unfold rooted, counted. cbn [rdr set_anonNodeNo skolemIRICache].
    destruct (String.eqb (skolemIRICache (rdr w)) ""); reflexivity. }
  rewrite Hroot, Hno.
  split; [reflexivity|]. split; [reflexivity|]. split.
  - intros E. apply append_cancel in E. apply (append_cancel "anon#") in E.
    apply dec_inj in E. symmetry in E. exact (incr_moves _ E).
  - intros E. apply append_cancel in E. discriminate E.
Qed.

(** X10. An anonymous node that holds a byte other than white space
    before its closing bracket, a predicate-object list, makes inAnonymous
    panic. *)
Theorem inAnonymous_panics_on_a_property_list fuel blanks c rest w :
  forallb isWS blanks = true -> isWS c = false -> eqc c "]" = false ->
  fst (inAnonymous (S fuel) ("["%char :: blanks ++ c :: rest) w)
  = Panic "TODO: anonymous predicate-object list not implemented yet".
Proof.
  intros Hb Hc Hc'. unfold inAnonymous.
  unfold bind at 1. unfold modify at 1.
  rewrite (bind_Done _ _ _ _ _ (skolemIRIRoot_returns _)).
  unfold bind at 1. unfold get at 1.
  cbn [inAnonymous_loop drop]. change (drop 0 ?l) with l.
  rewrite inAnonymous_scan_property_list by assumption.
  reflexivity.
Qed.

End Skolem.

Section Numbers.
Context `{GoLib}.

Ltac by_byte c := destruct c as [[] [] [] [] [] [] [] []]; vm_compute; intuition discriminate.

Lemma digit_class c :
  isDigit c = true ->
  isWS c = false /\ eqc c "." = false /\ eqc c "E" = false /\ eqc c "e" = false
  /\ eqc c "+" = false /\ eqc c "-" = false.
Proof. by_byte c. Qed.

Lemma WS_class c :
  isWS c = true ->
  isDigit c = false /\ eqc c "." = false /\ eqc c "E" = false /\ eqc c "e" = false.
Proof. by_byte c. Qed.

Lemma lead_digit c rest : isDigit c = true -> lead (SP :: c :: rest) = c :: rest.
Proof.
  intros Hd. change (lead (SP :: c :: rest)) with (lead (c :: rest)).
  apply lead_keeps; revert Hd; by_byte c.
Qed.

Lemma inNumber_fraction_digits digits line rest i t w :
  forallb isDigit digits = true ->
  inNumber_fraction line (digits ++ rest) i t w
  = inNumber_fraction line rest (i + length digits) t w.
Proof.
  revert i. induction digits as [|c digits IH]; intros i Hd.
  - cbn [app length]. rewrite Nat.add_0_r. reflexivity.
  - simpl in Hd. apply andb_true_iff in Hd. destruct Hd as [Hc Hd].
    cbn [app inNumber_fraction]. rewrite Hc.
    replace (i + length (c :: digits))%nat with (S i + length digits)%nat by (simpl; lia).
    apply IH. exact Hd.
Qed.

Lemma inNumber_exponent_digits digits line rest i offset t w :
  forallb isDigit digits = true ->
  inNumber_exponent line (digits ++ rest) i offset t w
  = inNumber_exponent line rest (i + length digits) offset t w.
Proof.
  revert i. induction digits as [|c digits IH]; intros i Hd.
  - cbn [app length]. rewrite Nat.add_0_r. reflexivity.
  - simpl in Hd. apply andb_true_iff in Hd. destruct Hd as [Hc Hd].
    cbn [app inNumber_exponent]. rewrite Hc.
    replace (i + length (c :: digits))%nat with (S i + length digits)%nat by (simpl; lia).
    apply IH. exact Hd.
Qed.

Lemma last_digit (digits : bytes) (a : bytes) rest :
  forallb isDigit digits = true -> digits <> [] ->
  exists p, (a ++ digits ++ rest) !! (length a + length digits - 1)%nat = Some p
            /\ eqc p "." = false.
Proof.
  intros Hd Hne.
  destruct (exists_last Hne) as (front & p & ->).
  exists p. split.
  - rewrite length_app. cbn [length].
    replace (length a + (length front + 1) - 1)%nat with (length (a ++ front))
      by (rewrite length_app; lia).
    rewrite <- (app_assoc front), app_assoc.
    rewrite lookup_app_r by lia. rewrite Nat.sub_diag. reflexivity.
  - rewrite forallb_app in Hd. apply andb_true_iff in Hd. destruct Hd as [_ Hp].
    simpl in Hp. rewrite andb_true_r in Hp. apply digit_class in Hp. apply Hp.
Qed.

Lemma inNumber_decimals_stops fuel line i c w :
  line !! i = Some c -> isDigit c = false -> inNumber_decimals (S fuel) line i w = (Done i, w).
Proof. intros Hc Hd. cbn [inNumber_decimals]. rewrite Hc, Hd. reflexivity. Qed.

Lemma byte_at_returns line i c w : line !! i = Some c -> byte_at line i w = (Done c, w).
Proof. intros Hc. unfold byte_at. rewrite Hc. reflexivity. Qed.

(** The numbers with one byte before the point: what inNumberWithSign
    makes of them once its first loop has found no decimal at index 1. *)
Lemma inNumberWithSign_integer fuel c0 ws rest t w :
  isWS ws = true ->
  inNumberWithSign (S fuel) (c0 :: ws :: rest) 0 t w
  = (Done (rest, set_literal XSDInteger_IRI [c0] t), w).
Proof.
  intros Hws. destruct (WS_class _ Hws) as (Hd & _).
  unfold inNumberWithSign.
  rewrite (bind_Done _ _ _ _ _ (inNumber_decimals_stops fuel (c0 :: ws :: rest) 1 ws w eq_refl Hd)).
  rewrite (bind_Done _ _ _ _ _ (byte_at_returns (c0 :: ws :: rest) 1 ws w eq_refl)).
  rewrite Hws. reflexivity.
Qed.

Lemma inNumberWithSign_point fuel c0 after t w :
  inNumberWithSign (S fuel) (c0 :: "."%char :: after) 0 t w
  = (let* next := inNumber_fraction (c0 :: "."%char :: after) after 1 t in
     match next with
     | inl literal => ret literal
     | inr i =>
         if Z.of_nat i - Z.of_nat 0 <? 3
         then syntaxErr "fraction of double without decimals"
         else
           let i := S i in
           let i := match (c0 :: "."%char :: after) !! i with
                    | Some c => if eqc c "+" || eqc c "-" then S i else i
                    | None => i
                    end in
           inNumber_exponent (c0 :: "."%char :: after) (drop i (c0 :: "."%char :: after)) i i t
     end) w.
Proof.
  unfold inNumberWithSign.
  rewrite (bind_Done _ _ _ _ _
             (inNumber_decimals_stops fuel (c0 :: "."%char :: after) 1 "."%char w eq_refl eq_refl)).
  rewrite (bind_Done _ _ _ _ _ (byte_at_returns (c0 :: "."%char :: after) 1 "."%char w eq_refl)).
  reflexivity.
Qed.

Lemma inNumberWithSign_decimal fuel c0 digits ws rest t w :
  forallb isDigit digits = true -> digits <> [] -> isWS ws = true ->
  inNumberWithSign (S fuel) (c0 :: "."%char :: digits ++ ws :: rest) 0 t w
  = (Done (rest, set_literal XSDDecimal_IRI (c0 :: "."%char :: digits) t), w).
Proof.
  intros Hd Hne Hws. destruct (WS_class _ Hws) as (Hnd & _).
  rewrite inNumberWithSign_point.
  assert (Hfrac : inNumber_fraction (c0 :: "."%char :: digits ++ ws :: rest) (digits ++ ws :: rest) 1 t w
                  = (Done (inl (rest, set_literal XSDDecimal_IRI (c0 :: "."%char :: digits) t)), w)).
  { rewrite inNumber_fraction_digits by exact Hd.
    cbn [inNumber_fraction]. rewrite Hnd, Hws.
    destruct (last_digit digits [c0; "."%char] (ws :: rest) Hd Hne) as (p & Hp & Hpoint).
    cbn [app length] in Hp.
    replace (S (1 + length digits) - 1)%nat with (2 + length digits - 1)%nat by lia.
    rewrite Hp, Hpoint.
    change (S (1 + length digits)) with (length (c0 :: "."%char :: digits)).
    change (c0 :: "."%char :: digits ++ ws :: rest) with ((c0 :: "."%char :: digits) ++ ws :: rest).
    rewrite take_app_length. reflexivity. }
  rewrite (bind_Done _ _ _ _ _ Hfrac). reflexivity.
Qed.

Lemma inNumber_exponent_reads head sign exp ws rest t w :
  forallb (fun c => eqc c "+" || eqc c "-") sign = true -> (length sign <= 1)%nat ->
  forallb isDigit exp = true -> exp <> [] -> isWS ws = true ->
  let line := head ++ sign ++ exp ++ ws :: rest in
  let i := length head in
  let i := match line !! i with
           | Some c => if eqc c "+" || eqc c "-" then S i else i
           | None => i
           end in
  inNumber_exponent line (drop i line) i i t w
  = (Done (rest, set_literal XSDDouble_IRI (head ++ sign ++ exp) t), w).
Proof.
  intros Hsign Hone Hexp Hexp_ne Hws line.
  destruct (WS_class _ Hws) as (Hnd & _).
  assert (Hstart : match line !! length head with
                   | Some c => if eqc c "+" || eqc c "-" then S (length head) else length head
                   | None => length head
                   end = length (head ++ sign)).
  { unfold line. rewrite lookup_app_r by lia. rewrite Nat.sub_diag.
    destruct sign as [|s [|s' sign']]; [| |simpl in Hone; lia].
    - destruct exp as [|x exp']; [contradiction|]. simpl in Hexp.
      apply andb_true_iff in Hexp. destruct Hexp as [Hx _].
      destruct (digit_class _ Hx) as (_ & _ & _ & _ & Hplus & Hminus).
      cbn [app]. change ((x :: ?l) !! 0%nat) with (Some x). cbv beta iota.
      rewrite Hplus, Hminus, app_nil_r. reflexivity.
    - simpl in Hsign. rewrite andb_true_r in Hsign.
      cbn [app]. change ((s :: ?l) !! 0%nat) with (Some s). cbv beta iota.
      rewrite Hsign, length_app. simpl. lia. }
  cbv zeta. rewrite Hstart.
  unfold line. rewrite (app_assoc head sign). rewrite drop_app_length.
  rewrite inNumber_exponent_digits by exact Hexp.
  cbn [inNumber_exponent]. rewrite Hnd, Hws.
  replace (length (head ++ sign) + length exp =? length (head ++ sign))%nat with false.
  2:{ symmetry. apply Nat.eqb_neq. destruct exp; [contradiction | simpl length; lia]. }
  rewrite <- length_app. rewrite (app_assoc (head ++ sign) exp).
  rewrite take_app_length. rewrite <- app_assoc. reflexivity.
Qed.

Lemma inNumberWithSign_double fuel c0 digits e sign exp ws rest t w :
  forallb isDigit digits = true -> digits <> [] ->
  eqc e "E" || eqc e "e" = true ->
  forallb (fun c => eqc c "+" || eqc c "-") sign = true -> (length sign <= 1)%nat ->
  forallb isDigit exp = true -> exp <> [] -> isWS ws = true ->
  inNumberWithSign (S fuel) (c0 :: "."%char :: digits ++ e :: sign ++ exp ++ ws :: rest) 0 t w
  = (Done (rest, set_literal XSDDouble_IRI (c0 :: "."%char :: digits ++ e :: sign ++ exp) t), w).
Proof.
  intros Hd Hne He Hsign Hone Hexp Hexp_ne Hws.
  assert (HeD : isDigit e = false /\ isWS e = false).
  { revert He. by_byte e. }
  destruct HeD as [HeD HeW].
  rewrite inNumberWithSign_point.
  assert (Hfrac : inNumber_fraction (c0 :: "."%char :: digits ++ e :: sign ++ exp ++ ws :: rest)
                    (digits ++ e :: sign ++ exp ++ ws :: rest) 1 t w
                  = (Done (inr (S (1 + length digits))), w)).
  { rewrite inNumber_fraction_digits by exact Hd.
    cbn [inNumber_fraction]. rewrite HeD, HeW, He. reflexivity. }
  rewrite (bind_Done _ _ _ _ _ Hfrac). cbv beta iota.
  replace (Z.of_nat (S (1 + length digits)) - Z.of_nat 0 <? 3) with false.
  2:{ symmetry. apply Z.ltb_ge. destruct digits; [contradiction | simpl length; lia]. }
  pose proof (inNumber_exponent_reads (c0 :: "."%char :: digits ++ [e]) sign exp ws rest t w
                Hsign Hone Hexp Hexp_ne Hws) as Hexpo.
  cbv zeta in Hexpo.
  replace (length (c0 :: "."%char :: digits ++ [e])) with (S (S (1 + length digits))) in Hexpo
    by (cbn [length]; rewrite length_app; simpl; lia).
  replace ((c0 :: "."%char :: digits ++ [e]) ++ sign ++ exp ++ ws :: rest)
    with (c0 :: "."%char :: digits ++ e :: sign ++ exp ++ ws :: rest) in Hexpo
    by (cbn [app]; rewrite <- app_assoc; reflexivity).
  replace ((c0 :: "."%char :: digits ++ [e]) ++ sign ++ exp)
    with (c0 :: "."%char :: digits ++ e :: sign ++ exp) in Hexpo
    by (cbn [app]; rewrite <- app_assoc; reflexivity).
  exact Hexpo.
Qed.

End Numbers.

Section Quotes.
Context `{GoLib}.

Lemma inQuote_short_skips q pre line rest i fuel t w :
  forallb (quote_byte q) pre = true ->
  inQuote_short q fuel line (pre ++ rest) i t w
  = inQuote_short q fuel line rest (i + length pre) t w.
Proof.
  revert i. induction pre as [|c pre IH]; intros i Hp.
  - cbn [app length]. rewrite Nat.add_0_r. reflexivity.
  - simpl in Hp. apply andb_true_iff in Hp. destruct Hp as [Hc Hp].
    unfold quote_byte in Hc. rewrite !andb_true_iff, !negb_true_iff in Hc.
    destruct Hc as [[[H1 H2] H3] H4].
    cbn [app inQuote_short]. rewrite H1, H2, H3, H4.
    replace (i + length (c :: pre))%nat with (S i + length pre)%nat by (simpl; lia).
    apply IH. exact Hp.
Qed.

Lemma Escape_scan_skips q mid line rest i :
  forallb (quote_byte q) mid = true ->
  Escape_scan q line (mid ++ rest) i = Escape_scan q line rest (i + length mid).
Proof.
  revert i. induction mid as [|c mid IH]; intros i Hm.
  - cbn [app length]. rewrite Nat.add_0_r. reflexivity.
  - simpl in Hm. apply andb_true_iff in Hm. destruct Hm as [Hc Hm].
    unfold quote_byte in Hc. rewrite !andb_true_iff, !negb_true_iff in Hc.
    destruct Hc as [[[H1 H2] H3] H4].
    cbn [app Escape_scan]. rewrite H1, H2, H3, H4.
    replace (i + length (c :: mid))%nat with (S i + length mid)%nat by (simpl; lia).
    apply IH. exact Hm.
Qed.

(** A quote that opens a short literal: a byte the loop passes over or
    a backslash follows it, so the long option is not taken. *)
Lemma inQuote_is_short q pre c rest fuel t w :
  q = dquote \/ q = squote ->
  forallb (quote_byte q) pre = true -> eqc c q = false ->
  inQuote q fuel (q :: pre ++ c :: rest) t w
  = inQuote_short q fuel (q :: pre ++ c :: rest) (pre ++ c :: rest) 1 t w.
Proof.
  intros Hq Hp Hc. unfold inQuote.
  destruct pre as [|c1 pre].
  - cbn [app drop]. rewrite Hc. destruct rest; reflexivity.
  - simpl in Hp. apply andb_true_iff in Hp. destruct Hp as [Hc1 _].
    unfold quote_byte in Hc1. rewrite !andb_true_iff, !negb_true_iff in Hc1.
    destruct Hc1 as [[[H1 _] _] _].
    cbn [app drop]. destruct pre; cbn [app]; rewrite H1; reflexivity.
Qed.

Lemma backslash_is_no_quote q : q = dquote \/ q = squote -> eqc backslash q = false.
Proof. intros [-> | ->]; reflexivity. Qed.

Lemma inEscape_backslash rest b w :
  inEscape (backslash :: rest) b w = (Done (rest, b ++ [backslash]), w).
Proof. reflexivity. Qed.

(** The short quote at its first backslash: the bytes before it and the
    line from the backslash on go to the loop Escape, unless Grow panics. *)
Lemma inQuote_at_backslash q pre after fuel t w :
  q = dquote \/ q = squote ->
  forallb (quote_byte q) pre = true ->
  inQuote q fuel (q :: pre ++ backslash :: after) t w
  = inQuoteEscape q fuel pre (backslash :: after) t w.
Proof.
  intros Hq Hp.
  rewrite inQuote_is_short by (auto using backslash_is_no_quote).
  rewrite inQuote_short_skips by exact Hp.
  cbn [inQuote_short]. rewrite (backslash_is_no_quote q Hq).
  change (eqc backslash backslash) with true. cbv iota.
  pose proof (slice_middle [q] pre (backslash :: after)) as Hslice.
  cbn [length app] in Hslice. rewrite Hslice. reflexivity.
Qed.

Lemma Grow_passes (copyAsIs line : bytes) :
  (4 <= length copyAsIs + length line)%nat ->
  (Z.of_nat (length copyAsIs) + Z.of_nat (length line) - 4 <? 0) = false.
Proof. intros Hlen. apply Z.ltb_ge. lia. Qed.

Lemma single_escape q pre mid rest fuel t w :
  q = dquote \/ q = squote ->
  forallb (quote_byte q) pre = true -> forallb (quote_byte q) mid = true ->
  (2 <= length pre + length mid + length rest)%nat ->
  inQuote q (S fuel) (q :: pre ++ backslash :: mid ++ q :: rest) t w
  = afterQuotedLiteral rest (set_Object (str (pre ++ backslash :: mid)) t) w.
Proof.
  intros Hq Hp Hm Hlen.
  rewrite inQuote_at_backslash by assumption.
  unfold inQuoteEscape. rewrite Grow_passes.
  2:{ cbn [length]. rewrite length_app. cbn [length]. lia. }
  cbn [Escape]. rewrite (bind_Done _ _ _ _ _ (inEscape_backslash _ _ w)). cbv beta iota.
  rewrite Escape_scan_skips by exact Hm.
  cbn [Escape_scan].
  assert (Hqq : eqc q q = true) by (destruct Hq as [-> | ->]; reflexivity).
  assert (Hqb : eqc q backslash = false) by (destruct Hq as [-> | ->]; reflexivity).
  rewrite Hqb, Hqq. cbn [Nat.add].
  rewrite take_app_length. rewrite <- app_assoc. reflexivity.
Qed.

Lemma Escape_hangs q mid rest fuel b t w :
  q = dquote \/ q = squote -> forallb (quote_byte q) mid = true ->
  Escape fuel q (backslash :: mid ++ backslash :: rest) b t w = (Hang, w).
Proof.
  intros Hq Hm. revert b. induction fuel as [|fuel IH]; intros b; [reflexivity|].
  cbn [Escape]. rewrite (bind_Done _ _ _ _ _ (inEscape_backslash _ _ w)). cbv beta iota.
  rewrite Escape_scan_skips by exact Hm.
  cbn [Escape_scan]. change (eqc backslash backslash) with true. cbv iota.
  apply IH.
Qed.

Lemma second_escape q pre mid rest fuel t w :
  q = dquote \/ q = squote ->
  forallb (quote_byte q) pre = true -> forallb (quote_byte q) mid = true ->
  (2 <= length pre + length mid + length rest)%nat ->
  inQuote q fuel (q :: pre ++ backslash :: mid ++ backslash :: rest) t w = (Hang, w).
Proof.
  intros Hq Hp Hm Hlen.
  rewrite inQuote_at_backslash by assumption.
  unfold inQuoteEscape. rewrite Grow_passes.
  2:{ cbn [length]. rewrite length_app. cbn [length]. lia. }
  apply Escape_hangs; assumption.
Qed.

Lemma short_escape q pre after fuel t w :
  q = dquote \/ q = squote ->
  forallb (quote_byte q) pre = true ->
  (length pre + length after < 3)%nat ->
  inQuote q fuel (q :: pre ++ backslash :: after) t w
  = (Panic "strings.Builder.Grow: negative count", w).
Proof.
  intros Hq Hp Hlen.
  rewrite inQuote_at_backslash by assumption.
  unfold inQuoteEscape.
  replace (Z.of_nat (length pre) + Z.of_nat (length (backslash :: after)) - 4 <? 0) with true.
  - reflexivity.
  - symmetry. apply Z.ltb_lt. cbn [length]. lia.
Qed.

(** *** Long quotes *)

Lemma inQuote_long_skips q content line rest i fuel t w :
  forallb (long_byte q) content = true ->
  inQuote_long q fuel line (content ++ rest) i t w
  = inQuote_long q fuel line rest (i + length content) t w.
Proof.
  revert i. induction content as [|c content IH]; intros i Hc.
  - cbn [app length]. rewrite Nat.add_0_r. reflexivity.
  - simpl in Hc. apply andb_true_iff in Hc. destruct Hc as [Hb Hc].
    unfold long_byte in Hb. rewrite !andb_true_iff, !negb_true_iff in Hb.
    destruct Hb as [H1 H2].
    cbn [app]. rewrite inQuote_long_cons. rewrite H1, H2.
    replace (i + length (c :: content))%nat with (S i + length content)%nat by (simpl; lia).
    apply IH. exact Hc.
Qed.

Lemma long_quote q content rest fuel t w :
  q = dquote \/ q = squote ->
  forallb (long_byte q) content = true ->
  inQuote q fuel (q :: q :: q :: content ++ q :: q :: q :: rest) t w
  = afterQuotedLiteral rest (set_Object (str content) t) w.
Proof.
  intros Hq Hc.
  assert (Hqq : eqc q q = true) by (destruct Hq as [-> | ->]; reflexivity).
  unfold inQuote. rewrite Hqq. cbn [andb].
  rewrite inQuote_long_skips by exact Hc.
  rewrite inQuote_long_cons. rewrite Hqq. cbn [negb].
  pose proof (slice_middle [q; q; q] content (q :: q :: q :: rest)) as Hslice.
  cbn [length app] in Hslice. rewrite Hslice. reflexivity.
Qed.

End Quotes.

Section LangTags.
Context `{GoLib}.

Lemma LangTag_from_scan tag i offset :
  (1 <= offset <= i)%nat ->
  LangTag_from tag i offset = langtag_scan (offset =? 1)%nat (offset =? i)%nat tag.
Proof.
  revert i offset. induction tag as [|c tag IH]; intros i offset Hio; [reflexivity|].
  cbn [LangTag_from langtag_scan].
  assert (Hnext : (offset =? S i)%nat = false) by (apply Nat.eqb_neq; lia).
  destruct (isLetter c); [rewrite IH by lia; rewrite Hnext; reflexivity|].
  destruct (isDigit c); [rewrite IH by lia; rewrite Hnext; reflexivity|].
  destruct (eqc c "-"); [|reflexivity].
  rewrite IH by lia. rewrite Nat.eqb_refl.
  replace (S i =? 1)%nat with false by (symmetry; apply Nat.eqb_neq; lia).
  reflexivity.
Qed.

Lemma letter_in_class first c : isLetter c = true -> code_class first c = true.
Proof. intros Hc. destruct first; simpl; [exact Hc | unfold alnum; rewrite Hc; reflexivity]. Qed.

Lemma langtag_scan_grammar first empty tag :
  langtag_scan first empty tag = true <->
  exists cur subtags,
    tag = cur ++ concat (map (cons "-"%char) subtags)
    /\ (empty = true -> cur <> [])
    /\ forallb (code_class first) cur = true
    /\ Forall (fun s => s <> [] /\ forallb alnum s = true) subtags.
Proof.
  revert first empty. induction tag as [|c tag IH]; intros first empty.
  - cbn [langtag_scan]. split.
    + intros He. apply negb_true_iff in He. exists [], [].
      repeat split; [intros E; congruence | constructor].
    + intros (cur & subtags & Htag & Hne & _ & _).
      destruct cur as [|x cur]; [|discriminate Htag].
      destruct empty; [exfalso; apply Hne; reflexivity | reflexivity].
  - cbn [langtag_scan]. split.
    + destruct (isLetter c) eqn:Hl.
      { intros Hs. apply IH in Hs. destruct Hs as (cur & subtags & -> & _ & Hcur & Hsub).
        exists (c :: cur), subtags. repeat split; [discriminate | | exact Hsub].
        cbn [forallb]. rewrite (letter_in_class first c Hl). exact Hcur. }
      destruct (isDigit c) eqn:Hd.
      { intros Hs. apply andb_true_iff in Hs. destruct Hs as [Hf Hs].
        apply negb_true_iff in Hf. subst first.
        apply IH in Hs. destruct Hs as (cur & subtags & -> & _ & Hcur & Hsub).
        exists (c :: cur), subtags. repeat split; [discriminate | | exact Hsub].
        cbn [forallb code_class]. unfold alnum at 1. rewrite Hd, orb_true_r. exact Hcur. }
      destruct (eqc c "-") eqn:Hm; [|discriminate].
      intros Hs. apply andb_true_iff in Hs. destruct Hs as [He Hs].
      apply negb_true_iff in He. subst empty.
      apply IH in Hs. destruct Hs as (cur & subtags & -> & Hne & Hcur & Hsub).
      apply Ascii.eqb_eq in Hm. subst c.
      exists [], (cur :: subtags). repeat split; [discriminate | ].
      constructor; [split; [apply Hne; reflexivity | exact Hcur] | exact Hsub].
    + intros (cur & subtags & Htag & Hne & Hcur & Hsub).
      destruct cur as [|x cur].
      * destruct empty; [exfalso; apply Hne; reflexivity|].
        destruct subtags as [|s subtags]; [discriminate Htag|].
        cbn [map concat app] in Htag. injection Htag as -> ->.
        change (isLetter "-") with false. change (isDigit "-") with false.
        change (eqc "-" "-") with true. cbn [negb andb].
        apply IH. inversion Hsub as [|? ? [Hs1 Hs2] Hrest]; subst.
        exists s, subtags. repeat split; auto.
      * cbn [app] in Htag. injection Htag as -> ->.
        cbn [forallb] in Hcur. apply andb_true_iff in Hcur. destruct Hcur as [Hx Hcur].
        assert (Hafter : langtag_scan first false (cur ++ concat (map (cons "-"%char) subtags)) = true).
        { apply IH. exists cur, subtags. repeat split; [discriminate | exact Hcur | exact Hsub]. }
        destruct (isLetter x) eqn:Hl; [exact Hafter|].
        destruct first; cbn [code_class] in Hx; [congruence|].
        unfold alnum in Hx. rewrite Hl in Hx. cbn [orb] in Hx. rewrite Hx.
        exact Hafter.
Qed.

Lemma accepted_is_LANGTAG tag : LangTag_from tag 1 1 = true <-> LANGTAG tag.
Proof.
  rewrite LangTag_from_scan by lia. cbn [Nat.eqb].
  rewrite langtag_scan_grammar. unfold LANGTAG, code_class.
  split; intros (cur & subtags & Htag & Hne & Hcur & Hsub); exists cur, subtags;
    repeat split; auto.
Qed.

Lemma WS_is_no_code c :
  isWS c = true -> isLetter c = false /\ isDigit c = false /\ eqc c "-" = false.
Proof. destruct c as [[] [] [] [] [] [] [] []]; vm_compute; intuition discriminate. Qed.

Lemma inLangTag_loop_accepts tag line ws rest i offset t w :
  isWS ws = true -> LangTag_from tag i offset = true ->
  inLangTag_loop line (tag ++ ws :: rest) i offset t w
  = (Done (rest, set_LangTag (str (slice line 1 (i + length tag))) t), w).
Proof.
  intros Hws. destruct (WS_is_no_code _ Hws) as (Hl & Hd & Hm).
  revert i offset. induction tag as [|c tag IH]; intros i offset Htag.
  - cbn [app length inLangTag_loop LangTag_from] in *. rewrite Nat.add_0_r.
    rewrite Hl, Hd, Hm, Hws. apply negb_true_iff in Htag. rewrite Htag. reflexivity.
  - cbn [app inLangTag_loop LangTag_from] in *.
    replace (i + length (c :: tag))%nat with (S i + length tag)%nat by (simpl; lia).
    destruct (isLetter c); [apply IH; exact Htag|].
    destruct (isDigit c).
    { apply andb_true_iff in Htag. destruct Htag as [Ho Htag].
      apply negb_true_iff in Ho. rewrite Ho. apply IH. exact Htag. }
    destruct (eqc c "-"); [|discriminate].
    apply andb_true_iff in Htag. destruct Htag as [Ho Htag].
    apply negb_true_iff in Ho. rewrite Ho. apply IH. exact Htag.
Qed.

Lemma inLangTag_loop_refuses tag line ws rest i offset t w :
  isWS ws = true -> forallb not_WS tag = true -> LangTag_from tag i offset = false ->
  exists reason, inLangTag_loop line (tag ++ ws :: rest) i offset t w = syntaxErr reason w.
Proof.
  intros Hws. destruct (WS_is_no_code _ Hws) as (Hl & Hd & Hm).
  revert i offset. induction tag as [|c tag IH]; intros i offset Hno Htag.
  - cbn [app inLangTag_loop LangTag_from] in *.
    rewrite Hl, Hd, Hm, Hws. apply negb_false_iff in Htag. rewrite Htag. eauto.
  - simpl in Hno. apply andb_true_iff in Hno. destruct Hno as [Hc Hno].
    apply negb_true_iff in Hc.
    cbn [app inLangTag_loop LangTag_from] in *.
    destruct (isLetter c); [apply IH; assumption|].
    destruct (isDigit c).
    { destruct (offset =? 1)%nat; [eauto|]. apply IH; assumption. }
    destruct (eqc c "-").
    { destruct (offset =? i)%nat; [eauto|]. apply IH; assumption. }
    rewrite Hc. eauto.
Qed.

(** X18. inLangTag accepts the language tags of the production LANGTAG of
    Turtle and no others: letters, then groups of letters and decimals,
    each after a hyphen. An accepted tag is stored as written, with the
    datatype rdf:langString; any other tag that ends at the white space is
    a syntax error. *)
Theorem inLangTag_accepts_LANGTAG tag ws rest t w :
  isWS ws = true ->
  (LANGTAG tag ->
   inLangTag ("@"%char :: tag ++ ws :: rest) t w
   = (Done (rest, set_LangTag (str tag) (set_DatatypeIRI rdf_langString t)), w))
  /\ (forallb not_WS tag = true -> ~ LANGTAG tag ->
      exists reason, inLangTag ("@"%char :: tag ++ ws :: rest) t w = syntaxErr reason w).
Proof.
  intros Hws. unfold inLangTag. change (drop 1 ("@"%char :: ?l)) with l. split.
  - intros Htag. apply accepted_is_LANGTAG in Htag.
    rewrite inLangTag_loop_accepts by assumption.
    pose proof (slice_middle ["@"%char] tag (ws :: rest)) as Hslice.
    cbn [length app] in Hslice. rewrite Hslice. reflexivity.
  - intros Hno Htag. apply inLangTag_loop_refuses; [assumption | assumption |].
    destruct (LangTag_from tag 1 1) eqn:E; [|reflexivity].
    exfalso. apply Htag. apply accepted_is_LANGTAG. exact E.
Qed.

(** *** Datatypes by prefixed name *)

Lemma ReadPrefix_finds label line more i w :
  forallb name_byte label = true ->
  ReadPrefix line (label ++ ":"%char :: more) i w
  = (Done (slice line 2 (i + length label), more), w).
Proof.
  revert i. induction label as [|c label IH]; intros i Hl.
  - cbn [app length ReadPrefix]. rewrite Nat.add_0_r.
    change (isWS ":") with false. change (eqc ":" ":") with true. reflexivity.
  - simpl in Hl. apply andb_true_iff in Hl. destruct Hl as [Hc Hl].
    destruct (name_byte_scans _ Hc) as [Hw Hcolon].
    cbn [app ReadPrefix]. rewrite Hw, Hcolon.
    replace (i + length (c :: label))%nat with (S i + length label)%nat by (simpl; lia).
    apply IH. exact Hl.
Qed.

Lemma inDatatype_local_finds prefix local line ws rest i t w :
  forallb not_WS local = true -> isWS ws = true ->
  inDatatype_local prefix line (local ++ ws :: rest) i t w
  = (Done (rest, set_DatatypeIRI (prefix +:+ str (take (i + length local) line)) t), w).
Proof.
  revert i. induction local as [|c local IH]; intros i Hl Hws.
  - cbn [app length inDatatype_local]. rewrite Hws, Nat.add_0_r. reflexivity.
  - simpl in Hl. apply andb_true_iff in Hl. destruct Hl as [Hc Hl].
    apply negb_true_iff in Hc. cbn [app inDatatype_local]. rewrite Hc.
    replace (i + length (c :: local))%nat with (S i + length local)%nat by (simpl; lia).
    apply IH; assumption.
Qed.

(** X19. A datatype given as a prefixed name after the two carets is the
    IRI of the label followed by the local part up to the first white
    space, and a syntax error when the label has no prefix. *)
Theorem datatype_by_prefixed_name label local ws rest t w :
  forallb name_byte label = true -> forallb not_WS local = true -> isWS ws = true ->
  afterQuotedLiteral ("^"%char :: "^"%char :: label ++ ":"%char :: local ++ ws :: rest) t w
  = match prefixPerLabel (rdr w) !! str label with
    | Some prefix => (Done (rest, set_DatatypeIRI (prefix +:+ str local) t), w)
    | None => syntaxErr "undefined prefix on datatype" w
    end.
Proof.
  intros Hl Hlocal Hws.
  unfold afterQuotedLiteral. change (isWS "^") with false. change (eqc "^" "^") with true.
  cbv iota. unfold inDatatype. change (negb (eqc "^" "^")) with false. cbv iota.
  assert (Hshape : exists c2 c3 more, label ++ ":"%char :: local ++ ws :: rest = c2 :: c3 :: more
                                      /\ eqc c2 "<" = false).
  { destruct label as [|c2 [|c3 label]].
    - destruct local; cbn [app]; eauto.
    - simpl in Hl. apply andb_true_iff in Hl. destruct Hl as [Hc _].
      unfold name_byte in Hc. rewrite !andb_true_iff, !negb_true_iff in Hc.
      cbn [app]. do 3 eexists. split; [reflexivity | apply Hc].
    - simpl in Hl. apply andb_true_iff in Hl. destruct Hl as [Hc _].
      unfold name_byte in Hc. rewrite !andb_true_iff, !negb_true_iff in Hc.
      cbn [app]. do 3 eexists. split; [reflexivity | apply Hc]. }
  destruct Hshape as (c2 & c3 & more & Hshape & Hc2).
  rewrite Hshape. rewrite Hc2. rewrite <- Hshape.
  rewrite (bind_Done _ _ _ _ _ (ReadPrefix_finds label _ _ 2 w Hl)). cbv beta iota.
  pose proof (slice_middle ["^"%char; "^"%char] label (":"%char :: local ++ ws :: rest)) as Hslice.
  cbn [length app] in Hslice. rewrite Hslice.
  unfold bind at 1. unfold get at 1.
  destruct (prefixPerLabel (rdr w) !! str label) as [prefix|]; [|reflexivity].
  rewrite inDatatype_local_finds by assumption.
  cbn [Nat.add]. rewrite take_app_length. reflexivity.
Qed.

(** X13. A literal between two double quotes or two apostrophes, without
    backslash, carriage return or new-line, that white space follows: the
    lexical form is the text between the quotes and the datatype is
    xsd:string. *)
Theorem plain_literal_is_an_xsd_string q text ws rest fuel t w :
  q = dquote \/ q = squote ->
  forallb (quote_byte q) text = true -> isWS ws = true ->
  inQuote q fuel (q :: text ++ q :: ws :: rest) t w
  = (Done (rest, set_DatatypeIRI XSDString_IRI (set_Object (str text) t)), w).
Proof.
  intros Hq Htext Hws.
  assert (Hqq : eqc q q = true) by (destruct Hq as [-> | ->]; reflexivity).
  assert (Hwq : eqc ws q = false).
  { destruct Hq as [-> | ->]; revert Hws;
      destruct ws as [[] [] [] [] [] [] [] []]; vm_compute; intuition discriminate. }
  assert (Hshort : inQuote q fuel (q :: text ++ q :: ws :: rest) t w
                   = inQuote_short q fuel (q :: text ++ q :: ws :: rest)
                       (text ++ q :: ws :: rest) 1 t w).
  { destruct text as [|c text].
    - unfold inQuote. cbn [app drop]. rewrite Hqq, Hwq. reflexivity.
    - simpl in Htext. apply andb_true_iff in Htext. destruct Htext as [Hc _].
      unfold quote_byte in Hc. rewrite !andb_true_iff, !negb_true_iff in Hc.
      destruct Hc as [[[H1 _] _] _].
      unfold inQuote. cbn [app drop]. destruct text; cbn [app]; rewrite H1; reflexivity. }
  rewrite Hshort. rewrite inQuote_short_skips by exact Htext.
  cbn [inQuote_short]. rewrite Hqq.
  pose proof (slice_middle [q] text (q :: ws :: rest)) as Hslice.
  cbn [length app] in Hslice. rewrite Hslice.
  unfold afterQuotedLiteral. rewrite Hws. reflexivity.
Qed.

End LangTags.

Section Literals.
Context `{GoLib}.

(** X11. A number in object position that starts with one decimal and
    ends at a white space: the decimal alone is an xsd:integer; followed
    by a point and decimals it is an xsd:decimal; with an exponent after
    those, signed or not, it is an xsd:double. The lexical form is the
    number as written. *)
Theorem numbers_with_one_leading_decimal fuel d0 digits e sign exp ws rest t w :
  isDigit d0 = true ->
  forallb isDigit digits = true -> digits <> [] ->
  eqc e "E" || eqc e "e" = true ->
  forallb (fun c => eqc c "+" || eqc c "-") sign = true -> (length sign <= 1)%nat ->
  forallb isDigit exp = true -> exp <> [] ->
  isWS ws = true ->
  let read lexical := readObject (S fuel) (SP :: lexical ++ ws :: rest) t w in
  let literal datatype lexical := (Done (rest, set_literal datatype lexical t), w) in
  read [d0] = literal XSDInteger_IRI [d0]
  /\ read (d0 :: "."%char :: digits) = literal XSDDecimal_IRI (d0 :: "."%char :: digits)
  /\ read (d0 :: "."%char :: digits ++ e :: sign ++ exp)
     = literal XSDDouble_IRI (d0 :: "."%char :: digits ++ e :: sign ++ exp).
Proof.
  intros Hd0 Hd Hne He Hsign Hone Hexp Hexp_ne Hws read literal.
  unfold read, literal.
  split; [|split].
  - rewrite (readObject_decimal _ _ d0 (ws :: rest) _ _ (lead_digit d0 _ Hd0) Hd0).
    apply inNumberWithSign_integer. exact Hws.
  - cbn [app].
    rewrite (readObject_decimal _ _ d0 _ _ _ (lead_digit d0 _ Hd0) Hd0).
    apply inNumberWithSign_decimal; assumption.
  - cbn [app].
    rewrite (readObject_decimal _ _ d0 _ _ _ (lead_digit d0 _ Hd0) Hd0).
    rewrite <- !app_assoc. cbn [app]. rewrite <- !app_assoc.
    apply inNumberWithSign_double; assumption.
Qed.

(** X12. A point followed by white space in object position is read as an
    xsd:integer whose lexical form is the point: inNumberWithSign does not
    look at the first byte of the number. *)
Theorem lone_dot_is_an_integer fuel ws rest t w :
  isWS ws = true ->
  readObject (S fuel) (SP :: "."%char :: ws :: rest) t w
  = (Done (rest, set_literal XSDInteger_IRI ["."%char] t), w).
Proof.
  intros Hws. unfold readObject.
  erewrite bind_Done by reflexivity.
  erewrite bind_Done by reflexivity.
  cbv beta iota. change (eqc "." "<") with false. cbn -[inNumberWithSign].
  apply inNumberWithSign_integer. exact Hws.
Qed.

(** X14. A short quoted literal with one backslash: the lexical form is the
    text between the quotes as written, the backslash included. The
    escape is not decoded, inEscape being called at the backslash and not
    at the byte after it. *)
Theorem escape_is_not_decoded q pre mid rest fuel t w :
  q = dquote \/ q = squote ->
  forallb (quote_byte q) pre = true -> forallb (quote_byte q) mid = true ->
  (2 <= length pre + length mid + length rest)%nat ->
  inQuote q (S fuel) (q :: pre ++ backslash :: mid ++ q :: rest) t w
  = afterQuotedLiteral rest (set_Object (str (pre ++ backslash :: mid)) t) w.
Proof. apply single_escape. Qed.

(** X15. A short quoted literal with a second backslash never returns: the
    loop Escape goes on from the line it started with, the remainder of
    inEscape being held by a variable of the loop body. *)
Theorem second_escape_never_returns q pre mid rest fuel t w :
  q = dquote \/ q = squote ->
  forallb (quote_byte q) pre = true -> forallb (quote_byte q) mid = true ->
  (2 <= length pre + length mid + length rest)%nat ->
  inQuote q fuel (q :: pre ++ backslash :: mid ++ backslash :: rest) t w = (Hang, w).
Proof. apply second_escape. Qed.

(** X16. A backslash in a short quoted literal with fewer than three bytes
    around it, those of the literal before it and those of the line after
    it: the count given to strings.Builder.Grow is negative and the call
    panics. *)
Theorem escape_near_the_end_panics q pre after fuel t w :
  q = dquote \/ q = squote ->
  forallb (quote_byte q) pre = true ->
  (length pre + length after < 3)%nat ->
  inQuote q fuel (q :: pre ++ backslash :: after) t w
  = (Panic "strings.Builder.Grow: negative count", w).
Proof. apply short_escape. Qed.

(** X17. A long quoted literal that opens and closes on one line, the text
    in between without a byte of its quote and without backslash: the
    lexical form is that text, and afterQuotedLiteral reads on after the
    closing quotes. *)
Theorem long_quote_on_one_line q content rest fuel t w :
  q = dquote \/ q = squote ->
  forallb (long_byte q) content = true ->
  inQuote q fuel (q :: q :: q :: content ++ q :: q :: q :: rest) t w
  = afterQuotedLiteral rest (set_Object (str content) t) w.
Proof. apply long_quote. Qed.

End Literals.

Create HintDb keeps.

Section Keeps.
Context `{GoLib}.
Variable I : world -> world -> Prop.
Variable E : world -> error -> Prop.
Variable Pn : string -> Prop.

Hypothesis HK : keeping I E Pn.

Local Abbreviation K := (keeps I E Pn).

Lemma I_refl w : I w w.
Proof. apply (kept_refl _ _ _ HK). Qed.

Lemma I_trans w1 w2 w3 : I w1 w2 -> I w2 w3 -> I w1 w3.
Proof. apply (kept_trans _ _ _ HK). Qed.

Lemma E_unexpected w detail : E w (io_ErrUnexpectedEOF detail).
Proof. apply (fails_unexpected _ _ _ HK). Qed.

Lemma E_syntax w reason : E w (SyntaxError (lineNo (rdr w)) reason).
Proof. apply (fails_syntax _ _ _ HK). Qed.

Lemma Pn_IRI : Pn "TODO: Unicode escape".
Proof. apply (panics_IRI _ _ _ HK). Qed.

Lemma Pn_collection : Pn "TODO: collection list not implemented yet".
Proof. apply (panics_collection _ _ _ HK). Qed.

Lemma Pn_anonymous : Pn "TODO: anonymous predicate-object list not implemented yet".
Proof. apply (panics_anonymous _ _ _ HK). Qed.

Lemma Pn_Grow : Pn "strings.Builder.Grow: negative count".
Proof. apply (panics_Grow _ _ _ HK). Qed.


Lemma keeps_ret {A} (a : A) (Q : A -> Prop) : Q a -> K (ret a) Q.
Proof. intros Ha w. split; [apply I_refl | exact Ha]. Qed.

Lemma keeps_unexpected {A} detail (Q : A -> Prop) : K (fail (io_ErrUnexpectedEOF detail)) Q.
Proof. intros w. split; [apply I_refl | apply E_unexpected]. Qed.

Lemma keeps_url {A} msg (Q : A -> Prop) : K (fail (url_Error msg)) Q.
Proof. intros w. split; [apply I_refl | apply (fails_url _ _ _ HK)]. Qed.

Lemma keeps_panic {A} msg (Q : A -> Prop) : Pn msg -> K (panic msg) Q.
Proof. intros Hmsg w. split; [apply I_refl | exact Hmsg]. Qed.

Lemma keeps_hang {A} (Q : A -> Prop) : K hang Q.
Proof. intros w. split; [apply I_refl | exact Logic.I]. Qed.

Lemma keeps_get : K get any.
Proof. intros w. split; [apply I_refl | exact Logic.I]. Qed.

Lemma keeps_modify f : (forall w, I w (with_rdr f w)) -> K (modify f) any.
Proof. intros Hf w. split; [apply Hf | exact Logic.I]. Qed.

Lemma keeps_syntaxErr {A} reason (Q : A -> Prop) : K (syntaxErr reason) Q.
Proof. intros w. split; [apply I_refl | apply E_syntax]. Qed.

Lemma keeps_bind {A B} (m : M A) (k : A -> M B) P Q :
  K m P -> (forall a, P a -> K (k a) Q) -> K (bind m k) Q.
Proof.
  intros Hm Hk w. unfold bind. specialize (Hm w).
  destruct (m w) as [[a|e|msg|] w']; simpl in Hm; destruct Hm as [Hw Hres];
    try (split; [exact Hw | exact Hres]).
  specialize (Hk a Hres w'). destruct Hk as [Hw' Hres'].
  split; [eapply I_trans; eassumption | exact Hres'].
Qed.

Lemma keeps_weaken {A} (m : M A) (P Q : A -> Prop) :
  K m P -> (forall a, P a -> Q a) -> K m Q.
Proof.
  intros Hm HQ w. specialize (Hm w). destruct Hm as [Hw Hres]. split; [exact Hw|].
  destruct (fst (m w)); auto.
Qed.

Lemma keeps_set_pending p : K (modify (set_pending p)) any.
Proof. apply keeps_modify. intros w. apply (kept_pending _ _ _ HK). Qed.

Lemma keeps_set_BaseIRI u : K (modify (set_BaseIRI u)) any.
Proof. apply keeps_modify. intros w. apply (kept_base _ _ _ HK). Qed.

Lemma keeps_set_prefix label prefix :
  K (modify (fun r => set_prefixPerLabel (<[label := prefix]> (prefixPerLabel r)) r)) any.
Proof. apply keeps_modify. intros w. apply (kept_prefix _ _ _ HK). Qed.

Lemma keeps_count_anon : K (modify (fun r => set_anonNodeNo (incr (anonNodeNo r)) r)) any.
Proof. apply keeps_modify. exact (kept_anon _ _ _ HK). Qed.

Lemma keeps_count_propList :
  K (modify (fun r => set_propListLevel (incr (propListLevel r)) r)) any.
Proof. apply keeps_modify. exact (kept_propList _ _ _ HK). Qed.

Hint Resolve keeps_unexpected keeps_url keeps_hang keeps_get keeps_syntaxErr
  keeps_set_pending keeps_set_BaseIRI keeps_set_prefix keeps_count_anon keeps_count_propList
  : keeps.
Hint Extern 1 (keeps _ _ _ (ret _) any) => apply keeps_ret; exact Logic.I : keeps.
Hint Extern 1 (keeps _ _ _ (panic _) _) =>
  apply keeps_panic; first [apply Pn_IRI | apply Pn_collection | apply Pn_anonymous | apply Pn_Grow]
  : keeps.
Hint Resolve Pn_IRI Pn_collection Pn_anonymous Pn_Grow : keeps.
Hint Extern 1 (any _) => exact Logic.I : keeps.
Hint Extern 1 (nodes_are _ _ _) => unfold nodes_are; simpl; auto : keeps.
Hint Extern 1 (fraction_nodes_are _ _ _) =>
  unfold fraction_nodes_are, nodes_are; simpl; auto : keeps.
Hint Extern 1 (SubjectIRI _ = _) => simpl; assumption : keeps.
Hint Extern 1 (PredicateIRI _ = _) => simpl; assumption : keeps.
Hint Extern 1 (keeps _ _ _ (ret _) (nodes_are _ _)) =>
  apply keeps_ret; unfold nodes_are; simpl; auto : keeps.
Hint Extern 1 (keeps _ _ _ (ret _) (fraction_nodes_are _ _)) =>
  apply keeps_ret; unfold fraction_nodes_are, nodes_are; simpl; auto : keeps.

Ltac keeps_step :=
  lazymatch goal with
  | |- keeps _ _ _ (ret _) _ => apply keeps_ret
  | |- keeps _ _ _ (fail (io_ErrUnexpectedEOF _)) _ => apply keeps_unexpected
  | |- keeps _ _ _ (fail (url_Error _)) _ => apply keeps_url
  | |- keeps _ _ _ (panic _) _ => apply keeps_panic
  | |- keeps _ _ _ hang _ => apply keeps_hang
  | |- keeps _ _ _ (syntaxErr _) _ => apply keeps_syntaxErr
  | |- keeps _ _ _ (bind _ _) _ => eapply keeps_bind; [solve [eauto with keeps] | intros]
  | |- keeps _ _ _ (match ?x with _ => _ end) _ => destruct x eqn:?
  | |- keeps _ _ _ (let _ := _ in _) _ => cbv zeta
  end.

Ltac keeps_auto := repeat keeps_step; eauto with keeps.

Lemma keeps_skolemIRIRoot : K skolemIRIRoot any.
Proof.
  intros w. unfold skolemIRIRoot, bind, get, modify, ret. cbn [fst snd].
  destruct (String.eqb (skolemIRICache (rdr w)) "") eqn:Ecache; cbn [fst snd].
  - split; [exact (kept_cache _ _ _ HK w Ecache) | exact Logic.I].
  - split; [apply I_refl | exact Logic.I].
Qed.

Lemma keeps_Reader_line : K Reader_line nonempty_line.
Proof. unfold Reader_line. keeps_step. apply (kept_line _ _ _ HK). Qed.

Lemma keeps_lineContinue remainder : K (lineContinue remainder) nonempty_line.
Proof.
  unfold lineContinue. destruct (nonempty (lead remainder)) eqn:En.
  - apply keeps_ret. destruct (lead remainder); [discriminate En | discriminate].
  - intros w. destruct (keeps_Reader_line w) as [Hw Hres].
    destruct (Reader_line w) as [[a|e|msg|] w']; cbn [fst snd] in *;
      try (split; [exact Hw | exact Hres]).
    destruct e; cbn [fst snd]; (split; [exact Hw | first [exact Hres | apply E_unexpected]]).
Qed.

Hint Resolve keeps_skolemIRIRoot keeps_Reader_line keeps_lineContinue : keeps.

Lemma keeps_first_byte line : nonempty_line line -> K (first_byte line) any.
Proof. intros Hl. destruct line; [contradiction | apply keeps_ret; exact Logic.I]. Qed.

Lemma keeps_byte_at line i : is_Some (line !! i) -> K (byte_at line i) any.
Proof. intros [c Hc]. unfold byte_at. rewrite Hc. apply keeps_ret. exact Logic.I. Qed.

Hint Resolve keeps_first_byte keeps_byte_at : keeps.

Lemma keeps_inToken_loop token tok rest : K (inToken_loop token tok rest) any.
Proof. revert rest. induction tok; intros rest; simpl; keeps_auto. Qed.

Hint Resolve keeps_inToken_loop : keeps.

Lemma keeps_inToken line token : K (inToken line token) any.
Proof. unfold inToken. keeps_auto. Qed.

Lemma keeps_inIRI_loop line rest i : K (inIRI_loop line rest i) any.
Proof. revert i. induction rest; intros i; simpl; keeps_auto. Qed.

Lemma keeps_inIRI line : K (inIRI line) any.
Proof. apply keeps_inIRI_loop. Qed.

Hint Resolve keeps_inToken keeps_inIRI : keeps.

Lemma keeps_afterBaseDirective line terminated : K (afterBaseDirective line terminated) any.
Proof. unfold afterBaseDirective. keeps_auto. Qed.

Lemma keeps_ReadLabel line rest i : K (ReadLabel line rest i) any.
Proof. revert i. induction rest; intros i; simpl; keeps_auto. Qed.

Hint Resolve keeps_ReadLabel : keeps.

Lemma keeps_afterPrefixDirective line terminated : K (afterPrefixDirective line terminated) any.
Proof. unfold afterPrefixDirective. keeps_auto. Qed.

Hint Resolve keeps_afterBaseDirective keeps_afterPrefixDirective : keeps.

Lemma keeps_inDirective line : K (inDirective line) any.
Proof. unfold inDirective. keeps_auto. Qed.

Lemma keeps_readPredicate line : K (readPredicate line) any.
Proof. unfold readPredicate. keeps_auto. Qed.

Lemma keeps_inUndeterminedSubject line : K (inUndeterminedSubject line) any.
Proof. unfold inUndeterminedSubject. keeps_auto. Qed.

Lemma keeps_inBlankLabel_loop line rest i : K (inBlankLabel_loop line rest i) any.
Proof. revert i. induction rest; intros i; simpl; keeps_auto. Qed.

Lemma keeps_inBlankLabel line : K (inBlankLabel line) any.
Proof. unfold inBlankLabel. keeps_auto. apply keeps_inBlankLabel_loop. Qed.

Lemma keeps_inAnonymous_loop fuel skolemIRI line : K (inAnonymous_loop fuel skolemIRI line) any.
Proof. revert line. induction fuel; intros line; simpl; keeps_auto. Qed.

Hint Resolve keeps_inAnonymous_loop : keeps.

Lemma keeps_inAnonymous fuel line : K (inAnonymous fuel line) any.
Proof. unfold inAnonymous. keeps_auto. Qed.

Lemma keeps_inCollection line : K (inCollection line) any.
Proof. unfold inCollection. keeps_auto. Qed.

Hint Resolve keeps_inDirective keeps_readPredicate keeps_inUndeterminedSubject
  keeps_inBlankLabel keeps_inAnonymous keeps_inCollection : keeps.

Lemma keeps_readSubject_loop fuel line :
  nonempty_line line -> K (readSubject_loop fuel line) any.
Proof. revert line. induction fuel; intros line Hline; simpl; keeps_auto. Qed.

Lemma keeps_readSubject fuel : K (readSubject fuel) any.
Proof. unfold readSubject. keeps_step. apply keeps_readSubject_loop. assumption. Qed.

Section Objects.
Variables s p : string.

Lemma keeps_inUndeterminedObject line t :
  SubjectIRI t = s -> PredicateIRI t = p -> K (inUndeterminedObject line t) (nodes_are s p).
Proof. intros Hs Hp. unfold inUndeterminedObject. keeps_auto. Qed.

Lemma keeps_inNumber_decimals fuel line i :
  K (inNumber_decimals fuel line i) (fun j => is_Some (line !! j)).
Proof.
  induction fuel; simpl; [keeps_auto|].
  destruct (line !! i) as [c|] eqn:Hc; [|keeps_auto].
  destruct (isDigit c); [exact IHfuel|]. apply keeps_ret. rewrite Hc. eauto.
Qed.

Lemma keeps_inNumber_fraction line rest i t :
  SubjectIRI t = s -> PredicateIRI t = p ->
  K (inNumber_fraction line rest i t) (fraction_nodes_are s p).
Proof. intros Hs Hp. revert i. induction rest; intros i; simpl; keeps_auto. Qed.

Lemma keeps_inNumber_exponent line rest i offset t :
  SubjectIRI t = s -> PredicateIRI t = p ->
  K (inNumber_exponent line rest i offset t) (nodes_are s p).
Proof. intros Hs Hp. revert i. induction rest; intros i; simpl; keeps_auto. Qed.

Hint Resolve keeps_inNumber_decimals keeps_inNumber_fraction keeps_inNumber_exponent : keeps.

Lemma keeps_inNumberWithSign fuel line signOffset t :
  SubjectIRI t = s -> PredicateIRI t = p ->
  K (inNumberWithSign fuel line signOffset t) (nodes_are s p).
Proof.
  intros Hs Hp. unfold inNumberWithSign.
  eapply keeps_bind; [apply keeps_inNumber_decimals | intros i Hi].
  eapply keeps_bind; [apply keeps_byte_at; exact Hi | intros c _].
  eapply keeps_bind with (P := fraction_nodes_are s p); [keeps_auto | intros next Hnext].
  destruct next as [literal | j]; keeps_auto.
Qed.

Lemma keeps_nHex_loop line n u b : K (nHex_loop line n u b) any.
Proof. revert line u. induction n; intros line u; simpl; keeps_auto. Qed.

Lemma keeps_nHex line n b : K (nHex line n b) any.
Proof. apply keeps_nHex_loop. Qed.

Hint Resolve keeps_nHex : keeps.

Lemma keeps_inEscape line b : K (inEscape line b) any.
Proof. unfold inEscape. keeps_auto. Qed.

Lemma keeps_inLangTag_loop line rest i offset t :
  SubjectIRI t = s -> PredicateIRI t = p ->
  K (inLangTag_loop line rest i offset t) (nodes_are s p).
Proof. intros Hs Hp. revert i offset. induction rest; intros i offset; simpl; keeps_auto. Qed.

Lemma keeps_inLangTag line t :
  SubjectIRI t = s -> PredicateIRI t = p -> K (inLangTag line t) (nodes_are s p).
Proof. intros Hs Hp. apply keeps_inLangTag_loop; assumption. Qed.

Lemma keeps_ReadPrefix line rest i : K (ReadPrefix line rest i) any.
Proof. revert i. induction rest; intros i; simpl; keeps_auto. Qed.

Lemma keeps_inDatatype_local prefix line rest i t :
  SubjectIRI t = s -> PredicateIRI t = p ->
  K (inDatatype_local prefix line rest i t) (nodes_are s p).
Proof. intros Hs Hp. revert i. induction rest; intros i; simpl; keeps_auto. Qed.

Hint Resolve keeps_inEscape keeps_inLangTag keeps_ReadPrefix keeps_inDatatype_local : keeps.

Lemma keeps_inDatatype line t :
  SubjectIRI t = s -> PredicateIRI t = p -> K (inDatatype line t) (nodes_are s p).
Proof. intros Hs Hp. unfold inDatatype. keeps_auto. Qed.

Hint Resolve keeps_inDatatype : keeps.

Lemma keeps_afterQuotedLiteral line t :
  SubjectIRI t = s -> PredicateIRI t = p -> K (afterQuotedLiteral line t) (nodes_are s p).
Proof. intros Hs Hp. unfold afterQuotedLiteral. keeps_auto. Qed.

Hint Resolve keeps_afterQuotedLiteral : keeps.

Lemma keeps_longSingleQuote_scan fuel b line rest i :
  K (longSingleQuote_scan fuel b line rest i) any.
Proof.
  revert b line rest i. induction fuel; intros b line rest i; simpl; keeps_auto.
Qed.

Hint Resolve keeps_longSingleQuote_scan : keeps.

Lemma keeps_longSingleQuote_loop fuel b line t :
  SubjectIRI t = s -> PredicateIRI t = p ->
  K (longSingleQuote_loop fuel b line t) (nodes_are s p).
Proof.
  intros Hs Hp. revert b line.
  induction fuel as [|fuel IH]; intros b line; cbn [longSingleQuote_loop]; [keeps_auto|].
  keeps_step. destruct a as [b' remainder | b']; [keeps_auto|].
  intros w. destruct (keeps_Reader_line w) as [Hw Hres].
  destruct (Reader_line w) as [[l|e|msg|] w']; cbn [fst snd] in *;
    try (split; [exact Hw | exact Hres]).
  - destruct (IH b' l w') as [Hw' Hres'].
    split; [eapply I_trans; eassumption | exact Hres'].
  - destruct e; cbn [fst snd]; (split; [exact Hw | first [exact Hres | apply E_unexpected]]).
Qed.

Lemma keeps_longSingleQuote fuel copyAsIs line t :
  SubjectIRI t = s -> PredicateIRI t = p ->
  K (longSingleQuote fuel copyAsIs line t) (nodes_are s p).
Proof. apply keeps_longSingleQuote_loop. Qed.

Lemma keeps_Escape fuel q line b t :
  SubjectIRI t = s -> PredicateIRI t = p -> K (Escape fuel q line b t) (nodes_are s p).
Proof. intros Hs Hp. revert b. induction fuel; intros b; simpl; keeps_auto. Qed.

Lemma keeps_inQuoteEscape q fuel copyAsIs line t :
  SubjectIRI t = s -> PredicateIRI t = p ->
  K (inQuoteEscape q fuel copyAsIs line t) (nodes_are s p).
Proof. intros Hs Hp. unfold inQuoteEscape. keeps_auto. apply keeps_Escape; assumption. Qed.

Hint Resolve keeps_longSingleQuote keeps_inQuoteEscape : keeps.

Lemma keeps_inQuote_long q fuel line rest i t :
  SubjectIRI t = s -> PredicateIRI t = p ->
  K (inQuote_long q fuel line rest i t) (nodes_are s p).
Proof.
  intros Hs Hp. remember (length rest) as n eqn:Hn.
  assert (Hle : (length rest <= n)%nat) by lia. clear Hn.
  revert rest i Hle. induction n as [|n IH]; intros rest i Hle.
  - destruct rest; simpl in Hle; [simpl; keeps_auto | lia].
  - destruct rest as [|c rest']; [simpl; keeps_auto|].
    rewrite inQuote_long_cons. simpl in Hle.
    destruct (eqc c q); [|keeps_auto; apply IH; lia].
    destruct rest' as [|c1 [|c2 rest3]]; try (apply IH; simpl in *; lia).
    keeps_auto; apply IH; simpl in *; lia.
Qed.

Lemma keeps_inQuote_short q fuel line rest i t :
  SubjectIRI t = s -> PredicateIRI t = p ->
  K (inQuote_short q fuel line rest i t) (nodes_are s p).
Proof. intros Hs Hp. revert i. induction rest; intros i; simpl; keeps_auto. Qed.

Hint Resolve keeps_inQuote_long keeps_inQuote_short : keeps.

Lemma keeps_inQuote q fuel line t :
  SubjectIRI t = s -> PredicateIRI t = p -> K (inQuote q fuel line t) (nodes_are s p).
Proof. intros Hs Hp. unfold inQuote. keeps_auto. Qed.

Hint Resolve keeps_inUndeterminedObject keeps_inNumberWithSign keeps_inQuote : keeps.

Lemma keeps_readObject fuel line t :
  SubjectIRI t = s -> PredicateIRI t = p -> K (readObject fuel line t) (nodes_are s p).
Proof.
  intros Hs Hp. unfold readObject, inDoubleQuote, inSingleQuote. keeps_auto.
Qed.

End Objects.

(** The statement driver, which appends: [I] has to hold across the
    append of a triple with the subject of the statement. *)
Section Driver.
Variable subject : string.
Hypothesis I_append : forall w t, SubjectIRI t = subject -> I w (with_triple t w).

Lemma keeps_ReadObject_turn fuel predicate line :
  K (ReadObject_turn fuel subject predicate line) any.
Proof.
  unfold ReadObject_turn. cbv zeta.
  eapply keeps_bind; [apply (keeps_readObject subject predicate); reflexivity|].
  intros [line' t] [Hs _]. cbn [snd] in Hs.
  eapply keeps_bind with (P := any).
  { intros w. split; [apply I_append; exact Hs | exact Logic.I]. }
  intros ? _. keeps_auto.
Qed.

Hint Resolve keeps_ReadObject_turn : keeps.

Lemma keeps_ReadObject fuel predicate line : K (ReadObject fuel subject predicate line) any.
Proof. revert line. induction fuel; intros line; simpl; keeps_auto. Qed.

Hint Resolve keeps_ReadObject : keeps.

Lemma keeps_ReadPredicate fuel line : K (ReadPredicate fuel subject line) any.
Proof. revert line. induction fuel; intros line; simpl; keeps_auto. Qed.

End Driver.

Lemma keeps_ReadAppend_body fuel :
  (forall w t, I w (with_triple t w)) -> K (ReadAppend_body fuel) any.
Proof.
  intros I_append. unfold ReadAppend_body.
  eapply keeps_bind; [apply keeps_readSubject | intros [subject line] _].
  apply keeps_ReadPredicate. intros w t _. apply I_append.
Qed.

End Keeps.

Section Instances.
Context `{GoLib}.

(** *** Panics *)

Lemma line_loop_outcome fuel line0 w :
  match fst (line_loop fuel line0 w) with
  | Done line => nonempty_line line
  | Panic _ => False
  | _ => True
  end.
Proof.
  revert line0 w. induction fuel as [|fuel IH]; intros line0 w; simpl.
  - destruct (nonempty (lead line0)) eqn:En; [|exact Logic.I].
    simpl. destruct (lead line0); [discriminate En | discriminate].
  - destruct (nonempty (lead line0)) eqn:En.
    { simpl. destruct (lead line0); [discriminate En | discriminate]. }
    unfold bind, get, modify, syntaxErr, fail; simpl.
    destruct (ReadSlice (R (rdr w))) as [[l err] b]; simpl.
    destruct (is_nil err || errors_Is_EOF err && nonempty l); simpl.
    + destruct (negb (utf8_Valid l)); simpl; [exact Logic.I|]. apply IH.
    + destruct err as [[|e]|]; exact Logic.I.
Qed.

Lemma keeping_panics : keeping any_state any_failure declared_panic.
Proof.
  split; try (intros; exact Logic.I); try (unfold declared_panic; simpl; tauto).
  intros fuel line w. split; [exact Logic.I|].
  pose proof (line_loop_outcome fuel line w) as Ho.
  destruct (fst (line_loop fuel line w)); try exact Logic.I; [exact Ho | contradiction].
Qed.

(** *** The session *)

Lemma ReadSlice_consumes b0 l err b :
  ReadSlice b0 = (l, err, b) ->
  input b0 = l ++ input b /\ at_end b = at_end b0 /\ buf_size b = buf_size b0
  /\ (forall e, err = Some (from_source e) -> input b = [] /\ e = at_end b0).
Proof.
  unfold ReadSlice. destruct (index_LF _) as [i|].
  - intros [= <- <- <-]. cbn [input at_end buf_size].
    rewrite take_drop. repeat split; discriminate.
  - destruct (buf_size b0 <=? length (input b0))%nat.
    + intros [= <- <- <-]. cbn [input at_end buf_size].
      rewrite take_drop. repeat split; discriminate.
    + intros [= <- <- <-]. cbn [input at_end buf_size].
      rewrite drop_all, app_nil_r. repeat split; congruence.
Qed.

Lemma session_kept_refl w : session_kept w w.
Proof. repeat split; auto. exists []. reflexivity. Qed.

Lemma session_kept_trans w1 w2 w3 :
  session_kept w1 w2 -> session_kept w2 w3 -> session_kept w1 w3.
Proof.
  intros (Ha & Hb & (c1 & Hc1) & Hd & He) (Ha' & Hb' & (c2 & Hc2) & Hd' & He').
  repeat split; try congruence.
  - exists (c1 ++ c2). rewrite Hc1, Hc2. apply app_assoc.
  - intros Hset. rewrite Hd' by (rewrite Hd; assumption). auto.
  - intros label Hl. auto.
Qed.

(** A change of the Reader that leaves the buffered reader, the skolem
    root and the prefixes where they are. *)
Lemma session_kept_fields (w : world) (r' : Reader) dst' :
  R r' = R (rdr w) -> skolemIRICache r' = skolemIRICache (rdr w) ->
  prefixPerLabel r' = prefixPerLabel (rdr w) ->
  session_kept w {| rdr := r'; dst := dst' |}.
Proof.
  intros HR Hc Hp. unfold session_kept. cbn [rdr]. rewrite HR, Hc, Hp.
  repeat split; auto. exists []. reflexivity.
Qed.

Lemma session_kept_line fuel line :
  keeps session_kept from_the_source any_panic (line_loop fuel line) nonempty_line.
Proof.
  revert line. induction fuel as [|fuel IH]; intros line w; simpl.
  - destruct (nonempty (lead line)) eqn:En; simpl.
    + split; [apply session_kept_refl|]. destruct (lead line); [discriminate En | discriminate].
    + split; [apply session_kept_refl | exact Logic.I].
  - destruct (nonempty (lead line)) eqn:En.
    { simpl. split; [apply session_kept_refl|].
      destruct (lead line); [discriminate En | discriminate]. }
    unfold bind, get, modify, syntaxErr, fail; simpl.
    destruct (ReadSlice (R (rdr w))) as [[l err] b] eqn:Hread; simpl.
    destruct (ReadSlice_consumes _ _ _ _ Hread) as (Hin & Hend & Hsize & Hsrc).
    assert (Hstep : forall r', R r' = b -> skolemIRICache r' = skolemIRICache (rdr w) ->
                      prefixPerLabel r' = prefixPerLabel (rdr w) ->
                      session_kept w {| rdr := r'; dst := dst w |}).
    { intros r' HR Hc Hp. unfold session_kept. cbn [rdr]. rewrite HR, Hc, Hp, Hend, Hsize.
      repeat split; auto. exists l. exact Hin. }
    destruct (is_nil err || errors_Is_EOF err && nonempty l) eqn:Hgo; simpl.
    + destruct (negb (utf8_Valid l)); simpl.
      * split; [apply Hstep; reflexivity | exact Logic.I].
      * match goal with |- context [line_loop fuel l ?w1] =>
          destruct (IH l w1) as [Hw Hres];
          split; [eapply session_kept_trans; [|exact Hw]; apply Hstep; reflexivity | exact Hres]
        end.
    + destruct err as [[|e]|]; simpl.
      * split; [apply Hstep; reflexivity | exact Logic.I].
      * split; [apply Hstep; reflexivity|].
        destruct (Hsrc e eq_refl) as [Hempty He]. subst e.
        destruct (at_end (R (rdr w))) eqn:Esrc; simpl; rewrite Hend; auto.
      * discriminate Hgo.
Qed.

Lemma keeping_session : keeping session_kept from_the_source any_panic.
Proof.
  split; try (intros; exact Logic.I).
  - apply session_kept_refl.
  - apply session_kept_trans.
  - intros w p. apply session_kept_fields; reflexivity.
  - intros w u. apply session_kept_fields; reflexivity.
  - intros w label prefix. unfold session_kept, with_rdr. cbn [rdr R skolemIRICache set_prefixPerLabel prefixPerLabel].
    repeat split; auto; [exists []; reflexivity|].
    intros l Hl. destruct (decide (label = l)) as [->|Hne].
    + rewrite lookup_insert_eq. eauto.
    + rewrite lookup_insert_ne by exact Hne. exact Hl.
  - intros w. apply session_kept_fields; reflexivity.
  - intros w. apply session_kept_fields; reflexivity.
  - intros w Hcache. apply String.eqb_eq in Hcache.
    unfold session_kept, with_rdr. cbn [rdr R skolemIRICache set_skolemIRICache prefixPerLabel].
    repeat split; auto; [exists []; reflexivity | intros Hset; contradiction].
  - apply session_kept_line.
Qed.

End Instances.

Section Invariants.
Context `{GoLib}.

Lemma ReadAppend_Reader fuel r dst0 :
  returned_Reader (ReadAppend fuel r dst0)
  = rdr (snd (ReadAppend_body fuel {| rdr := r; dst := dst0 |})).
Proof.
  unfold ReadAppend, returned_Reader. destruct (ReadAppend_body fuel _) as [o w]. reflexivity.
Qed.

(** X21. When ReadAppend panics, the message is that of a panic the source
    raises itself (a Unicode escape in an IRI, a collection, a
    predicate-object list in an anonymous node) or that of
    strings.Builder.Grow on a negative count: the index expressions that
    no test of the length guards, those on the lines that line and
    lineContinue return among them, are in range. *)
Theorem ReadAppend_panics_where_the_source_says fuel r dst0 msg :
  outcome_of (ReadAppend fuel r dst0) = Panic msg -> declared_panic msg.
Proof.
  rewrite ReadAppend_outcome. intros Hp.
  destruct (keeps_ReadAppend_body _ _ _ keeping_panics fuel
              (fun _ _ => Logic.I) {| rdr := r; dst := dst0 |}) as [_ Hres].
  rewrite Hp in Hres. exact Hres.
Qed.

Lemma session_kept_append w t : session_kept w (with_triple t w).
Proof. apply session_kept_fields; reflexivity. Qed.

(** X22. Whatever ReadAppend returns, it leaves the source and the size of
    the buffer as they were, the input is what it was less a prefix that
    was consumed, a skolem root that was set is kept, and every label that
    had a prefix has one. *)
Theorem ReadAppend_keeps_the_session fuel r dst0 :
  let r' := returned_Reader (ReadAppend fuel r dst0) in
  at_end (R r') = at_end (R r)
  /\ buf_size (R r') = buf_size (R r)
  /\ (exists consumed, input (R r) = consumed ++ input (R r'))
  /\ (skolemIRICache r <> "" -> skolemIRICache r' = skolemIRICache r)
  /\ (forall label, is_Some (prefixPerLabel r !! label) -> is_Some (prefixPerLabel r' !! label)).
Proof.
  cbv zeta. rewrite ReadAppend_Reader.
  exact (proj1 (keeps_ReadAppend_body _ _ _ keeping_session fuel session_kept_append
                  {| rdr := r; dst := dst0 |})).
Qed.

(** X23. ReadAppend returns io.EOF only when the source ends with io.EOF
    and all of the input is consumed, and dst is then returned as it was
    given; it returns an error of the stream only when the source fails
    with that error and all of the input is consumed. *)
Theorem ReadAppend_errors_of_the_source fuel r dst0 :
  let r' := returned_Reader (ReadAppend fuel r dst0) in
  (outcome_of (ReadAppend fuel r dst0) = Fail io_EOF ->
   at_end (R r) = src_EOF /\ input (R r') = [] /\ returned_dst (ReadAppend fuel r dst0) = dst0)
  /\ (forall msg, outcome_of (ReadAppend fuel r dst0) = Fail (stream_error msg) ->
      at_end (R r) = src_failure msg /\ input (R r') = []).
Proof.
  cbv zeta. rewrite ReadAppend_Reader, ReadAppend_outcome.
  destruct (keeps_ReadAppend_body _ _ _ keeping_session fuel session_kept_append
              {| rdr := r; dst := dst0 |}) as [(Hend & _) Hres].
  cbn [rdr] in Hend. split.
  - intros He. rewrite He in Hres. destruct Hres as [Hin Hsrc].
    split; [congruence|]. split; [exact Hin|].
    apply ReadAppend_at_EOF. apply (ReadAppend_kept fuel).
    rewrite ReadAppend_outcome. exact He.
  - intros msg He. rewrite He in Hres. destruct Hres as [Hin Hsrc].
    split; [congruence | exact Hin].
Qed.

(** *** The triples of one statement *)

Lemma keeping_same_dst : keeping same_dst any_failure any_panic.
Proof.
  split; try (intros; exact Logic.I); try (intros; reflexivity).
  - intros w1 w2 w3 H1 H2. unfold same_dst in *. congruence.
  - intros fuel line w. split; [apply line_loop_dst|].
    pose proof (line_loop_outcome fuel line w) as Ho.
    destruct (fst (line_loop fuel line w)); try exact Logic.I. exact Ho.
Qed.

Lemma appended_of_refl s w : appended_of s w w.
Proof. exists []. split; [symmetry; apply app_nil_r | constructor]. Qed.

Lemma appended_of_same s w w' : dst w' = dst w -> appended_of s w w'.
Proof. intros E. exists []. split; [rewrite app_nil_r; exact E | constructor]. Qed.

Lemma appended_of_append s w t : SubjectIRI t = s -> appended_of s w (with_triple t w).
Proof. intros Ht. exists [t]. split; [reflexivity|]. repeat constructor. exact Ht. Qed.

Lemma keeping_appended_of s : keeping (appended_of s) any_failure any_panic.
Proof.
  split; try (intros; exact Logic.I); try (intros; apply appended_of_same; reflexivity).
  - intros w1 w2 w3 (n1 & E1 & F1) (n2 & E2 & F2). exists (n1 ++ n2). split.
    + rewrite E2, E1. symmetry. apply app_assoc.
    + apply Forall_app. split; assumption.
  - intros fuel line w. split; [apply appended_of_same; apply line_loop_dst|].
    pose proof (line_loop_outcome fuel line w) as Ho.
    destruct (fst (line_loop fuel line w)); try exact Logic.I. exact Ho.
Qed.

Lemma bind_Done_inv {A B} (m : M A) (k : A -> M B) w b w2 :
  bind m k w = (Done b, w2) -> exists a w1, m w = (Done a, w1) /\ k a w1 = (Done b, w2).
Proof.
  unfold bind. destruct (m w) as [[a|e|msg|] w1]; try discriminate. eauto.
Qed.

Lemma dst_kept {A} (m : M A) Q w :
  keeps same_dst any_failure any_panic m Q -> dst (snd (m w)) = dst w.
Proof. intros Hm. exact (proj1 (Hm w)). Qed.

Lemma ReadObject_turn_appends fuel subject predicate line w next w' :
  ReadObject_turn fuel subject predicate line w = (Done next, w') ->
  exists t, dst w' = dst w ++ [t].
Proof.
  unfold ReadObject_turn. cbv zeta. intros Hrun.
  apply bind_Done_inv in Hrun. destruct Hrun as ([line1 t] & w1 & Hobj & Hrun).
  apply bind_Done_inv in Hrun. destruct Hrun as ([] & w2 & Happ & Hrun).
  apply bind_Done_inv in Hrun. destruct Hrun as (line2 & w3 & Hcont & Hrun).
  apply bind_Done_inv in Hrun. destruct Hrun as (c & w4 & Hc & Hrun).
  exists t.
  pose proof (dst_kept _ _ w (keeps_readObject _ _ _ keeping_same_dst subject predicate
                               fuel line (blank_triple subject predicate) eq_refl eq_refl)) as H1.
  unfold blank_triple in H1.
  rewrite Hobj in H1. cbn [snd] in H1.
  unfold append_dst in Happ. injection Happ as <-.
  pose proof (dst_kept _ _ {| rdr := rdr w1; dst := dst w1 ++ [t] |}
                (keeps_lineContinue _ _ _ keeping_same_dst line1)) as H3.
  rewrite Hcont in H3. cbn [snd dst] in H3.
  assert (H4 : dst w4 = dst w3).
  { destruct line2; [discriminate Hc | injection Hc as _ <-; reflexivity]. }
  assert (H5 : dst w' = dst w4).
  { destruct (eqc c "."); [|destruct (eqc c ","); [|destruct (eqc c ";")]].
    - unfold bind, modify, ret in Hrun. injection Hrun as _ <-. reflexivity.
    - injection Hrun as _ <-. reflexivity.
    - injection Hrun as _ <-. reflexivity.
    - discriminate Hrun. }
  congruence.
Qed.

Lemma ReadObject_appends fuel subject predicate line w x w' :
  ReadObject fuel subject predicate line w = (Done x, w') ->
  exists t new, dst w' = dst w ++ t :: new.
Proof.
  revert line w. induction fuel as [|fuel IH]; intros line w; [discriminate|].
  rewrite ReadObject_S. intros Hrun.
  apply bind_Done_inv in Hrun. destruct Hrun as (next & w1 & Hturn & Hrun).
  apply ReadObject_turn_appends in Hturn. destruct Hturn as [t Ht].
  destruct next as [|line1|line1].
  - injection Hrun as _ <-. exists t, []. exact Ht.
  - apply IH in Hrun. destruct Hrun as (t' & new & Hnew).
    exists t, (t' :: new). rewrite Hnew, Ht, <- app_assoc. reflexivity.
  - injection Hrun as _ <-. exists t, []. exact Ht.
Qed.

Lemma ReadPredicate_appends fuel subject line w w' :
  ReadPredicate fuel subject line w = (Done tt, w') ->
  exists t new, dst w' = dst w ++ t :: new.
Proof.
  revert line w. induction fuel as [|fuel IH]; intros line w; [discriminate|].
  rewrite ReadPredicate_S. intros Hrun.
  apply bind_Done_inv in Hrun. destruct Hrun as ([predicate line1] & w1 & Hpred & Hrun).
  apply bind_Done_inv in Hrun. destruct Hrun as (next & w2 & Hobj & Hrun).
  pose proof (dst_kept _ _ w (keeps_readPredicate _ _ _ keeping_same_dst line)) as H1.
  rewrite Hpred in H1. cbn [snd] in H1.
  apply ReadObject_appends in Hobj. destruct Hobj as (t & new & Hnew).
  destruct next as [line2|].
  - apply IH in Hrun. destruct Hrun as (t' & new' & Hnew').
    exists t, (new ++ t' :: new'). rewrite Hnew', Hnew, H1, <- app_assoc. reflexivity.
  - injection Hrun as <-. exists t, new. rewrite Hnew, H1. reflexivity.
Qed.

(** X24. One call of ReadAppend returns dst followed by triples that all
    have one subject, and by at least one triple when it returns without
    error. *)
Theorem ReadAppend_appends_one_subject fuel r dst0 :
  exists subject new,
    returned_dst (ReadAppend fuel r dst0) = dst0 ++ new
    /\ Forall (fun t => SubjectIRI t = subject) new
    /\ (outcome_of (ReadAppend fuel r dst0) = Done tt -> new <> []).
Proof.
  rewrite ReadAppend_returned, ReadAppend_outcome.
  set (w0 := {| rdr := r; dst := dst0 |}).
  unfold ReadAppend_body, bind.
  pose proof (dst_kept _ _ w0 (keeps_readSubject _ _ _ keeping_same_dst fuel)) as Hsub.
  destruct (readSubject fuel w0) as [[[subject line]|e|msg|] w1] eqn:Esub;
    cbn [snd fst] in *;
    try (exists "", []; rewrite app_nil_r; repeat split;
         [exact Hsub | constructor | discriminate]).
  destruct (keeps_ReadPredicate _ _ _ (keeping_appended_of subject) subject
              (appended_of_append subject)
              fuel line w1) as [(new & Hnew & Hall) _].
  exists subject, new. rewrite Hnew, Hsub. repeat split; [exact Hall|].
  intros Hdone Hempty. subst new.
  destruct (ReadPredicate fuel subject line w1) as [o w2] eqn:Erun.
  cbn [fst snd] in *. subst o.
  apply ReadPredicate_appends in Erun. destruct Erun as (t & new' & Hgrow).
  rewrite Hgrow, app_nil_r in Hnew.
  apply (f_equal length) in Hnew. rewrite length_app in Hnew. simpl in Hnew. lia.
Qed.

End Invariants.

Section Input.
Context `{GoLib}.

Lemma index_LF_found (l rest : bytes) :
  forallb notLF l = true -> index_LF (l ++ LF :: rest) = Some (length l).
Proof.
  induction l as [|c l IH]; simpl; [reflexivity|]. intros Hl.
  apply andb_true_iff in Hl. destruct Hl as [Hc Hl]. apply negb_true_iff in Hc.
  rewrite Hc, (IH Hl). reflexivity.
Qed.

Lemma ReadSlice_line (b : bufio_Reader) l more :
  input b = l ++ LF :: more -> forallb notLF l = true -> (length l < buf_size b)%nat ->
  ReadSlice b
  = (l ++ [LF], None, {| input := more; at_end := at_end b; buf_size := buf_size b |}).
Proof.
  intros Hin Hl Hfit. unfold ReadSlice. rewrite Hin.
  assert (Htake : take (buf_size b) (l ++ LF :: more)
                  = l ++ LF :: take (buf_size b - S (length l)) more).
  { rewrite take_app. rewrite take_ge by lia. f_equal.
    destruct (buf_size b - length l)%nat as [|n] eqn:En; [lia|].
    cbn [take]. f_equal. f_equal. lia. }
  rewrite Htake, index_LF_found by exact Hl.
  change (LF :: more) with ([LF] ++ more). rewrite app_assoc.
  replace (S (length l)) with (length (l ++ [LF])) by (rewrite length_app; simpl; lia).
  rewrite take_app_length, drop_app_length. reflexivity.
Qed.

(** One turn of the loop of [line] on a line that fits in the buffer. *)
Lemma line_loop_turn fuel line (r : Reader) dst0 l more :
  lead line = [] ->
  input (R r) = l ++ LF :: more -> forallb notLF l = true ->
  (length l < buf_size (R r))%nat -> utf8_Valid l = true ->
  line_loop (S fuel) line {| rdr := r; dst := dst0 |}
  = line_loop fuel (l ++ [LF]) {| rdr := next_line more r; dst := dst0 |}.
Proof.
  intros Hblank Hin Hl Hfit Hutf.
  cbn [line_loop]. rewrite Hblank. cbn [nonempty length Nat.eqb negb].
  unfold bind at 1. unfold get. cbn [rdr]. rewrite (ReadSlice_line _ _ _ Hin Hl Hfit).
  unfold bind at 1. unfold modify at 1. cbn [rdr dst is_nil orb].
  unfold bind at 1. unfold modify at 1. cbn [rdr dst].
  rewrite (utf8_Valid_app l [LF] Hutf). cbn [utf8_Valid]. cbn [negb].
  reflexivity.
Qed.

Lemma Reader_line_next (r : Reader) dst0 l more :
  lead (pending r) = [] ->
  input (R r) = l ++ LF :: more -> forallb notLF l = true ->
  (length l < buf_size (R r))%nat -> utf8_Valid l = true ->
  nonempty (lead (l ++ [LF])) = true ->
  Reader_line {| rdr := r; dst := dst0 |}
  = (Done (lead (l ++ [LF])), {| rdr := next_line more r; dst := dst0 |}).
Proof.
  intros Hblank Hin Hl Hfit Hutf Hlead.
  unfold Reader_line, bind, get. cbn [rdr].
  rewrite (line_loop_turn _ _ _ _ l more) by assumption.
  apply line_loop_nonblank. exact Hlead.
Qed.

Lemma lead_LF l : lead l = [] -> lead (l ++ [LF]) = [].
Proof.
  induction l as [|c l IH]; [reflexivity|]. cbn [lead app].
  destruct (eqc c SP || eqc c TAB || eqc c CR); [exact IH|].
  destruct (eqc c "#" || eqc c LF); [reflexivity | discriminate].
Qed.

Lemma skipped_lead l : skipped_line l = true -> lead l = [].
Proof.
  unfold skipped_line. destruct (lead l); [reflexivity | discriminate].
Qed.

Lemma fits_line size l :
  fits size l = true -> forallb notLF l = true /\ (length l < size)%nat /\ utf8_Valid l = true.
Proof.
  unfold fits. rewrite !andb_true_iff, Nat.ltb_lt. tauto.
Qed.

Lemma line_loop_at_end fuel line (r : Reader) dst0 :
  lead line = [] -> input (R r) = [] -> at_end (R r) = src_EOF -> (0 < buf_size (R r))%nat ->
  fst (line_loop (S fuel) line {| rdr := r; dst := dst0 |}) = Fail io_EOF.
Proof.
  intros Hblank Hin Hend Hsize.
  cbn [line_loop]. rewrite Hblank. cbn [nonempty length Nat.eqb negb].
  unfold bind at 1. unfold get. cbn [rdr].
  unfold ReadSlice. rewrite Hin, Hend. rewrite take_nil. cbn [index_LF length].
  replace (buf_size (R r) <=? 0)%nat with false by (symmetry; apply Nat.leb_gt; lia).
  reflexivity.
Qed.

Lemma line_loop_last fuel line (r : Reader) dst0 last :
  lead line = [] -> input (R r) = last -> at_end (R r) = src_EOF ->
  forallb notLF last = true -> (length last < buf_size (R r))%nat -> utf8_Valid last = true ->
  lead last = [] -> (length last < fuel)%nat ->
  fst (line_loop fuel line {| rdr := r; dst := dst0 |}) = Fail io_EOF.
Proof.
  intros Hblank Hin Hend Hl Hfit Hutf Hlast Hfuel.
  destruct fuel as [|fuel]; [lia|].
  destruct last as [|c last'] eqn:El.
  { apply line_loop_at_end; auto; lia. }
  rewrite <- El in *. assert (Hne : nonempty last = true) by (rewrite El; reflexivity).
  destruct fuel as [|fuel]; [rewrite El in Hfuel; simpl in Hfuel; lia|].
  cbn [line_loop]. rewrite Hblank. cbn [nonempty length Nat.eqb negb].
  unfold bind at 1. unfold get. cbn [rdr].
  unfold ReadSlice. rewrite Hin, Hend.
  rewrite take_ge by lia. rewrite (index_LF_none _ Hl).
  replace (buf_size (R r) <=? length last)%nat with false by (symmetry; apply Nat.leb_gt; lia).
  unfold bind at 1. unfold modify at 1. cbn [rdr dst is_nil errors_Is_EOF orb andb].
  rewrite Hne. unfold bind at 1. unfold modify at 1. cbn [rdr dst].
  rewrite Hutf. cbn [negb].
  apply line_loop_at_end; cbn [R set_lineNo set_R input at_end buf_size rdr]; auto.
  - apply drop_all.
  - lia.
Qed.

Lemma line_loop_skips lines : forall fuel line (r : Reader) dst0 last,
  lead line = [] -> input (R r) = document lines ++ last -> at_end (R r) = src_EOF ->
  forallb (fits (buf_size (R r))) lines = true -> forallb skipped_line lines = true ->
  fits (buf_size (R r)) last = true -> skipped_line last = true ->
  (length (input (R r)) < fuel)%nat ->
  fst (line_loop fuel line {| rdr := r; dst := dst0 |}) = Fail io_EOF.
Proof.
  induction lines as [|l lines IH]; intros fuel line r dst0 last Hblank Hin Hend Hfit Hskip
    Hlast Hlast_skip Hfuel.
  - destruct (fits_line _ _ Hlast) as (Hl & Hlen & Hutf).
    cbn [document map concat app] in Hin. rewrite Hin in Hfuel.
    eapply line_loop_last; eauto using skipped_lead.
  - simpl in Hfit, Hskip. apply andb_true_iff in Hfit. destruct Hfit as [Hfit_l Hfit].
    apply andb_true_iff in Hskip. destruct Hskip as [Hskip_l Hskip].
    destruct (fits_line _ _ Hfit_l) as (Hl & Hlen & Hutf).
    unfold document in Hin. cbn [map concat] in Hin. rewrite <- !app_assoc in Hin.
    cbn [app] in Hin.
    destruct fuel as [|fuel]; [lia|].
    rewrite (line_loop_turn fuel line r dst0 l _ Hblank Hin Hl Hlen Hutf).
    apply IH with (last := last); cbn [R next_line set_lineNo set_R input at_end buf_size rdr];
      auto.
    + apply lead_LF. apply skipped_lead. exact Hskip_l.
    + rewrite Hin in Hfuel. rewrite length_app in Hfuel. cbn [length] in Hfuel.
      unfold document in *. lia.
Qed.

(** X25. On an input of nothing but blank lines and comments, each within
    the buffer, ReadAppend returns io.EOF and dst as it was given. *)
Theorem blanks_and_comments_are_EOF lines last size fuel dst0 :
  forallb (fits size) lines = true -> forallb skipped_line lines = true ->
  fits size last = true -> skipped_line last = true ->
  let r := Reader_sized (document lines ++ last) src_EOF size in
  outcome_of (ReadAppend fuel r dst0) = Fail io_EOF
  /\ returned_dst (ReadAppend fuel r dst0) = dst0.
Proof.
  intros Hfit Hskip Hlast Hlast_skip r. apply ReadAppend_at_EOF.
  unfold Reader_line, bind, get. cbn [rdr r Reader_sized pending R input].
  apply line_loop_skips with (lines := lines) (last := last); auto.
Qed.

End Input.

Section Refused.
Context `{GoLib}.

Lemma ReadAppend_line_fails fuel r dst0 e :
  fst (Reader_line {| rdr := r; dst := dst0 |}) = Fail e ->
  outcome_of (ReadAppend fuel r dst0) = Fail e
  /\ returned_dst (ReadAppend fuel r dst0) = dst0.
Proof.
  intros Hline. rewrite ReadAppend_outcome, ReadAppend_returned.
  unfold ReadAppend_body, readSubject.
  set (w0 := {| rdr := r; dst := dst0 |}) in *.
  assert (Hdst : dst (snd (Reader_line w0)) = dst0).
  { unfold Reader_line, bind, get. cbv beta iota.
    exact (line_loop_dst _ _ w0). }
  destruct (Reader_line w0) as [o w1] eqn:E. simpl in Hline, Hdst. subst o.
  rewrite (bind_Fail _ _ w0 e w1);
    [split; [reflexivity | exact Hdst] | apply bind_Fail; exact E].
Qed.

(** X26. A line that does not fit in the buffer, the bytes the buffer holds
    being without new-line, is the syntax error [line too long] with the
    line number the Reader had, and nothing is appended. *)
Theorem line_longer_than_the_buffer fuel (r : Reader) dst0 :
  lead (pending r) = [] ->
  forallb notLF (take (buf_size (R r)) (input (R r))) = true ->
  (buf_size (R r) <= length (input (R r)))%nat ->
  outcome_of (ReadAppend fuel r dst0) = Fail (SyntaxError (lineNo r) "line too long")
  /\ returned_dst (ReadAppend fuel r dst0) = dst0.
Proof.
  intros Hblank Hno Hlong. apply ReadAppend_line_fails.
  unfold Reader_line, bind at 1, get at 1. cbn [rdr line_loop].
  rewrite Hblank. cbn [nonempty length Nat.eqb negb].
  unfold bind at 1. unfold get. cbn [rdr].
  unfold ReadSlice. rewrite (index_LF_none _ Hno).
  replace (buf_size (R r) <=? length (input (R r)))%nat with true
    by (symmetry; apply Nat.leb_le; exact Hlong).
  reflexivity.
Qed.

(** X27. A line that is not valid UTF-8 is the syntax error
    [invalid UTF-8] with the number of that line, and nothing is
    appended. *)
Theorem line_of_invalid_UTF8 fuel (r : Reader) dst0 l more :
  lead (pending r) = [] ->
  input (R r) = l ++ LF :: more -> forallb notLF l = true ->
  (length l < buf_size (R r))%nat -> utf8_Valid (l ++ [LF]) = false ->
  outcome_of (ReadAppend fuel r dst0) = Fail (SyntaxError (incr (lineNo r)) "invalid UTF-8")
  /\ returned_dst (ReadAppend fuel r dst0) = dst0.
Proof.
  intros Hblank Hin Hl Hfit Hutf. apply ReadAppend_line_fails.
  unfold Reader_line, bind at 1, get at 1. cbn [rdr line_loop].
  rewrite Hblank. cbn [nonempty length Nat.eqb negb].
  unfold bind at 1. unfold get. cbn [rdr]. rewrite (ReadSlice_line _ _ _ Hin Hl Hfit).
  unfold bind at 1. unfold modify at 1. cbn [rdr dst is_nil orb].
  unfold bind at 1. unfold modify at 1. cbn [rdr dst].
  rewrite Hutf. reflexivity.
Qed.

End Refused.

Section Documents.
Context `{GoLib}.

Ltac flatten :=
  repeat first [ rewrite raw_app | rewrite raw_cons | rewrite <- app_assoc
               | rewrite <- app_comm_cons | progress cbn [String.append app raw list_ascii_of_string] ].

Ltac no_LF := repeat first [rewrite forallb_app | progress cbn [forallb]].

(** The line of a well-formed triple, as the Reader goes through it. *)
Lemma well_formed_line t :
  well_formed t = true ->
  exists object rest,
    raw (Triple_String t) ++ [LF]
    = "<"%char :: raw (SubjectIRI t) ++ ">"%char :: SP :: "<"%char :: raw (PredicateIRI t)
        ++ ">"%char :: SP :: object
    /\ (forall fuel w,
          readObject fuel (SP :: object) (blank_triple (SubjectIRI t) (PredicateIRI t)) w
          = (Done (rest, t), w))
    /\ lead rest = "."%char :: [LF]
    /\ forallb notLF (raw (Triple_String t)) = true
    /\ absolute_IRI (SubjectIRI t) = true /\ absolute_IRI (PredicateIRI t) = true.
Proof.
  intros Hwf. destruct t as [subject predicate object datatype tag].
  unfold well_formed in Hwf. cbn [SubjectIRI PredicateIRI Object DatatypeIRI LangTag] in *.
  apply andb_true_iff in Hwf. destruct Hwf as [Hsp Hwf].
  apply andb_true_iff in Hsp. destruct Hsp as [Hs Hp].
  unfold Triple_String, blank_triple. cbn [SubjectIRI PredicateIRI Object DatatypeIRI LangTag].
  destruct (String.eqb datatype "") eqn:Ed.
  - apply String.eqb_eq in Ed. subst datatype.
    apply andb_true_iff in Hwf. destruct Hwf as [Ho Htag].
    apply String.eqb_eq in Htag. subst tag.
    exists ("<"%char :: raw object ++ ">"%char :: SP :: "."%char :: [LF]), (SP :: "."%char :: [LF]).
    split; [flatten; reflexivity|]. split; [intros fuel w; apply readObject_IRI; exact Ho|].
    split; [reflexivity|]. split; [|split; assumption].
    flatten. no_LF.
    rewrite (absolute_IRI_notLF _ Hs), (absolute_IRI_notLF _ Hp), (absolute_IRI_notLF _ Ho).
    reflexivity.
  - apply andb_true_iff in Hwf. destruct Hwf as [Hlit Hwf].
    unfold plain_literal in Hlit. apply andb_true_iff in Hlit. destruct Hlit as [Hlit Hq].
    apply String.eqb_eq in Hq. rewrite Hq. unfold quoted.
    pose proof (forallb_weaken _ _ _ literal_byte_notLF Hlit) as Hno.
    destruct (String.eqb tag "") eqn:Et.
    + apply String.eqb_eq in Et. subst tag.
      exists (dquote :: raw object ++ dquote :: "^"%char :: "^"%char :: "<"%char
                :: raw datatype ++ ">"%char :: SP :: "."%char :: [LF]), (SP :: "."%char :: [LF]).
      split; [flatten; reflexivity|]. split.
      { intros fuel w. rewrite readObject_quoted by (exact Hlit || reflexivity).
        apply afterQuotedLiteral_datatype. exact Hwf. }
      split; [reflexivity|]. split; [|split; assumption].
      flatten. no_LF. rewrite Hno.
      rewrite (absolute_IRI_notLF _ Hs), (absolute_IRI_notLF _ Hp), (absolute_IRI_notLF _ Hwf).
      reflexivity.
    + apply andb_true_iff in Hwf. destruct Hwf as [Hd Htag].
      apply String.eqb_eq in Hd. subst datatype.
      exists (dquote :: raw object ++ dquote :: "@"%char :: raw tag ++ SP :: "."%char :: [LF]),
             ("."%char :: [LF]).
      split; [flatten; reflexivity|]. split.
      { intros fuel w. rewrite readObject_quoted by (exact Hlit || reflexivity).
        apply afterQuotedLiteral_LangTag. exact Htag. }
      split; [reflexivity|]. split; [|split; assumption].
      flatten. no_LF. rewrite Hno.
      rewrite (absolute_IRI_notLF _ Hs), (absolute_IRI_notLF _ Hp).
      rewrite (LangTag_from_notLF _ _ _ Htag). reflexivity.
Qed.

(** ReadAppend on the line of a well-formed triple, from a Reader that has
    nothing pending but blanks. *)
Lemma ReadAppend_statement (r : Reader) got t more fuel :
  well_formed t = true -> line_fits (buf_size (R r)) t = true ->
  lead (pending r) = [] -> input (R r) = raw (Triple_String t) ++ LF :: more ->
  ReadAppend (2 + fuel) r got = (Done tt, got ++ [t], set_pending [LF] (next_line more r)).
Proof.
  intros Hwf Hfits Hblank Hin.
  unfold line_fits in Hfits. apply andb_true_iff in Hfits. destruct Hfits as [Hutf Hfit].
  apply Nat.ltb_lt in Hfit. rewrite <- length_raw in Hfit.
  destruct (well_formed_line t Hwf) as (object & rest & Hline & Hobj & Htail & Hno & Hs & Hp).
  set (l := raw (Triple_String t)) in *.
  assert (Hlead : lead (l ++ [LF]) = l ++ [LF]) by (rewrite Hline; reflexivity).
  assert (Hne : nonempty (lead (l ++ [LF])) = true) by (rewrite Hlead, Hline; reflexivity).
  pose proof (Reader_line_next r got l more Hblank Hin Hno Hfit Hutf Hne) as Hfirst.
  rewrite Hlead, Hline in Hfirst.
  set (rest1 := SP :: "<"%char :: raw (PredicateIRI t) ++ ">"%char :: SP :: object) in *.
  set (w1 := {| rdr := next_line more r; dst := got |}) in *.
  assert (Hsub : readSubject (2 + fuel) {| rdr := r; dst := got |}
                 = (Done (SubjectIRI t, rest1), w1)).
  { unfold readSubject. rewrite (bind_Done _ _ _ _ _ Hfirst).
    cbn [Nat.add readSubject_loop].
    erewrite bind_Done by reflexivity.
    change (eqc "<" "@") with false. change (eqc "<" "<") with true. cbv iota.
    apply inIRI_absolute. exact Hs. }
  unfold ReadAppend, ReadAppend_body.
  rewrite (bind_Done _ _ _ _ _ Hsub). cbv beta iota.
  change (2 + fuel)%nat with (S (S fuel)).
  rewrite (ReadPredicate_one_triple fuel (SubjectIRI t) (PredicateIRI t) rest1 _ rest [LF] t w1
             (readPredicate_IRI (PredicateIRI t) _ _ Hp) (Hobj _ _) Htail).
  reflexivity.
Qed.

Lemma ReadAppend_at_the_end fuel (r : Reader) got :
  lead (pending r) = [] -> input (R r) = [] -> at_end (R r) = src_EOF ->
  (0 < buf_size (R r))%nat ->
  exists r', ReadAppend fuel r got = (Fail io_EOF, got, r').
Proof.
  intros Hblank Hin Hend Hsize.
  destruct (ReadAppend_at_EOF fuel r got) as [Ho Hd].
  { unfold Reader_line, bind, get. cbn [rdr]. apply line_loop_at_end; assumption. }
  destruct (ReadAppend fuel r got) as [[o g] r'].
  unfold outcome_of, returned_dst in *. cbn [fst snd] in *. subst. eauto.
Qed.

Lemma ReadSample_reads ts : forall calls fuel (r : Reader) got,
  forallb well_formed ts = true -> forallb (line_fits (buf_size (R r))) ts = true ->
  lead (pending r) = [] -> input (R r) = raw (NTriples ts) -> at_end (R r) = src_EOF ->
  (0 < buf_size (R r))%nat ->
  exists r', ReadSample (S (length ts + calls)) (2 + fuel) r got = (Done tt, got ++ ts, r').
Proof.
  induction ts as [|t ts IH]; intros calls fuel r got Hwf Hfits Hblank Hin Hend Hsize.
  - cbn [ReadSample].
    destruct (ReadAppend_at_the_end (2 + fuel) r got Hblank Hin Hend Hsize) as [r' Hr'].
    rewrite Hr'. rewrite app_nil_r. eauto.
  - simpl in Hwf, Hfits. apply andb_true_iff in Hwf. destruct Hwf as [Hwf_t Hwf].
    apply andb_true_iff in Hfits. destruct Hfits as [Hfit_t Hfits].
    cbn [NTriples] in Hin. rewrite !raw_app in Hin. change (raw NL) with [LF] in Hin.
    cbn [app] in Hin.
    cbn [ReadSample].
    rewrite (ReadAppend_statement r got t (raw (NTriples ts)) fuel Hwf_t Hfit_t Hblank Hin).
    destruct (IH calls fuel (set_pending [LF] (next_line (raw (NTriples ts)) r)) (got ++ [t]))
      as [r' Hr']; auto.
    exists r'. change (length (t :: ts) + calls)%nat with (S (length ts + calls)).
    rewrite Hr'. rewrite <- app_assoc. reflexivity.
Qed.

(** X28. The lines [t.String()] of well-formed triples, each within the
    buffer, read by the loop of TestReader: ReadAppend returns one triple
    per call and io.EOF at the end, and the triples read are the triples
    written, in their order. *)
Theorem NTriples_are_read_back ts size calls fuel :
  (0 < size)%nat -> forallb well_formed ts = true -> forallb (line_fits size) ts = true ->
  exists r',
    ReadSample (S (length ts) + calls) (2 + fuel) (Reader_sized (raw (NTriples ts)) src_EOF size) []
    = (Done tt, ts, r').
Proof.
  intros Hsize Hwf Hfits.
  apply (ReadSample_reads ts calls fuel (Reader_sized (raw (NTriples ts)) src_EOF size) []);
    auto.
Qed.

End Documents.

Section Prefixes.
Context `{GoLib}.











Lemma inDirective_prefix rest w :
  inDirective (raw "@prefix" ++ rest) w = afterPrefixDirective rest true w.
Proof. reflexivity. Qed.


End Prefixes.

Section Lists.
Context `{GoLib}.

Lemma ReadObject_turn_IRI fuel s p o c after w :
  absolute_IRI o = true ->
  ReadObject_turn fuel s p (SP :: "<"%char :: raw o ++ ">"%char :: SP :: c :: after) w
  = (let* _ := ret tt in
     if eqc c "." then modify (set_pending after) ;; ret terminator
     else if eqc c "," then ret (next_object after)
     else if eqc c ";" then ret (next_predicate after)
     else syntaxErr "illegal triple continuation") (with_triple (IRI_triple s p o) w)
  \/ blank c = true \/ ends_line c = true.
Proof.
  intros Ho.
  destruct (blank c) eqn:Eb; [right; left; reflexivity|].
  destruct (ends_line c) eqn:Ee; [right; right; reflexivity|]. left.
  unfold ReadObject_turn. cbv zeta.
  rewrite (bind_Done _ _ _ _ _ (readObject_IRI o (SP :: c :: after) fuel _ w Ho)).
  cbv beta iota. unfold bind at 1. unfold append_dst at 1.
  assert (Hlead : lead (SP :: c :: after) = c :: after).
  { change (lead (SP :: c :: after)) with (lead (c :: after)). apply lead_keeps; assumption. }
  rewrite (bind_Done _ _ _ _ _ (lineContinue_lead _ _ _ _ Hlead)).
  reflexivity.
Qed.

Lemma ReadObject_list os : forall o fuel s p c after w,
  absolute_IRI o = true -> forallb absolute_IRI os = true ->
  (length os < fuel)%nat -> c = "."%char \/ c = ";"%char ->
  ReadObject fuel s p (objects_text o os (c :: after)) w
  = (Done (if eqc c "." then None else Some after),
     {| rdr := if eqc c "." then set_pending after (rdr w) else rdr w;
        dst := dst w ++ map (IRI_triple s p) (o :: os) |}).
Proof.
  induction os as [|o' os IH]; intros o fuel s p c after w Ho Hos Hfuel Hc.
  - destruct fuel as [|fuel]; [simpl in Hfuel; lia|].
    rewrite ReadObject_S. cbn [objects_text].
    destruct (ReadObject_turn_IRI fuel s p o c after w Ho) as [Hturn | Hbad].
    2:{ destruct Hc as [-> | ->]; destruct Hbad; discriminate. }
    unfold bind at 1. rewrite Hturn.
    destruct Hc as [-> | ->]; reflexivity.
  - destruct fuel as [|fuel]; [simpl in Hfuel; lia|].
    simpl in Hos. apply andb_true_iff in Hos. destruct Hos as [Ho' Hos].
    rewrite ReadObject_S. cbn [objects_text].
    destruct (ReadObject_turn_IRI fuel s p o ","%char (objects_text o' os (c :: after)) w Ho)
      as [Hturn | Hbad]; [|destruct Hbad; discriminate].
    unfold bind at 1. rewrite Hturn. cbn -[ReadObject objects_text].
    rewrite IH; auto; [|simpl in Hfuel; lia].
    cbn [rdr dst with_triple map]. rewrite <- app_assoc. reflexivity.
Qed.

Lemma ReadPredicate_list pos : forall po fuel s tail w,
  verb_ok po = true -> forallb verb_ok pos = true ->
  (turns po pos <= fuel)%nat ->
  ReadPredicate fuel s (predicates_text po pos tail) w
  = (Done tt, {| rdr := set_pending tail (rdr w);
                 dst := dst w ++ statement_triples s po pos |}).
Proof.
  induction pos as [|po' pos IH]; intros [[p o] os] fuel s tail w Hpo Hpos Hfuel.
  - unfold turns in Hfuel. simpl in Hfuel.
    destruct fuel as [|fuel]; [lia|].
    unfold verb_ok in Hpo. rewrite !andb_true_iff in Hpo. destruct Hpo as [[Hp Ho] Hos].
    rewrite ReadPredicate_S. cbn [predicates_text].
    rewrite (bind_Done _ _ _ _ _ (readPredicate_IRI p _ w Hp)). cbv beta iota.
    rewrite (bind_Done _ _ _ _ _
               (ReadObject_list os o fuel s p "."%char tail w Ho Hos ltac:(lia) (or_introl eq_refl))).
    unfold statement_triples. cbn [map concat verb_triples]. rewrite app_nil_r. reflexivity.
  - assert (Hturns : (S (S (length os)) + turns po' pos <= fuel)%nat).
    { unfold turns in *. simpl in *. lia. }
    clear Hfuel. destruct fuel as [|fuel]; [lia|].
    unfold verb_ok in Hpo. rewrite !andb_true_iff in Hpo. destruct Hpo as [[Hp Ho] Hos].
    simpl in Hpos. apply andb_true_iff in Hpos. destruct Hpos as [Hpo' Hpos].
    rewrite ReadPredicate_S. cbn [predicates_text].
    rewrite (bind_Done _ _ _ _ _ (readPredicate_IRI p _ w Hp)). cbv beta iota.
    rewrite (bind_Done _ _ _ _ _
               (ReadObject_list os o fuel s p ";"%char _ w Ho Hos ltac:(lia) (or_intror eq_refl))).
    cbn -[ReadPredicate predicates_text statement_triples].
    rewrite IH; auto; [|lia].
    cbn [rdr dst]. unfold statement_triples. cbn [map concat verb_triples].
    rewrite <- app_assoc. reflexivity.
Qed.

Lemma objects_text_next o os next extra :
  objects_text o os (next ++ extra) = objects_text o os next ++ extra.
Proof.
  revert o. induction os as [|o' os IH]; intros o; cbn [objects_text];
    rewrite <- ?app_assoc; cbn [app]; rewrite <- ?app_assoc; cbn [app]; [reflexivity|].
  rewrite IH. reflexivity.
Qed.

Lemma predicates_text_tail pos : forall po tail,
  predicates_text po pos tail = predicates_text po pos [] ++ tail.
Proof.
  induction pos as [|po' pos IH]; intros [[p o] os] tail; cbn [predicates_text].
  - cbn [app]. rewrite <- app_assoc. cbn [app]. f_equal. f_equal. f_equal. f_equal.
    change ("."%char :: tail) with (["."%char] ++ tail). apply objects_text_next.
  - cbn [app]. rewrite <- app_assoc. cbn [app]. f_equal. f_equal. f_equal. f_equal.
    rewrite (IH po' tail).
    change (";"%char :: predicates_text po' pos [] ++ tail)
      with ((";"%char :: predicates_text po' pos []) ++ tail).
    apply objects_text_next.
Qed.

(** X30. A statement of IRI references with its predicates separated by
    semicolons and the objects of each by commas, on one line: one call
    of ReadAppend appends a triple for every object, in the order of the
    text, each with the subject of the statement and the predicate before
    it, and leaves the rest of the input to the next call. *)
Theorem predicate_and_object_lists s po pos more fuel (r : Reader) got :
  absolute_IRI s = true -> verb_ok po = true -> forallb verb_ok pos = true ->
  fits (buf_size (R r)) (statement_text s po pos) = true ->
  lead (pending r) = [] ->
  input (R r) = statement_text s po pos ++ LF :: more ->
  ReadAppend (1 + turns po pos + fuel) r got
  = (Done tt, got ++ statement_triples s po pos, set_pending [LF] (next_line more r)).
Proof.
  intros Hs Hpo Hpos Hfit Hblank Hin.
  destruct (fits_line _ _ Hfit) as (Hno & Hlen & Hutf).
  assert (Hline : statement_text s po pos ++ [LF]
                  = "<"%char :: raw s ++ ">"%char :: predicates_text po pos [LF]).
  { unfold statement_text. cbn [app]. rewrite <- app_assoc. cbn [app].
    rewrite (predicates_text_tail pos po [LF]). reflexivity. }
  assert (Hfirst : Reader_line {| rdr := r; dst := got |}
                   = (Done (statement_text s po pos ++ [LF]),
                      {| rdr := next_line more r; dst := got |})).
  { rewrite (Reader_line_next r got (statement_text s po pos) more); try assumption;
      rewrite Hline; reflexivity. }
  assert (Hsub : readSubject (S (turns po pos + fuel)) {| rdr := r; dst := got |}
                 = (Done (s, predicates_text po pos [LF]),
                    {| rdr := next_line more r; dst := got |})).
  { unfold readSubject. rewrite (bind_Done _ _ _ _ _ Hfirst). rewrite Hline.
    cbn [readSubject_loop]. cbn [first_byte]. erewrite bind_Done by reflexivity.
    change (eqc "<" "@") with false. change (eqc "<" "<") with true. cbv iota zeta.
    apply inIRI_absolute. exact Hs. }
  change (1 + turns po pos + fuel)%nat with (S (turns po pos + fuel)).
  unfold ReadAppend, ReadAppend_body.
  rewrite (bind_Done _ _ _ _ _ Hsub). cbv beta iota.
  rewrite ReadPredicate_list; auto; lia.
Qed.

End Lists.

Section Keywords.
Context `{GoLib}.

Lemma ReadToken_word word line ws rest i :
  forallb isLetter word = true -> isWS ws = true ->
  ReadToken None line (word ++ ws :: rest) i = Some (None, line, (i + length word)%nat).
Proof.
  revert i. induction word as [|c word IH]; intros i Hw Hws.
  - cbn [app length ReadToken]. rewrite Hws, Nat.add_0_r. reflexivity.
  - simpl in Hw. apply andb_true_iff in Hw. destruct Hw as [Hc Hw].
    assert (Hclass : isWS c = false /\ eqc c ":" = false).
    { revert Hc. destruct c as [[] [] [] [] [] [] [] []]; vm_compute; intuition discriminate. }
    destruct Hclass as [H1 H2].
    cbn [app ReadToken]. rewrite H1, H2.
    replace (i + length (c :: word))%nat with (S i + length word)%nat by (simpl; lia).
    apply IH; assumption.
Qed.

Lemma either_letter c u l :
  either c u l = true -> isLetter u = true -> isLetter l = true -> isLetter c = true.
Proof.
  unfold either. intros Hc Hu Hl. apply orb_true_iff in Hc.
  destruct Hc as [Hc | Hc]; apply Ascii.eqb_eq in Hc; subst c; assumption.
Qed.

Lemma spelled_letters token upper lower :
  spelled token upper lower = true -> forallb isLetter upper = true ->
  forallb isLetter lower = true ->
  forallb isLetter token = true /\ length token = length upper.
Proof.
  revert upper lower. induction token as [|c token IH]; intros [|u upper] [|l lower];
    try discriminate; [split; reflexivity|].
  cbn [spelled forallb length]. rewrite !andb_true_iff.
  intros [Hc Hs] [Hu Hupper] [Hl Hlower].
  destruct (IH _ _ Hs Hupper Hlower) as [Ht Hlen].
  split; [split; [exact (either_letter c u l Hc Hu Hl) | exact Ht] | rewrite Hlen; reflexivity].
Qed.

Lemma inUndeterminedSubject_word word ws rest w :
  forallb isLetter word = true -> isWS ws = true ->
  inUndeterminedSubject (word ++ ws :: rest) w
  = match word with
    | [c0; c1; c2; c3] =>
        if either c0 "B" "b" && either c1 "A" "a" && either c2 "S" "s" && either c3 "E" "e"
        then let* line := afterBaseDirective rest false in ret ("", line)
        else syntaxErr "illegal subject token"
    | [c0; c1; c2; c3; c4; c5] =>
        if either c0 "P" "p" && either c1 "R" "r" && either c2 "E" "e"
           && either c3 "F" "f" && either c4 "I" "i" && either c5 "X" "x"
        then let* line := afterPrefixDirective rest false in ret ("", line)
        else syntaxErr "illegal subject token"
    | _ => syntaxErr "illegal subject token"
    end w.
Proof.
  intros Hw Hws. unfold inUndeterminedSubject.
  rewrite ReadToken_word by assumption. cbv beta iota zeta. cbn [Nat.add].
  rewrite take_app_length.
  change (ws :: rest) with ([ws] ++ rest). rewrite app_assoc.
  replace (S (length word)) with (length (word ++ [ws])) by (rewrite length_app; simpl; lia).
  rewrite drop_app_length. reflexivity.
Qed.

(** X20. The directives of SPARQL: a first token that spells PREFIX
    or BASE in any mix of capitals and small letters is a directive that
    no dot closes: what follows the token goes to afterPrefixDirective or
    afterBaseDirective, and their remainder is returned with the empty
    IRI. A first token of letters that spells neither is a syntax
    error. *)
Theorem SPARQL_keywords_in_any_case token ws rest w :
  isWS ws = true ->
  (spelled token (raw "PREFIX") (raw "prefix") = true ->
   inUndeterminedSubject (token ++ ws :: rest) w
   = (let* line := afterPrefixDirective rest false in ret ("", line)) w)
  /\ (spelled token (raw "BASE") (raw "base") = true ->
      inUndeterminedSubject (token ++ ws :: rest) w
      = (let* line := afterBaseDirective rest false in ret ("", line)) w)
  /\ (forallb isLetter token = true ->
      spelled token (raw "PREFIX") (raw "prefix") = false ->
      spelled token (raw "BASE") (raw "base") = false ->
      inUndeterminedSubject (token ++ ws :: rest) w = syntaxErr "illegal subject token" w).
Proof.
  intros Hws. split; [|split].
  - intros Hs. destruct (spelled_letters _ _ _ Hs eq_refl eq_refl) as [Hl Hlen].
    rewrite inUndeterminedSubject_word by assumption.
    destruct token as [|c0 [|c1 [|c2 [|c3 [|c4 [|c5 [|]]]]]]]; try discriminate Hlen.
    cbn [spelled raw list_ascii_of_string] in Hs. rewrite andb_true_r in Hs.
    rewrite <- !andb_assoc. rewrite Hs. reflexivity.
  - intros Hs. destruct (spelled_letters _ _ _ Hs eq_refl eq_refl) as [Hl Hlen].
    rewrite inUndeterminedSubject_word by assumption.
    destruct token as [|c0 [|c1 [|c2 [|c3 [|]]]]]; try discriminate Hlen.
    cbn [spelled raw list_ascii_of_string] in Hs. rewrite andb_true_r in Hs.
    rewrite <- !andb_assoc. rewrite Hs. reflexivity.
  - intros Hl Hp Hb. rewrite inUndeterminedSubject_word by assumption.
    destruct token as [|c0 [|c1 [|c2 [|c3 [|c4 [|c5 [|]]]]]]]; try reflexivity.
    + cbn [spelled raw list_ascii_of_string] in Hb. rewrite andb_true_r in Hb.
      rewrite <- !andb_assoc. rewrite Hb. reflexivity.
    + cbn [spelled raw list_ascii_of_string] in Hp. rewrite andb_true_r in Hp.
      rewrite <- !andb_assoc. rewrite Hp. reflexivity.
Qed.

End Keywords.

(** * The properties at inputs of the example library *)

(** At the remainder of a statement before its dot. *)
Lemma line_starts_with_a_significant_byte_example :
  exists c rest, raw "." = c :: rest /\ blank c = false /\ ends_line c = false.
Proof.
  apply (@line_starts_with_a_significant_byte exampleLib
           (example_world "") (raw ".") (example_world "") (raw " .")).
  right. reflexivity.
Defined.

(** At an absolute IRI reference. *)
Lemma inIRI_reads_a_reference_example :
  @inIRI exampleLib (raw "<http://e/s> .") (example_world "")
  = (Done ("http://e/s", raw " ."), example_world "").
Proof.
  apply (@inIRI_reads_a_reference exampleLib "http://e/s" (raw " .") (example_world "")).
  reflexivity.
Defined.

(** At a reference with a space in it, and at one that is not closed. *)
Lemma inIRI_refuses_example :
  @inIRI exampleLib (raw "<http://e/a b> .") (example_world "")
  = (Fail (SyntaxError 0 "control character in IRI reference"), example_world "")
  /\ @inIRI exampleLib (raw "<http://e/a") (example_world "")
     = (Fail (io_ErrUnexpectedEOF "URI reference interupted"), example_world "").
Proof.
  apply (@inIRI_refuses exampleLib (raw "http://e/a") SP (raw "b> .") (example_world ""));
    reflexivity.
Defined.

(** At the name [ex:s] with its prefix known. *)
Lemma prefixed_name_expands_example :
  @inUndeterminedSubject exampleLib (raw "ex:s <p> .") prefixed_world
  = (Done ("http://e/s", raw "<p> ."), prefixed_world)
  /\ @readPredicate exampleLib (raw "ex:s <p> .") prefixed_world
     = (Done ("http://e/s", raw "<p> ."), prefixed_world)
  /\ @inUndeterminedObject exampleLib (raw "ex:s <p> .") (blank_triple "s" "p") prefixed_world
     = (Done (raw "<p> .", set_Object "http://e/s" (blank_triple "s" "p")), prefixed_world).
Proof.
  apply (@prefixed_name_expands exampleLib (raw "ex") "s"%char [] SP (raw "<p> .")
           (blank_triple "s" "p") prefixed_world); reflexivity.
Defined.

(** At the directive of the prefix [ex:]. *)
Lemma afterPrefixDirective_registers_example :
  @afterPrefixDirective exampleLib (raw " ex: <http://e/> .") false (example_world "")
  = (Done (raw " ."), prefixed_world)
  /\ (lead (raw " .") = "."%char :: [] ->
      @afterPrefixDirective exampleLib (raw " ex: <http://e/> .") true (example_world "")
      = (Done [], prefixed_world)).
Proof.
  apply (@afterPrefixDirective_registers exampleLib (raw "ex") "http://e/" (raw " .") []
           (example_world "")); reflexivity.
Defined.

(** At a base directive. *)
Lemma afterBaseDirective_sets_the_base_example :
  exists u, @url_Parse exampleLib "http://e/" = inl u
    /\ @afterBaseDirective exampleLib (raw " <http://e/> .") false (example_world "")
       = (Done (raw " ."), @with_base exampleLib (Some u) (example_world ""))
    /\ (lead (raw " .") = "."%char :: [] ->
        @afterBaseDirective exampleLib (raw " <http://e/> .") true (example_world "")
        = (Done [], @with_base exampleLib (Some u) (example_world ""))).
Proof.
  apply (@afterBaseDirective_sets_the_base exampleLib "http://e/" (raw " .") []
           (example_world "")); reflexivity.
Defined.

(** At the labels [alice] and [bob]. *)
Lemma blank_labels_are_skolemized_example :
  @inBlankLabel exampleLib (raw "_:alice <p> .") (example_world "")
  = (Done (@session_root exampleLib (example_world "") +:+ "blank#" +:+ "alice", raw "<p> ."),
     @rooted exampleLib (example_world ""))
  /\ @inBlankLabel exampleLib (raw "_:bob <p> .") (@rooted exampleLib (example_world ""))
     = (Done (@session_root exampleLib (example_world "") +:+ "blank#" +:+ "bob", raw "<p> ."),
        @rooted exampleLib (example_world ""))
  /\ skolemIRICache (rdr (@rooted exampleLib (example_world "")))
     = @session_root exampleLib (example_world "")
  /\ (@session_root exampleLib (example_world "") +:+ "blank#" +:+ "alice"
      = @session_root exampleLib (example_world "") +:+ "blank#" +:+ "bob"
      <-> raw "alice" = raw "bob").
Proof.
  apply (@blank_labels_are_skolemized exampleLib (raw "alice") (raw "bob") SP SP
           (raw "<p> .") (raw "<p> .") (example_world "")); reflexivity.
Defined.

(** At two anonymous nodes, the second with a space in it. *)
Lemma anonymous_nodes_are_numbered_example :
  exists i1 i2 w1 w2,
    @inAnonymous exampleLib 1 (raw "[] <p> .") (example_world "") = (Done (i1, raw " <p> ."), w1)
    /\ @inAnonymous exampleLib 1 (raw "[ ] <p> .") w1 = (Done (i2, raw " <p> ."), w2)
    /\ i1 = @session_root exampleLib (example_world "") +:+ "anon#" +:+ dec 1
    /\ i2 = @session_root exampleLib (example_world "") +:+ "anon#" +:+ dec 2
    /\ i1 <> i2
    /\ i1 <> @session_root exampleLib (example_world "") +:+ "blank#" +:+ "alice".
Proof.
  apply (@anonymous_nodes_are_numbered exampleLib 0 [] [SP] (raw " <p> .") (raw " <p> .")
           "alice" (example_world "")); reflexivity.
Defined.

(** At an anonymous node with a predicate in it. *)
Lemma inAnonymous_panics_on_a_property_list_example :
  fst (@inAnonymous exampleLib 1 (raw "[ <p> <o> ] .") (example_world ""))
  = Panic "TODO: anonymous predicate-object list not implemented yet".
Proof.
  apply (@inAnonymous_panics_on_a_property_list exampleLib 0 [SP] "<"%char (raw "p> <o> ] .")
           (example_world "")); reflexivity.
Defined.

(** At [1], [1.5] and [1.5e-3]. *)
Lemma numbers_with_one_leading_decimal_example :
  @readObject exampleLib 1 (raw " 1 .") (blank_triple "s" "p") (example_world "")
  = (Done (raw ".", set_literal XSDInteger_IRI (raw "1") (blank_triple "s" "p")),
     example_world "")
  /\ @readObject exampleLib 1 (raw " 1.5 .") (blank_triple "s" "p") (example_world "")
     = (Done (raw ".", set_literal XSDDecimal_IRI (raw "1.5") (blank_triple "s" "p")),
        example_world "")
  /\ @readObject exampleLib 1 (raw " 1.5e-3 .") (blank_triple "s" "p") (example_world "")
     = (Done (raw ".", set_literal XSDDouble_IRI (raw "1.5e-3") (blank_triple "s" "p")),
        example_world "").
Proof.
  apply (@numbers_with_one_leading_decimal exampleLib 0 "1"%char (raw "5") "e"%char (raw "-")
           (raw "3") SP (raw ".") (blank_triple "s" "p") (example_world ""));
    first [reflexivity | discriminate | simpl; lia].
Defined.

(** At a statement whose object is missing. *)
Lemma lone_dot_is_an_integer_example :
  @readObject exampleLib 1 (raw " . ") (blank_triple "s" "p") (example_world "")
  = (Done ([], set_literal XSDInteger_IRI (raw ".") (blank_triple "s" "p")), example_world "").
Proof.
  apply (@lone_dot_is_an_integer exampleLib 0 SP [] (blank_triple "s" "p") (example_world "")).
  reflexivity.
Defined.

(** At a literal between apostrophes. *)
Lemma plain_literal_is_an_xsd_string_example :
  @inQuote exampleLib squote 0 (raw "'hi' .") (blank_triple "s" "p") (example_world "")
  = (Done (raw ".", set_DatatypeIRI XSDString_IRI (set_Object "hi" (blank_triple "s" "p"))),
     example_world "").
Proof.
  apply (@plain_literal_is_an_xsd_string exampleLib squote (raw "hi") SP (raw ".") 0
           (blank_triple "s" "p") (example_world "")); [right|..]; reflexivity.
Defined.

(** At a literal with the escape of a new-line. *)
Lemma escape_is_not_decoded_example :
  @inQuote exampleLib squote 1 (raw "'a\nb' .") (blank_triple "s" "p") (example_world "")
  = @afterQuotedLiteral exampleLib (raw " .") (set_Object "a\nb" (blank_triple "s" "p"))
      (example_world "").
Proof.
  apply (@escape_is_not_decoded exampleLib squote (raw "a") (raw "nb") (raw " .") 0
           (blank_triple "s" "p") (example_world ""));
    [right; reflexivity | reflexivity | reflexivity | simpl; lia].
Defined.

(** At a literal with two escapes. *)
Lemma second_escape_never_returns_example :
  @inQuote exampleLib squote 9 (raw "'a\tb\tc' .") (blank_triple "s" "p") (example_world "")
  = (Hang, example_world "").
Proof.
  apply (@second_escape_never_returns exampleLib squote (raw "a") (raw "tb") (raw "tc' .") 9
           (blank_triple "s" "p") (example_world ""));
    [right; reflexivity | reflexivity | reflexivity | simpl; lia].
Defined.

(** At an escape that ends the line. *)
Lemma escape_near_the_end_panics_example :
  @inQuote exampleLib squote 1 (raw "'\n'") (blank_triple "s" "p") (example_world "")
  = (Panic "strings.Builder.Grow: negative count", example_world "").
Proof.
  apply (@escape_near_the_end_panics exampleLib squote [] (raw "n'") 1
           (blank_triple "s" "p") (example_world ""));
    [right; reflexivity | reflexivity | simpl; lia].
Defined.

(** At a long literal between apostrophes. *)
Lemma long_quote_on_one_line_example :
  @inQuote exampleLib squote 1 (raw "'''long text''' .") (blank_triple "s" "p")
    (example_world "")
  = @afterQuotedLiteral exampleLib (raw " .") (set_Object "long text" (blank_triple "s" "p"))
      (example_world "").
Proof.
  apply (@long_quote_on_one_line exampleLib squote (raw "long text") (raw " .") 1
           (blank_triple "s" "p") (example_world "")); [right|]; reflexivity.
Defined.

(** At the tag [en-GB]. *)
Lemma inLangTag_accepts_LANGTAG_example :
  @inLangTag exampleLib (raw "@en-GB .") (blank_triple "s" "p") (example_world "")
  = (Done (raw ".", set_LangTag "en-GB" (set_DatatypeIRI rdf_langString (blank_triple "s" "p"))),
     example_world "").
Proof.
  apply (proj1 (@inLangTag_accepts_LANGTAG exampleLib (raw "en-GB") SP (raw ".")
                  (blank_triple "s" "p") (example_world "") eq_refl)).
  exists (raw "en"), [raw "GB"]. repeat split; try discriminate.
  repeat constructor. discriminate.
Defined.

(** At the datatype [ex:int]. *)
Lemma datatype_by_prefixed_name_example :
  @afterQuotedLiteral exampleLib (raw "^^ex:int .") (blank_triple "s" "p") prefixed_world
  = (Done (raw ".", set_DatatypeIRI "http://e/int" (blank_triple "s" "p")), prefixed_world).
Proof.
  apply (@datatype_by_prefixed_name exampleLib (raw "ex") (raw "int") SP (raw ".")
           (blank_triple "s" "p") prefixed_world); reflexivity.
Defined.

(** At the keyword written [Prefix]. *)
Lemma SPARQL_keywords_in_any_case_example :
  @inUndeterminedSubject exampleLib (raw "Prefix ex: <http://e/>") (example_world "")
  = (let* line := @afterPrefixDirective exampleLib (raw "ex: <http://e/>") false in
     ret ("", line)) (example_world "").
Proof.
  apply (proj1 (@SPARQL_keywords_in_any_case exampleLib (raw "Prefix") SP
                  (raw "ex: <http://e/>") (example_world "") eq_refl)).
  reflexivity.
Defined.

(** At a statement with a predicate-object list in an anonymous node. *)
Lemma ReadAppend_panics_where_the_source_says_example :
  declared_panic "TODO: anonymous predicate-object list not implemented yet".
Proof.
  apply (@ReadAppend_panics_where_the_source_says exampleLib 3
           (@Reader_over exampleLib ("[ <http://e/p> 1 ] <http://e/p> 2 ." +:+ NL)) []).
  vm_compute. reflexivity.
Defined.

(** At a comment, a line of blanks, an empty line and a comment that
    no new-line closes. *)
Lemma blanks_and_comments_are_EOF_example :
  outcome_of (@ReadAppend exampleLib 1
                (@Reader_sized exampleLib
                   (document [raw "# comment"; raw "  "; []] ++ raw "  # end") src_EOF 4096) [])
  = Fail io_EOF
  /\ returned_dst (@ReadAppend exampleLib 1
                     (@Reader_sized exampleLib
                        (document [raw "# comment"; raw "  "; []] ++ raw "  # end") src_EOF 4096) [])
     = [].
Proof.
  apply (@blanks_and_comments_are_EOF exampleLib [raw "# comment"; raw "  "; []] (raw "  # end")
           4096 1 []); vm_compute; reflexivity.
Defined.

(** At a statement of forty bytes and a buffer of sixteen. *)
Lemma line_longer_than_the_buffer_example :
  outcome_of (@ReadAppend exampleLib 1
                (@Reader_sized exampleLib (raw ("<http://e/s> <http://e/p> <http://e/o> ." +:+ NL))
                   src_EOF 16) [])
  = Fail (SyntaxError 0 "line too long")
  /\ returned_dst (@ReadAppend exampleLib 1
                     (@Reader_sized exampleLib
                        (raw ("<http://e/s> <http://e/p> <http://e/o> ." +:+ NL)) src_EOF 16) [])
     = [].
Proof.
  apply (@line_longer_than_the_buffer exampleLib 1
           (@Reader_sized exampleLib (raw ("<http://e/s> <http://e/p> <http://e/o> ." +:+ NL))
              src_EOF 16) []);
    [reflexivity | reflexivity | vm_compute; lia].
Defined.

(** At a line that is the byte 0xFF. *)
Lemma line_of_invalid_UTF8_example :
  outcome_of (@ReadAppend exampleLib 1
                (@Reader_sized exampleLib [ascii_of_nat 255; LF] src_EOF 4096) [])
  = Fail (SyntaxError 1 "invalid UTF-8")
  /\ returned_dst (@ReadAppend exampleLib 1
                     (@Reader_sized exampleLib [ascii_of_nat 255; LF] src_EOF 4096) [])
     = [].
Proof.
  apply (@line_of_invalid_UTF8 exampleLib 1
           (@Reader_sized exampleLib [ascii_of_nat 255; LF] src_EOF 4096) []
           [ascii_of_nat 255] []);
    [reflexivity | reflexivity | reflexivity | vm_compute; lia | vm_compute; reflexivity].
Defined.

(** At a typed literal, an IRI object and a language-tagged literal. *)
Lemma NTriples_are_read_back_example :
  exists r',
    @ReadSample exampleLib 4 2
      (@Reader_sized exampleLib
         (raw (@NTriples exampleLib [typed_example; IRI_example; tagged_example])) src_EOF 4096) []
    = (Done tt, [typed_example; IRI_example; tagged_example], r').
Proof.
  apply (@NTriples_are_read_back exampleLib [typed_example; IRI_example; tagged_example]
           4096 0 0); [lia | vm_compute; reflexivity | vm_compute; reflexivity].
Defined.


(** At a statement of two predicates, the first with two objects. *)
Lemma predicate_and_object_lists_example :
  @ReadAppend exampleLib 5
    (@Reader_over exampleLib
       ("<http://e/s> <http://e/p1> <http://e/o1> , <http://e/o2> ; <http://e/p2> <http://e/o3> ."
        +:+ NL)) []
  = (Done tt,
     [IRI_triple "http://e/s" "http://e/p1" "http://e/o1";
      IRI_triple "http://e/s" "http://e/p1" "http://e/o2";
      IRI_triple "http://e/s" "http://e/p2" "http://e/o3"],
     set_pending [LF]
       (@next_line exampleLib []
          (@Reader_over exampleLib
             ("<http://e/s> <http://e/p1> <http://e/o1> , <http://e/o2> ; <http://e/p2> <http://e/o3> ."
              +:+ NL)))).
Proof.
  apply (@predicate_and_object_lists exampleLib "http://e/s"
           ("http://e/p1", "http://e/o1", ["http://e/o2"]) [("http://e/p2", "http://e/o3", [])]
           [] 0
           (@Reader_over exampleLib
              ("<http://e/s> <http://e/p1> <http://e/o1> , <http://e/o2> ; <http://e/p2> <http://e/o3> ."
               +:+ NL)) []);
    vm_compute; reflexivity.
Defined.
